(** * Neo-Postman: the proxy execution engine and its neighbours

    A shallow embedding of
    - [backend/src/services/proxy.service.ts] (executeProxyRequest,
      readResponseBody, categorizeError),
    - [backend/src/models/schema.ts] and [backend/src/routes/proxy.ts]
      (ProxyRequestSchema and the POST /api/proxy handler),
    - the module [hooks/useRequest], at the end of
      [frontend/src/services/api.ts] (headersToRecord),
    - the modules [services/db] and [stores/environment.store]
      (setActiveEnvironment),
    together with the Change Log of the design document, whose server side
    the repository does not contain; and, around these,
    - the client [api.proxy] of [frontend/src/services/api.ts] with the
      frontend's ProxyResponseSchema, and [sendRequest] of
      [hooks/useRequest],
    - the folders of [services/db] (getFolderDepth, createFolder,
      updateFolder, deleteFolder, getDescendantFolderIds),
    - the header rows of [stores/request.store], of the headers editor and
      of the request builder (selectCurrentRequest, HeaderCount),
    - getVariable and getVariablesMap of [stores/environment.store], and
      escapeHtml of the response viewer.

    The backend runs on Deno and the frontend in a browser.  The two
    differ on the key [__proto__] of a plain object: [o[k] = v] creates
    the property on Deno and does nothing in a browser (for a string
    [v]); zod's record, on both sides, leaves the key out of what it
    returns.

    Conventions.  JavaScript numbers that hold sizes, statuses and delays
    are [Z]; clock readings are [Q].  Strings are [string].  Functions of
    the JavaScript runtime that the code calls but does not define
    (String.prototype.toLowerCase, String.prototype.trim, parseInt,
    TextDecoder.decode, the URL parser behind zod's [url()]) are fields of
    a [Runtime] record: every theorem holds for every runtime, and
    [sampleRuntime] is an ASCII instance to run the model on concrete
    inputs.  An awaited promise is modelled by its settled value: either a
    result or a thrown value.  A Dexie table is a finite map from primary
    key to stored object; the order in which a query lists its results is
    not modelled, and the properties speak of membership only.  A
    recursion that need not end takes fuel, and returns [None] when it
    runs out. *)

From Stdlib Require Import ZArith QArith Qround List String Ascii Bool Lia Lqa.
From stdpp Require Import gmap strings list.

Local Open Scope string_scope.
Local Open Scope list_scope.
Local Open Scope Z_scope.

(** ** JavaScript values, exceptions and runtime functions *)

Module Js.

(** A thrown value.  [error instanceof Error] holds for [JsError] only; an
    [Error] has a [name] and a [message], both strings, as the failures
    of [fetch] and of the streams have.  ([Values.Value], further down,
    has the other values as well.) *)
Inductive Thrown : Type :=
  | JsError (name message : string)
  | JsOther.

(** The completion of a statement or of an awaited promise. *)
Inductive Completion (A : Type) : Type :=
  | Normal (a : A)
  | Throw (e : Thrown).
Arguments Normal {A} a.
Arguments Throw {A} e.

Definition bind {A B} (c : Completion A) (k : A -> Completion B) : Completion B :=
  match c with
  | Normal a => k a
  | Throw e => Throw e
  end.

(** [let* x := await c in k] *)
Notation "'let*' x := c 'in' k" := (bind c (fun x => k))
  (at level 10, x pattern, c at level 100, k at level 200, only parsing).

(** [try { block } catch (error) { handler }] *)
Definition try_catch {A} (block : Completion A) (handler : Thrown -> Completion A)
  : Completion A :=
  match block with
  | Normal a => Normal a
  | Throw error => handler error
  end.

Record Runtime : Type := {
  toLowerCase : string -> string;
  trim : string -> string;
  (** [parseInt(s, 10)]; [None] is NaN. *)
  parseInt10 : string -> option Z;
  (** [new TextDecoder().decode(bytes)]: never throws, replaces what it
      cannot decode. *)
  decode : list Byte.byte -> string;
  (** whether [new URL(s)] succeeds, as it does for an absolute URL only,
      there being no base: zod's [url()] check. *)
  urlParses : string -> bool
}.

(** [s.includes(sub)] *)
Fixpoint includes (s sub : string) : bool :=
  String.prefix sub s ||
  match s with
  | EmptyString => false
  | String _ t => includes t sub
  end.

(** Truthiness of a string and of a nullable string. *)
Definition truthy (s : string) : bool := negb (String.eqb s EmptyString).

Definition truthy_opt (o : option string) : bool :=
  match o with
  | Some s => truthy s
  | None => false
  end.

(** [o[k] = v] on a plain object whose values are strings: the key
    [__proto__] reaches the prototype setter, which ignores a string. *)
Definition set_prop (o : gmap string string) (k v : string) : gmap string string :=
  if String.eqb k "__proto__" then o else <[k:=v]> o.

(** *** An ASCII runtime, to evaluate the model *)

Definition lower_ascii (c : ascii) : ascii :=
  let n := nat_of_ascii c in
  if (65 <=? n)%nat && (n <=? 90)%nat then ascii_of_nat (n + 32) else c.

Fixpoint lower_string (s : string) : string :=
  match s with
  | EmptyString => EmptyString
  | String c t => String (lower_ascii c) (lower_string t)
  end.

Definition is_space (c : ascii) : bool :=
  let n := nat_of_ascii c in
  ((9 <=? n)%nat && (n <=? 13)%nat) || (n =? 32)%nat.

Fixpoint trim_start (s : string) : string :=
  match s with
  | String c t => if is_space c then trim_start t else s
  | EmptyString => EmptyString
  end.

Fixpoint trim_end (s : string) : string :=
  match s with
  | EmptyString => EmptyString
  | String c t =>
      match trim_end t with
      | EmptyString => if is_space c then EmptyString else String c EmptyString
      | t' => String c t'
      end
  end.

Definition digit_of (c : ascii) : option Z :=
  let n := nat_of_ascii c in
  if (48 <=? n)%nat && (n <=? 57)%nat then Some (Z.of_nat (n - 48)) else None.

Fixpoint digits_from (s : string) (seen : option Z) : option Z :=
  match s with
  | EmptyString => seen
  | String c t =>
      match digit_of c with
      | Some d => digits_from t (Some (10 * default 0 seen + d))
      | None => seen
      end
  end.

Definition parse_decimal (s : string) : option Z :=
  match trim_start s with
  | String "-" t => Z.opp <$> digits_from t None
  | String "+" t => digits_from t None
  | t => digits_from t None
  end.

Definition has_http_scheme (s : string) : bool :=
  String.prefix "http://" s || String.prefix "https://" s.

Definition sampleRuntime : Runtime := {|
  toLowerCase := lower_string;
  trim := fun s => trim_end (trim_start s);
  parseInt10 := parse_decimal;
  decode := fun bs => string_of_list_ascii (map ascii_of_byte bs);
  urlParses := has_http_scheme
|}.

End Js.

Import Js.

(** ** The data types of [backend/src/models/schema.ts] *)

Module Schema.

(** [HttpMethodSchema] *)
Inductive HttpMethod : Type := GET | POST | PUT | PATCH | DELETE | HEAD | OPTIONS.

Global Instance HttpMethod_eq_dec : EqDecision HttpMethod.
Proof. solve_decision. Defined.

(** [ProxyRequest], the type inferred from [ProxyRequestSchema]. *)
Module Req.
Record ProxyRequest : Type := {
  method : HttpMethod;
  url : string;
  headers : gmap string string;
  (** [string | null | undefined]; null and undefined are both [None] *)
  body : option string;
  timeout : Z
}.
End Req.

(** [Timing]; the service never fills [dns], [connect] and [tls]. *)
Record Timing : Type := {
  total : Z;
  firstByte : option Z;
  download : option Z
}.

Inductive ErrorType : Type := timeout | network | dns | ssl | unknown.

(** A non-null [RequestError]; the nullable type is [option RequestError]. *)
Record RequestError : Type := {
  type : ErrorType;
  message : string
}.

(** [ProxyResponse] *)
Module Res.
Record ProxyResponse : Type := {
  status : Z;
  statusText : string;
  headers : gmap string string;
  body : string;
  bodyTruncated : bool;
  size : Z;
  timing : Timing;
  error : option RequestError
}.
End Res.

End Schema.

(** ** What the service sees of the Fetch API *)

Module Fetch.

(** The body of a response as a [ReadableStream] that settles: the chunks
    it delivers, then either the end of the stream ([failure = None]) or a
    read that rejects; and what [reader.cancel()] rejects with, if it does
    ([cancel_failure = None] when it resolves). *)
Record BodyStream : Type := {
  chunks : list (list Byte.byte);
  failure : option Thrown;
  cancel_failure : option Thrown
}.

(** [RequestInit].  [signal] is the abort signal of the controller: [Some d]
    when a timer aborts it after [d] milliseconds, [None] when nothing ever
    aborts it. *)
Module Init.
Record RequestInit : Type := {
  method : Schema.HttpMethod;
  headers : gmap string string;
  signal : option Z;
  body : option string
}.
End Init.

(** [Response].  [headers] lists the entries in the order [forEach] visits
    them; the names are lower-case, as [Headers] keeps them. *)
Record Response : Type := {
  status : Z;
  statusText : string;
  headers : list (string * string);
  body : option BodyStream
}.

(** [response.headers.get(name)] for a lower-case [name] *)
Definition headers_get (h : list (string * string)) (name : string) : option string :=
  snd <$> List.find (fun entry => String.eqb (fst entry) name) h.

End Fetch.

(** ** The proxy service: [backend/src/services/proxy.service.ts] *)

Module Proxy.

Import Schema.

(** Maximum response body size (10MB) *)
Definition MAX_BODY_SIZE : Z := 10 * 1024 * 1024.

Definition byteLength (b : list Byte.byte) : Z := Z.of_nat (length b).

(** *** Typed arrays *)

(** A relative index of [subarray] and [slice], clamped to the array. *)
Definition clamp_index (len i : Z) : Z :=
  if i <? 0 then Z.max (len + i) 0 else Z.min i len.

(** [a.subarray(from, to)], and [buffer.slice(from, to)] *)
Definition subarray (a : list Byte.byte) (from to : Z) : list Byte.byte :=
  let len := byteLength a in
  let first := clamp_index len from in
  let final := clamp_index len to in
  take (Z.to_nat (final - first)) (drop (Z.to_nat first) a).

(** [new Uint8Array(n)] *)
Definition new_Uint8Array (n : Z) : list Byte.byte :=
  replicate (Z.to_nat n) Byte.x00.

(** [target.set(source, offset)]: a RangeError when the source does not
    fit. *)
Definition typed_set (target source : list Byte.byte) (offset : Z)
  : Completion (list Byte.byte) :=
  if (offset <? 0) || (byteLength target <? offset + byteLength source) then
    Throw (JsError "RangeError" "offset is out of bounds")
  else
    Normal (take (Z.to_nat offset) target ++ source
            ++ drop (Z.to_nat offset + length source) target).

(** *** readResponseBody *)

(** What [readResponseBody] returns; [B] is [string], and the bytes handed
    to the decoder in [readResponseBytes]. *)
Record Read (B : Type) : Type := {
  body : B;
  truncated : bool;
  size : Z
}.
Arguments body {B} r.
Arguments truncated {B} r.
Arguments size {B} r.

(** The loop [while (totalSize < MAX_BODY_SIZE)] over [reader.read()]:
    [pending] is what the stream has not delivered yet. *)
Fixpoint readChunks (pending : list (list Byte.byte)) (failure : option Thrown)
    (chunks : list (list Byte.byte)) (totalSize : Z)
  : Completion (list (list Byte.byte) * Z) :=
  if totalSize <? MAX_BODY_SIZE then
    match pending with
    | [] =>
        match failure with
        | Some e => Throw e
        | None => Normal (chunks, totalSize)
        end
    | value :: rest =>
        readChunks rest failure (chunks ++ [value]) (totalSize + byteLength value)
    end
  else Normal (chunks, totalSize).

(** The loop [for (const chunk of chunks)] that fills [combined]. *)
Fixpoint copyChunks (chunks : list (list Byte.byte)) (combined : list Byte.byte)
    (offset : Z) : Completion (list Byte.byte) :=
  match chunks with
  | [] => Normal combined
  | chunk :: rest =>
      let remaining := MAX_BODY_SIZE - offset in
      let toCopy := Z.min (byteLength chunk) remaining in
      let* combined' := typed_set combined (subarray chunk 0 toCopy) offset in
      let offset' := offset + toCopy in
      if offset' >=? MAX_BODY_SIZE then Normal combined'
      else copyChunks rest combined' offset'
  end.

(** [await reader.cancel()] *)
Definition cancel (stream : Fetch.BodyStream) : Completion unit :=
  match Fetch.cancel_failure stream with
  | Some e => Throw e
  | None => Normal tt
  end.

(** [await response.arrayBuffer()] *)
Definition arrayBuffer (response : Fetch.Response) : Completion (list Byte.byte) :=
  match Fetch.body response with
  | None => Normal []
  | Some stream =>
      match Fetch.failure stream with
      | Some e => Throw e
      | None => Normal (concat (Fetch.chunks stream))
      end
  end.

Section WithRuntime.

Context (rt : Runtime).

(** [declaredSize]: [None] stands for null and for NaN, which the code
    treats alike. *)
Definition declaredSize (response : Fetch.Response) : option Z :=
  match Fetch.headers_get (Fetch.headers response) "content-length" with
  | Some contentLength =>
      if truthy contentLength then parseInt10 rt contentLength else None
  | None => None
  end.

(** The branch [if (declaredSize && declaredSize > MAX_BODY_SIZE)], once
    the reader exists: read partial. *)
Definition readPartial (stream : Fetch.BodyStream) (declaredSize : Z)
  : Completion (Read (list Byte.byte)) :=
  let* (chunks, totalSize) :=
    readChunks (Fetch.chunks stream) (Fetch.failure stream) [] 0 in
  let* _ := cancel stream in
  let combined := new_Uint8Array (Z.min totalSize MAX_BODY_SIZE) in
  let* combined := copyChunks chunks combined 0 in
  Normal {| body := combined; truncated := true; size := declaredSize |}.

(** The rest of the function: read full body. *)
Definition readFull (response : Fetch.Response) : Completion (Read (list Byte.byte)) :=
  let* arrayBuffer := arrayBuffer response in
  let size := byteLength arrayBuffer in
  if size >? MAX_BODY_SIZE then
    Normal {| body := subarray arrayBuffer 0 MAX_BODY_SIZE; truncated := true;
              size := size |}
  else
    Normal {| body := arrayBuffer; truncated := false; size := size |}.

(** [readResponseBody] up to the call of the decoder: [body] holds the
    bytes that are decoded. *)
Definition readResponseBytes (response : Fetch.Response)
  : Completion (Read (list Byte.byte)) :=
  match declaredSize response with
  | Some declared =>
      (* declaredSize && declaredSize > MAX_BODY_SIZE *)
      if negb (declared =? 0) && (declared >? MAX_BODY_SIZE) then
        match Fetch.body response with
        | None => Normal {| body := []; truncated := false; size := 0 |}
        | Some stream => readPartial stream declared
        end
      else readFull response
  | None => readFull response
  end.

Definition readResponseBody (response : Fetch.Response) : Completion (Read string) :=
  let* r := readResponseBytes response in
  Normal {| body := decode rt (body r); truncated := truncated r; size := size r |}.

(** *** categorizeError *)

Definition categorizeError (error : Thrown) : RequestError :=
  match error with
  | JsError name msg =>
      let message := toLowerCase rt msg in
      if String.eqb name "AbortError" || includes message "abort" then
        {| type := timeout; message := "Request timed out" |}
      else if includes message "dns" || includes message "getaddrinfo"
              || includes message "resolve" then
        {| type := dns; message := "DNS lookup failed: " +:+ msg |}
      else if includes message "ssl" || includes message "tls"
              || includes message "certificate" then
        {| type := ssl; message := "SSL/TLS error: " +:+ msg |}
      else if includes message "network" || includes message "connect"
              || includes message "econnrefused" || includes message "econnreset"
              || includes message "enotfound" then
        {| type := network; message := "Network error: " +:+ msg |}
      else
        {| type := unknown; message := msg |}
  | JsOther =>
      {| type := unknown; message := "An unknown error occurred" |}
  end.

(** *** executeProxyRequest *)

(** The world of one call: what [fetch] settles to for the URL and the
    options it is given, and the readings of [performance.now()], numbered
    in the order of the calls. *)
Record World : Type := {
  fetch : string -> Fetch.Init.RequestInit -> Completion Fetch.Response;
  now : nat -> Q
}.

(** [Math.round]: to the nearest integer, halves upwards. *)
Definition Math_round (x : Q) : Z := Qfloor (x + (1 # 2)).

(** [['GET', 'HEAD'].includes(method)] *)
Definition is_GET_or_HEAD (m : HttpMethod) : bool :=
  existsb (fun x => bool_decide (x = m)) [GET; HEAD].

(** [fetchOptions], with the controller and its timer as [signal]. *)
Definition fetchOptions (request : Req.ProxyRequest) : Fetch.Init.RequestInit :=
  {| Fetch.Init.method := Req.method request;
     Fetch.Init.headers := Req.headers request;
     Fetch.Init.signal :=
       if Req.timeout request >? 0 then Some (Req.timeout request) else None;
     Fetch.Init.body :=
       if truthy_opt (Req.body request) && negb (is_GET_or_HEAD (Req.method request))
       then Req.body request else None |}.

(** [response.headers.forEach((value, key) => { headers[key] = value })].
    The service runs on Deno, where [Object.prototype] has no [__proto__]
    accessor: every key becomes a property of the record, [__proto__]
    too. *)
Definition headersRecord (h : list (string * string)) : gmap string string :=
  fold_left (fun headers entry => <[fst entry := snd entry]> headers) h ∅.

(** The state in which the [try] block ends: the variable [firstByteTime],
    the number of clock readings taken so far, the calls of [fetch] made
    (URL and options), and how the block completed. *)
Record Attempt : Type := {
  firstByteTime : option Q;
  readings : nat;
  calls : list (string * Fetch.Init.RequestInit);
  completion : Completion Res.ProxyResponse
}.

Definition tryBlock (w : World) (request : Req.ProxyRequest) (startTime : Q) : Attempt :=
  let called := [(Req.url request, fetchOptions request)] in
  match fetch w (Req.url request) (fetchOptions request) with
  | Throw e =>
      {| firstByteTime := None; readings := 1; calls := called; completion := Throw e |}
  | Normal response =>
      let firstByteTime := now w 1 in
      match readResponseBody response with
      | Throw e =>
          {| firstByteTime := Some firstByteTime; readings := 2; calls := called;
             completion := Throw e |}
      | Normal r =>
          let endTime := now w 2 in
          let timing :=
            {| total := Math_round (endTime - startTime);
               firstByte := Some (Math_round (firstByteTime - startTime));
               download := Some (Math_round (endTime - firstByteTime)) |} in
          {| firstByteTime := Some firstByteTime; readings := 3; calls := called;
             completion := Normal
               {| Res.status := Fetch.status response;
                  Res.statusText := Fetch.statusText response;
                  Res.headers := headersRecord (Fetch.headers response);
                  Res.body := body r;
                  Res.bodyTruncated := truncated r;
                  Res.size := size r;
                  Res.timing := timing;
                  Res.error := None |} |}
      end
  end.

(** [firstByteTime ? Math.round(firstByteTime - startTime) : undefined] *)
Definition firstByte_in_catch (firstByteTime : option Q) (startTime : Q) : option Z :=
  match firstByteTime with
  | Some t => if Qeq_bool t 0 then None else Some (Math_round (t - startTime))
  | None => None
  end.

Definition executeProxyRequest (w : World) (request : Req.ProxyRequest)
  : Completion Res.ProxyResponse :=
  let startTime := now w 0 in
  let attempt := tryBlock w request startTime in
  try_catch (completion attempt) (fun error =>
    let endTime := now w (readings attempt) in
    let timing :=
      {| total := Math_round (endTime - startTime);
         firstByte := firstByte_in_catch (firstByteTime attempt) startTime;
         download := None |} in
    Normal
      {| Res.status := 0;
         Res.statusText := EmptyString;
         Res.headers := ∅;
         Res.body := EmptyString;
         Res.bodyTruncated := false;
         Res.size := 0;
         Res.timing := timing;
         Res.error := Some (categorizeError error) |}).

(** The outbound HTTP calls of one [executeProxyRequest]. *)
Definition outboundCalls (w : World) (request : Req.ProxyRequest)
  : list (string * Fetch.Init.RequestInit) :=
  calls (tryBlock w request (now w 0)).

(** *** Notions used to state the properties *)

(** The keyword groups of [categorizeError], in the order they are tried. *)
Definition keywordGroups : list (ErrorType * list string) :=
  [ (timeout, ["abort"]);
    (dns, ["dns"; "getaddrinfo"; "resolve"]);
    (ssl, ["ssl"; "tls"; "certificate"]);
    (network, ["network"; "connect"; "econnrefused"; "econnreset"; "enotfound"]) ].

(** An error is recognised when it carries the cancellation marker or when
    its lower-cased message contains a keyword of some group. *)
Definition recognised (name msg : string) : bool :=
  String.eqb name "AbortError"
  || existsb (fun group => existsb (includes (toLowerCase rt msg)) (snd group))
       keywordGroups.

(** The bytes the body stream delivers in all. *)
Definition delivered (response : Fetch.Response) : list Byte.byte :=
  match Fetch.body response with
  | Some stream => concat (Fetch.chunks stream)
  | None => []
  end.

(** The bytes [readResponseBody] has read from the stream when it returns:
    [totalSize] on the partial path, the whole buffer otherwise. *)
Definition observedBytes (response : Fetch.Response) : Z :=
  match Fetch.body response with
  | None => 0
  | Some stream =>
      let partial :=
        match declaredSize response with
        | Some declared => negb (declared =? 0) && (declared >? MAX_BODY_SIZE)
        | None => false
        end in
      if partial then
        match readChunks (Fetch.chunks stream) (Fetch.failure stream) [] 0 with
        | Normal (_, totalSize) => totalSize
        | Throw _ => 0
        end
      else byteLength (concat (Fetch.chunks stream))
  end.

(** A step of [executeProxyRequest] fails with [e]: the fetch rejects (a
    timeout is the rejection by the abort signal), or the read of the body
    does. *)
Inductive Fails (w : World) (request : Req.ProxyRequest) : Thrown -> Prop :=
  | fetch_fails e :
      fetch w (Req.url request) (fetchOptions request) = Throw e ->
      Fails w request e
  | read_fails response e :
      fetch w (Req.url request) (fetchOptions request) = Normal response ->
      readResponseBody response = Throw e ->
      Fails w request e.

End WithRuntime.

End Proxy.

(** ** The proxy boundary: [ProxyRequestSchema] and [backend/src/routes/proxy.ts] *)

Module Route.

Import Schema.

(** The value [c.req.json()] resolves to.  A number is a rational or an
    infinity ([JSON.parse] yields no NaN). *)
#[warnings="-register-all"]
Inductive Json : Type :=
  | JNull
  | JBool (b : bool)
  | JNumber (x : Q)
  | JInfinity (negative : bool)
  | JString (s : string)
  | JArray (items : list Json)
  | JObject (fields : list (string * Json)).

(** [payload[key]]; [None] is undefined. *)
Definition field (payload : Json) (key : string) : option Json :=
  match payload with
  | JObject fields => snd <$> List.find (fun f => String.eqb (fst f) key) fields
  | _ => None
  end.

Definition methodName (m : HttpMethod) : string :=
  match m with
  | GET => "GET" | POST => "POST" | PUT => "PUT" | PATCH => "PATCH"
  | DELETE => "DELETE" | HEAD => "HEAD" | OPTIONS => "OPTIONS"
  end.

(** [HttpMethodSchema]: [z.enum([...])] *)
Definition parseMethod (v : option Json) : option HttpMethod :=
  match v with
  | Some (JString s) =>
      List.find (fun m => String.eqb (methodName m) s)
        [GET; POST; PUT; PATCH; DELETE; HEAD; OPTIONS]
  | _ => None
  end.

(** [z.record(z.string(), z.string())] on the fields of an object: every
    value must be a string, and zod leaves the key [__proto__] out of the
    record it returns. *)
Fixpoint parseRecord (fields : list (string * Json)) : option (gmap string string) :=
  match fields with
  | [] => Some ∅
  | (k, JString v) :: rest =>
      (fun m => if String.eqb k "__proto__" then m else <[k:=v]> m) <$> parseRecord rest
  | _ => None
  end.

(** [Number.isInteger] on a finite number *)
Definition isInteger (x : Q) : bool := Qeq_bool (inject_Z (Qfloor x)) x.

Section WithRuntime.

Context (rt : Runtime).

(** [z.string().url()] *)
Definition parseUrl (v : option Json) : option string :=
  match v with
  | Some (JString s) => if urlParses rt s then Some s else None
  | _ => None
  end.

(** [z.record(z.string(), z.string()).optional().default({})] *)
Definition parseHeaders (v : option Json) : option (gmap string string) :=
  match v with
  | None => Some ∅
  | Some (JObject fields) => parseRecord fields
  | Some _ => None
  end.

(** [z.string().nullable().optional()] *)
Definition parseBody (v : option Json) : option (option string) :=
  match v with
  | None | Some JNull => Some None
  | Some (JString s) => Some (Some s)
  | Some _ => None
  end.

(** [z.number().int().min(0).max(300000).default(30000)] *)
Definition parseTimeout (v : option Json) : option Z :=
  match v with
  | None => Some 30000
  | Some (JNumber x) =>
      if isInteger x && Qle_bool 0 x && Qle_bool x 300000 then Some (Qfloor x) else None
  | Some _ => None
  end.

(** The path of the issue a field raises, if it raises one. *)
Definition issue {A} (path : string) (parsed : option A) : list string :=
  match parsed with
  | Some _ => []
  | None => [path]
  end.

(** [ProxyRequestSchema.safeParse(body)]: the parsed request, or the paths
    of the issues (the empty path for a payload that is not an object). *)
Definition safeParse (payload : Json) : list string + Req.ProxyRequest :=
  match payload with
  | JObject _ =>
      let m := parseMethod (field payload "method") in
      let u := parseUrl (field payload "url") in
      let h := parseHeaders (field payload "headers") in
      let b := parseBody (field payload "body") in
      let t := parseTimeout (field payload "timeout") in
      match m, u, h, b, t with
      | Some m, Some u, Some h, Some b, Some t =>
          inr {| Req.method := m; Req.url := u; Req.headers := h;
                 Req.body := b; Req.timeout := t |}
      | _, _, _, _, _ =>
          inl (issue "method" m ++ issue "url" u ++ issue "headers" h
               ++ issue "body" b ++ issue "timeout" t)
      end
  | _ => inl [EmptyString]
  end.

(** What [c.json(...)] sends. *)
Inductive ReplyBody : Type :=
  | ErrorBody (error message : string) (details : option (list string))
  | ResultBody (response : Res.ProxyResponse).

Record Reply : Type := {
  code : Z;
  payload : ReplyBody
}.

(** The reply of the handler's [catch] block. *)
Definition proxy_error (error : Thrown) : Reply :=
  {| code := 500;
     payload := ErrorBody "proxy_error"
                  match error with
                  | JsError _ message => message
                  | JsOther => "An unexpected error occurred"
                  end None |}.

(** The handler of POST /api/proxy, with the outbound calls it caused.
    [parsed] is the completion of [await c.req.json()]. *)
Definition post (w : Proxy.World) (parsed : Completion Json)
  : Reply * list (string * Fetch.Init.RequestInit) :=
  match parsed with
  | Normal body =>
      match safeParse body with
      | inl details =>
          ({| code := 400;
              payload := ErrorBody "validation_error" "Invalid request body"
                           (Some details) |}, [])
      | inr request =>
          match Proxy.executeProxyRequest rt w request with
          | Normal response =>
              ({| code := 200; payload := ResultBody response |},
               Proxy.outboundCalls rt w request)
          | Throw error => (proxy_error error, Proxy.outboundCalls rt w request)
          end
      end
  | Throw error => (proxy_error error, [])
  end.

(** *** The three ways in which a payload is malformed *)

(** The method is not one of the enumeration. *)
Definition bad_method (payload : Json) : Prop :=
  forall m, field payload "method" <> Some (JString (methodName m)).

(** The URL is not a string that the URL parser accepts. *)
Definition bad_url (payload : Json) : Prop :=
  forall s, field payload "url" = Some (JString s) -> urlParses rt s = false.

(** The timeout is a number outside [0, 300000]. *)
Definition bad_timeout (payload : Json) : Prop :=
  match field payload "timeout" with
  | Some (JNumber x) => (x < 0)%Q \/ (300000 < x)%Q
  | Some (JInfinity _) => True
  | _ => False
  end.

End WithRuntime.

End Route.

(** ** Request headers: [headersToRecord] of the module [hooks/useRequest] *)

Module Headers.

(** [Header], a row of the headers editor *)
Record Header : Type := {
  key : string;
  value : string;
  enabled : bool
}.

Section WithRuntime.

Context (rt : Runtime).

(** [if (header.enabled && header.key.trim())] *)
Definition kept (header : Header) : bool :=
  enabled header && truthy (trim rt (key header)).

(** One turn of the loop [for (const header of headers)]. *)
Definition step (record : gmap string string) (header : Header) : gmap string string :=
  if kept header then set_prop record (key header) (value header) else record.

Definition headersToRecord (headers : list Header) : gmap string string :=
  fold_left step headers ∅.

End WithRuntime.

End Headers.

(** ** Environments: the modules [services/db] and
       [stores/environment.store] *)

Module Env.

Record EnvVariable : Type := {
  key : string;
  value : string;
  enabled : bool
}.

Record Environment : Type := {
  id : string;
  name : string;
  variables : list EnvVariable;
  isActive : bool;
  createdAt : string;
  updatedAt : string;
  syncProjectId : option string
}.

(** [{ ...env, isActive: b }] *)
Definition with_isActive (b : bool) (env : Environment) : Environment :=
  {| id := id env; name := name env; variables := variables env; isActive := b;
     createdAt := createdAt env; updatedAt := updatedAt env;
     syncProjectId := syncProjectId env |}.

(** *** The table [db.environments] *)

(** The Dexie table, from primary key to stored object. *)
Abbreviation Table := (gmap string Environment).

(** An operation on the table, as in a read-write transaction: the table
    goes in, the result and the table come out. *)
Definition Db (A : Type) : Type := Table -> A * Table.

Definition ret {A} (a : A) : Db A := fun t => (a, t).

Definition seq {A B} (m : Db A) (k : A -> Db B) : Db B :=
  fun t => let '(a, t') := m t in k a t'.

(** [db.environments.toCollection().modify(changes)]; the number of
    modified objects is returned. *)
Definition modify (changes : Environment -> Environment) : Db Z :=
  fun t => (Z.of_nat (base.size t), changes <$> t).

(** [db.environments.update(id, changes)]: nothing happens when no object
    has the key. *)
Definition update (key : string) (changes : Environment -> Environment) : Db Z :=
  fun t =>
    match t !! key with
    | Some env => (1, <[key := changes env]> t)
    | None => (0, t)
    end.

(** [db.transaction('rw', db.environments, body)]: the body runs on the
    table and its writes are committed together. *)
Definition transaction {A} (body : Db A) : Db A := body.

(** [setActiveEnvironment] of [services/db] *)
Definition setActiveEnvironment (id : option string) : Db unit :=
  transaction
    (seq (modify (with_isActive false)) (fun _ =>
     match id with
     | Some key =>
         if truthy key then seq (update key (with_isActive true)) (fun _ => ret tt)
         else ret tt
     | None => ret tt
     end)).

(** The flag an environment stored under [k] has after
    [setActiveEnvironment id]. *)
Definition activated (id : option string) (k : string) : bool :=
  match id with
  | Some key => truthy key && String.eqb key k
  | None => false
  end.

(** [getAllEnvironments]: [db.environments.toArray()], in key order *)
Definition getAllEnvironments : Db (list Environment) :=
  fun t => (snd <$> map_to_list t, t).

(** *** The store *)

Record EnvironmentState : Type := {
  environments : list Environment;
  activeEnvironment : option Environment;
  loading : bool;
  error : option string
}.

(** [env.id === id] for [id : string | null] *)
Definition id_is (id : option string) (env : Environment) : bool :=
  match id with
  | Some key => String.eqb (Env.id env) key
  | None => false
  end.

(** The store's [setActiveEnvironment], after [await
    setActiveEnvironmentInDB(id)] has resolved: the update of the local
    state.  ([set({ error: null })] comes first.) *)
Definition setActiveEnvironment_state (id : option string) (state : EnvironmentState)
  : EnvironmentState :=
  let state := {| environments := environments state;
                  activeEnvironment := activeEnvironment state;
                  loading := loading state; error := None |} in
  let newActive :=
    if truthy_opt id then List.find (id_is id) (environments state) else None in
  {| environments := List.map (fun env => with_isActive (id_is id env) env)
                       (environments state);
     activeEnvironment := with_isActive true <$> newActive;
     loading := loading state;
     error := error state |}.

(** The store's [setActiveEnvironment] on the table and the state.
    [dbFailure] is what the awaited transaction rejects with, if it does:
    then nothing is committed, the message is stored and the error is
    thrown again. *)
Definition store_setActiveEnvironment (dbFailure : option Thrown) (id : option string)
    (t : Table) (state : EnvironmentState)
  : Completion unit * Table * EnvironmentState :=
  match dbFailure with
  | None =>
      (Normal tt, snd (setActiveEnvironment id t), setActiveEnvironment_state id state)
  | Some thrown =>
      (Throw thrown, t,
       {| environments := environments state;
          activeEnvironment := activeEnvironment state;
          loading := loading state;
          error := Some match thrown with
                        | JsError _ message => message
                        | JsOther => "Failed to set active environment"
                        end |})
  end.

End Env.

(** ** The Change Log *)

Module ChangeLog.

Inductive EntityType : Type := environment | collection | folder | request.

Inductive Operation : Type := create | update | delete.

Record ChangeRecord : Type := {
  id : string;
  entityType : EntityType;
  entityId : string;
  operation : Operation;
  (** the entity snapshot, absent for delete *)
  data : option string;
  timestamp : Z;
  originClient : string
}.

Global Instance EntityType_eq_dec : EqDecision EntityType.
Proof. solve_decision. Defined.

Global Instance Operation_eq_dec : EqDecision Operation.
Proof. solve_decision. Defined.

Global Instance ChangeRecord_eq_dec : EqDecision ChangeRecord.
Proof. solve_decision. Defined.

(** The records with a given id. *)
Definition with_id (key : string) (log : list ChangeRecord) : list ChangeRecord :=
  List.filter (fun r => String.eqb (id r) key) log.

(** Modelled from the spec: the Change Log's [append], whose server is not
    in the repository (the routes and the service of /api/sync are still
    to be written; only the client calls and [SyncChangeSchema] exist).
    The spec: "append(ChangeRecord) fails only if the record's id already
    exists (idempotent re-append of an identical record is a no-op, not an
    error)".  The result is whether the call reports success, and the
    log. *)
Definition append (record : ChangeRecord) (log : list ChangeRecord)
  : bool * list ChangeRecord :=
  match List.find (fun r => String.eqb (id r) (id record)) log with
  | None => (true, log ++ [record])
  | Some stored => if bool_decide (stored = record) then (true, log) else (false, log)
  end.

End ChangeLog.

(** ** Sample inputs *)

Module Samples.
(** A response that declares 20000000 bytes and whose stream ends after
    three. *)
Definition short_response : Fetch.Response :=
  {| Fetch.status := 200;
     Fetch.statusText := "OK";
     Fetch.headers := [("content-length", "20000000")];
     Fetch.body := Some {| Fetch.chunks := [[Byte.x01; Byte.x02]; [Byte.x03]];
                           Fetch.failure := None;
                           Fetch.cancel_failure := None |} |}.

(** What [readResponseBody] reads from it, before decoding. *)
Definition short_read : Proxy.Read (list Byte.byte) :=
  {| Proxy.body := [Byte.x01; Byte.x02; Byte.x03]; Proxy.truncated := true;
     Proxy.size := 20000000 |}.

(** A response that declares one byte more than the cap and delivers, in
    one chunk, two bytes more than the cap. *)
Definition oversized_chunk : list Byte.byte :=
  replicate (Z.to_nat (Proxy.MAX_BODY_SIZE + 2)) Byte.x00.

Definition oversized_stream : Fetch.BodyStream :=
  {| Fetch.chunks := [oversized_chunk]; Fetch.failure := None;
     Fetch.cancel_failure := None |}.

Definition oversized_response : Fetch.Response :=
  {| Fetch.status := 200;
     Fetch.statusText := "OK";
     Fetch.headers := [("content-length", "10485761")];
     Fetch.body := Some oversized_stream |}.

(** A world in which every fetch resolves to [short_response] and the
    clock advances by 3.5 ms from one reading to the next. *)
Definition sample_world : Proxy.World :=
  {| Proxy.fetch := fun _ _ => Normal short_response;
     Proxy.now := fun n => (inject_Z (Z.of_nat n) * (7 # 2))%Q |}.

(** A world in which every fetch is rejected by the abort signal. *)
Definition timeout_world : Proxy.World :=
  {| Proxy.fetch := fun _ _ => Throw (JsError "AbortError" "The signal has been aborted");
     Proxy.now := fun n => (inject_Z (Z.of_nat n) * 5000)%Q |}.

(** A GET request that carries a body. *)
Definition get_with_body : Schema.Req.ProxyRequest :=
  {| Schema.Req.method := Schema.GET;
     Schema.Req.url := "https://example.com";
     Schema.Req.headers := ∅;
     Schema.Req.body := Some "ignored";
     Schema.Req.timeout := 5000 |}.

(** A payload whose timeout is over the maximum. *)
Definition late_payload : Route.Json :=
  Route.JObject
    [("method", Route.JString "GET"); ("url", Route.JString "https://example.com");
     ("timeout", Route.JNumber (300001 # 1))].

(** Two header rows whose keys differ only in letter case. *)
Definition accept_upper : Headers.Header :=
  {| Headers.key := "Accept"; Headers.value := "text/html"; Headers.enabled := true |}.

Definition accept_lower : Headers.Header :=
  {| Headers.key := "accept"; Headers.value := "application/json";
     Headers.enabled := true |}.

Definition mixed_case_rows : list Headers.Header := [accept_upper; accept_lower].

(** Three environments, two of them active. *)
Definition sample_env (key : string) (active : bool) : Env.Environment :=
  {| Env.id := key; Env.name := key; Env.variables := []; Env.isActive := active;
     Env.createdAt := "2025-12-05T00:00:00.000Z";
     Env.updatedAt := "2025-12-05T00:00:00.000Z";
     Env.syncProjectId := None |}.

Definition sample_environments : list Env.Environment :=
  [sample_env "dev" true; sample_env "staging" false; sample_env "prod" true].

Definition sample_table : Env.Table :=
  list_to_map ((fun env => (Env.id env, env)) <$> sample_environments).

Definition sample_state : Env.EnvironmentState :=
  {| Env.environments := sample_environments; Env.activeEnvironment := None;
     Env.loading := false; Env.error := None |}.

(** A change record, and a log that does not hold it. *)
Definition sample_change : ChangeLog.ChangeRecord :=
  {| ChangeLog.id := "c1"; ChangeLog.entityType := ChangeLog.request;
     ChangeLog.entityId := "r1"; ChangeLog.operation := ChangeLog.update;
     ChangeLog.data := Some "{}"; ChangeLog.timestamp := 1733356800000;
     ChangeLog.originClient := "client-a" |}.

Definition sample_log : list ChangeLog.ChangeRecord :=
  [ {| ChangeLog.id := "c0"; ChangeLog.entityType := ChangeLog.folder;
       ChangeLog.entityId := "f1"; ChangeLog.operation := ChangeLog.delete;
       ChangeLog.data := None; ChangeLog.timestamp := 1733356700000;
       ChangeLog.originClient := "client-b" |} ].

End Samples.

(** ** [categorizeError] on any value *)

Module Values.

Import Schema.

(** What [error.message] holds. *)
Inductive Message : Type :=
  | Text (s : string)
  (** a value that is not a string and has no method [toLowerCase]:
      undefined, null, a number, a boolean, a plain object *)
  | NoText.

(** A JavaScript value, as far as [categorizeError] tells values apart: an
    instance of [Error] with its [name] and its [message], or another
    value.  The name is only compared with 'AbortError': one that is not
    a string is held as the empty string. *)
Inductive Value : Type :=
  | ErrorValue (name : string) (message : Message)
  | OtherValue.

(** The values that the engine's [catch] receives in the worlds of
    [Proxy.World]. *)
Definition of_thrown (e : Thrown) : Value :=
  match e with
  | JsError name message => ErrorValue name (Text message)
  | JsOther => OtherValue
  end.

(** The value is as the type [Error] declares it: not an [Error], or an
    [Error] whose message is a string. *)
Definition typed (error : Value) : bool :=
  match error with
  | ErrorValue _ NoText => false
  | _ => true
  end.

Section WithRuntime.

Context (rt : Runtime).

(** [categorizeError] on every value.  Inside [if (error instanceof
    Error)] it starts with [error.message.toLowerCase()], which throws a
    TypeError for a message without that method (the wording of the error
    depends on the value); for a message that is a string, and for a value
    that is not an [Error], it goes on as [Proxy.categorizeError]. *)
Definition categorizeError (error : Value) : Completion RequestError :=
  match error with
  | ErrorValue name (Text msg) => Normal (Proxy.categorizeError rt (JsError name msg))
  | ErrorValue name NoText =>
      Throw (JsError "TypeError" "error.message.toLowerCase is not a function")
  | OtherValue => Normal (Proxy.categorizeError rt JsOther)
  end.

End WithRuntime.

End Values.

(** ** The labels of [categorizeError] *)

Module Labels.

Import Schema.

(** What [categorizeError] writes before the message of an error of each
    type. *)
Definition label (t : ErrorType) : string :=
  match t with
  | dns => "DNS lookup failed: "
  | ssl => "SSL/TLS error: "
  | network => "Network error: "
  | timeout | unknown => EmptyString
  end.

End Labels.

(** ** The wire between the client and the proxy: JSON bodies *)

Module Wire.

Import Schema Route.

(** [JSON.stringify] of an object whose values are strings, read back by
    [JSON.parse]. *)
Definition encodeRecord (record : gmap string string) : Json :=
  JObject ((fun entry => (fst entry, JString (snd entry))) <$> map_to_list record).

Definition encodeNullable (s : option string) : Json :=
  match s with
  | Some text => JString text
  | None => JNull
  end.

(** The body [api.proxy] posts: [JSON.stringify(request)] with the five
    fields [sendRequest] gives the request, as [c.req.json()] reads it. *)
Definition encodeRequest (request : Req.ProxyRequest) : Json :=
  JObject
    [ ("method", JString (methodName (Req.method request)));
      ("url", JString (Req.url request));
      ("headers", encodeRecord (Req.headers request));
      ("body", encodeNullable (Req.body request));
      ("timeout", JNumber (inject_Z (Req.timeout request))) ].

(** A record of strings as [z.record] returns it: without the key
    [__proto__]. *)
Definition parsedRecord (record : gmap string string) : gmap string string :=
  delete "__proto__" record.

(** A request as [ProxyRequestSchema] returns it. *)
Definition parsedRequest (request : Req.ProxyRequest) : Req.ProxyRequest :=
  {| Req.method := Req.method request;
     Req.url := Req.url request;
     Req.headers := parsedRecord (Req.headers request);
     Req.body := Req.body request;
     Req.timeout := Req.timeout request |}.

Definition errorTypeName (t : ErrorType) : string :=
  match t with
  | timeout => "timeout" | network => "network" | dns => "dns" | ssl => "ssl"
  | unknown => "unknown"
  end.

(** A property whose value is undefined is left out by [JSON.stringify]. *)
Definition optionalNumber (key : string) (value : option Z) : list (string * Json) :=
  match value with
  | Some n => [(key, JNumber (inject_Z n))]
  | None => []
  end.

Definition encodeTiming (timing : Timing) : Json :=
  JObject
    (("total", JNumber (inject_Z (total timing)))
     :: optionalNumber "firstByte" (firstByte timing)
     ++ optionalNumber "download" (download timing)).

Definition encodeError (error : option RequestError) : Json :=
  match error with
  | Some e =>
      JObject [("type", JString (errorTypeName (type e))); ("message", JString (message e))]
  | None => JNull
  end.

(** [c.json(response)] for a ProxyResponse, as [response.json()] reads
    it. *)
Definition encodeResponse (response : Res.ProxyResponse) : Json :=
  JObject
    [ ("status", JNumber (inject_Z (Res.status response)));
      ("statusText", JString (Res.statusText response));
      ("headers", encodeRecord (Res.headers response));
      ("body", JString (Res.body response));
      ("bodyTruncated", JBool (Res.bodyTruncated response));
      ("size", JNumber (inject_Z (Res.size response)));
      ("timing", encodeTiming (Res.timing response));
      ("error", encodeError (Res.error response)) ].

(** Whether every timing that is there is a non-negative number. *)
Definition nonnegative_timing (timing : Timing) : bool :=
  (0 <=? total timing)
  && from_option (Z.leb 0) true (firstByte timing)
  && from_option (Z.leb 0) true (download timing).

(** An HTTP response as [fetch] hands it to the client: the status, and
    the completion of [response.json()]. *)
Record HttpResponse : Type := {
  status : Z;
  json : Completion Json
}.

Section WithDetails.

(** [parseResult.error.flatten()] as JSON, from the paths of the issues. *)
Context (flatten : list string -> Json).

(** [c.json({ error, message, details })] and [c.json(response)]. *)
Definition encodeReplyBody (body : ReplyBody) : Json :=
  match body with
  | ErrorBody error message details =>
      JObject
        ([("error", JString error); ("message", JString message)]
         ++ match details with
            | Some paths => [("details", flatten paths)]
            | None => []
            end)
  | ResultBody response => encodeResponse response
  end.

Definition encodeReply (reply : Reply) : HttpResponse :=
  {| status := code reply; json := Normal (encodeReplyBody (payload reply)) |}.

(** The responses of the world declare a content length of at most 15
    characters, when they declare one: then [parseInt] gives a number that
    the integers of the model hold as JavaScript does.  (For a string of
    digits that is long enough [parseInt] gives Infinity, which is the size
    the engine then returns, and [JSON.stringify] writes null for it.) *)
Definition plain_lengths (w : Proxy.World) : Prop :=
  forall url options response contentLength,
    Proxy.fetch w url options = Normal response ->
    Fetch.headers_get (Fetch.headers response) "content-length" = Some contentLength ->
    (String.length contentLength <= 15)%nat.

(** The proxy server as the client's [fetch] sees it: the handler of
    POST /api/proxy run on the JSON body of the request. *)
Definition server (rt : Runtime) (w : Proxy.World) (body : Json) : Completion HttpResponse :=
  Normal (encodeReply (fst (post rt w (Normal body)))).

End WithDetails.

End Wire.

(** ** The API client: [api.proxy] of [frontend/src/services/api.ts], with
       the schemas of the module [schemas] *)

Module Client.

Import Schema Route.

(** A JavaScript number that is not NaN. *)
Inductive JsNumber : Type :=
  | Finite (x : Q)
  | Infinite (negative : bool).

(** [Timing] as the client's [TimingSchema] gives it. *)
Record Timing : Type := {
  total : JsNumber;
  dns : option JsNumber;
  connect : option JsNumber;
  tls : option JsNumber;
  firstByte : option JsNumber;
  download : option JsNumber
}.

(** [ProxyResponse] as the client's [ProxyResponseSchema] gives it. *)
Record ProxyResponse : Type := {
  status : Z;
  statusText : string;
  headers : gmap string string;
  body : string;
  bodyTruncated : bool;
  size : Z;
  timing : Timing;
  error : option RequestError
}.

(** *** The zod schemas *)

(** [z.number()] *)
Definition parseNumber (v : option Json) : option JsNumber :=
  match v with
  | Some (JNumber x) => Some (Finite x)
  | Some (JInfinity negative) => Some (Infinite negative)
  | _ => None
  end.

Definition nonnegative (n : JsNumber) : bool :=
  match n with
  | Finite x => Qle_bool 0 x
  | Infinite negative => negb negative
  end.

(** [z.number().nonnegative()] *)
Definition parseNonnegative (v : option Json) : option JsNumber :=
  match parseNumber v with
  | Some n => if nonnegative n then Some n else None
  | None => None
  end.

(** [schema.optional()] *)
Definition optional {A} (schema : option Json -> option A) (v : option Json)
  : option (option A) :=
  match v with
  | None => Some None
  | Some _ => Some <$> schema v
  end.

(** [z.number().int()] *)
Definition parseInt (v : option Json) : option Z :=
  match v with
  | Some (JNumber x) => if isInteger x then Some (Qfloor x) else None
  | _ => None
  end.

(** [z.number().int().nonnegative()] *)
Definition parseNonnegativeInt (v : option Json) : option Z :=
  match parseInt v with
  | Some n => if 0 <=? n then Some n else None
  | None => None
  end.

(** [z.string()] *)
Definition parseString (v : option Json) : option string :=
  match v with
  | Some (JString s) => Some s
  | _ => None
  end.

(** [z.boolean()] *)
Definition parseBoolean (v : option Json) : option bool :=
  match v with
  | Some (JBool b) => Some b
  | _ => None
  end.

(** [z.record(z.string(), z.string())] *)
Definition parseStringRecord (v : option Json) : option (gmap string string) :=
  match v with
  | Some (JObject fields) => parseRecord fields
  | _ => None
  end.

(** [TimingSchema] *)
Definition parseTiming (v : option Json) : option Timing :=
  match v with
  | Some (JObject fields) =>
      let o := JObject fields in
      match parseNonnegative (field o "total"),
            optional parseNonnegative (field o "dns"),
            optional parseNonnegative (field o "connect"),
            optional parseNonnegative (field o "tls"),
            optional parseNonnegative (field o "firstByte"),
            optional parseNonnegative (field o "download") with
      | Some total, Some dns, Some connect, Some tls, Some firstByte, Some download =>
          Some {| total := total; dns := dns; connect := connect; tls := tls;
                  firstByte := firstByte; download := download |}
      | _, _, _, _, _, _ => None
      end
  | _ => None
  end.

(** [z.enum(['timeout', 'network', 'dns', 'ssl', 'unknown'])] *)
Definition parseErrorType (v : option Json) : option ErrorType :=
  match v with
  | Some (JString s) =>
      List.find (fun t => String.eqb (Wire.errorTypeName t) s)
        [Schema.timeout; Schema.network; Schema.dns; Schema.ssl; Schema.unknown]
  | _ => None
  end.

(** [RequestErrorSchema]: an object, or null *)
Definition parseError (v : option Json) : option (option RequestError) :=
  match v with
  | Some JNull => Some None
  | Some (JObject fields) =>
      let o := JObject fields in
      match parseErrorType (field o "type"), parseString (field o "message") with
      | Some t, Some m => Some (Some {| type := t; message := m |})
      | _, _ => None
      end
  | _ => None
  end.

(** [ProxyResponseSchema.safeParse(data)]; [None] when it does not
    succeed. *)
Definition safeParse (data : Json) : option ProxyResponse :=
  match data with
  | JObject _ =>
      match parseInt (field data "status"),
            parseString (field data "statusText"),
            parseStringRecord (field data "headers"),
            parseString (field data "body"),
            parseBoolean (field data "bodyTruncated"),
            parseNonnegativeInt (field data "size"),
            parseTiming (field data "timing"),
            parseError (field data "error") with
      | Some status, Some statusText, Some headers, Some body, Some bodyTruncated,
        Some size, Some timing, Some error =>
          Some {| status := status; statusText := statusText; headers := headers;
                  body := body; bodyTruncated := bodyTruncated; size := size;
                  timing := timing; error := error |}
      | _, _, _, _, _, _, _, _ => None
      end
  | _ => None
  end.

(** *** api.proxy *)

(** [new ApiError(status, message)]: an [Error] named ApiError. *)
Record ApiError : Type := {
  api_status : Z;
  api_message : string
}.

Definition thrown (e : ApiError) : Thrown := JsError "ApiError" (api_message e).

Section WithText.

(** [String(value)] for the JSON values that are neither a string nor
    null: what the [Error] constructor makes of such a message. *)
Context (toText : Json -> string).

(** [error.message ?? 'Proxy request failed'], where [error] is what
    [response.json()] gave, or the fallback object when it failed. *)
Definition errorMessage (parsed : Completion Json) : Completion string :=
  let error :=
    match parsed with
    | Normal value => value
    | Throw _ => JObject [("message", JString "Proxy request failed")]
    end in
  match error with
  | JNull => Throw (JsError "TypeError" "Cannot read properties of null (reading 'message')")
  | _ =>
      match field error "message" with
      | None | Some JNull => Normal "Proxy request failed"
      | Some (JString s) => Normal s
      | Some other => Normal (toText other)
      end
  end.

(** [api.proxy]; [server] is what its [fetch] reaches, from the JSON body
    posted to the completion of the call.  The result is the parsed
    response, or what is thrown: an ApiError with its status, or another
    value. *)
Definition proxy (server : Json -> Completion Wire.HttpResponse)
    (request : Req.ProxyRequest) : Thrown + ApiError + ProxyResponse :=
  match server (Wire.encodeRequest request) with
  | Throw e => inl (inl e)
  | Normal response =>
      (* response.ok *)
      if (200 <=? Wire.status response) && (Wire.status response <=? 299) then
        match Wire.json response with
        | Throw e => inl (inl e)
        | Normal data =>
            match safeParse data with
            | Some parsed => inr parsed
            | None =>
                inl (inr {| api_status := 500;
                            api_message := "Invalid response from proxy server" |})
            end
        end
      else
        match errorMessage (Wire.json response) with
        | Normal message =>
            inl (inr {| api_status := Wire.status response; api_message := message |})
        | Throw e => inl (inl e)
        end
  end.

End WithText.

(** How a response of the proxy service reads on the client: the same
    fields, the timings as numbers, and the headers as [z.record] returns
    them, without the key [__proto__]. *)
Definition ofZ (n : Z) : JsNumber := Finite (inject_Z n).

Definition received (response : Res.ProxyResponse) : ProxyResponse :=
  {| status := Res.status response;
     statusText := Res.statusText response;
     headers := Wire.parsedRecord (Res.headers response);
     body := Res.body response;
     bodyTruncated := Res.bodyTruncated response;
     size := Res.size response;
     timing := {| total := ofZ (Schema.total (Res.timing response));
                  dns := None; connect := None; tls := None;
                  firstByte := ofZ <$> Schema.firstByte (Res.timing response);
                  download := ofZ <$> Schema.download (Res.timing response) |};
     error := Res.error response |}.

End Client.

(** ** The data types of the frontend: the modules [schemas] and [types] *)

Module Types.

Inductive BodyType : Type := json | form_data | x_www_form_urlencoded | raw | binary.

(** [RequestBody] when it is not null *)
Record RequestBody : Type := {
  type : BodyType;
  content : string;
  binaryFileName : option string
}.

Inductive ApiKeyIn : Type := in_header | in_query.

Inductive AuthConfig : Type :=
  | none
  | bearer (token : string)
  | api_key (key value : string) (location : ApiKeyIn).

Inductive AuthType : Type := type_none | type_bearer | type_api_key.

(** [auth.type] *)
Definition authType (auth : AuthConfig) : AuthType :=
  match auth with
  | none => type_none
  | bearer _ => type_bearer
  | api_key _ _ _ => type_api_key
  end.

End Types.

(** ** Collections, folders and saved requests: [frontend/src/services/db] *)

Module Collections.

Import Types.

Module C.
Record Collection : Type := {
  id : string;
  name : string;
  description : string;
  auth : option AuthConfig;
  sortOrder : Z;
  createdAt : string;
  updatedAt : string;
  syncProjectId : option string
}.
End C.

Module F.
Record Folder : Type := {
  id : string;
  name : string;
  collectionId : string;
  parentFolderId : option string;
  auth : option AuthConfig;
  sortOrder : Z;
  createdAt : string;
  updatedAt : string
}.
End F.

Module R.
Record SavedRequest : Type := {
  id : string;
  name : string;
  method : Schema.HttpMethod;
  url : string;
  headers : list Headers.Header;
  body : option RequestBody;
  auth : option AuthConfig;
  timeout : Z;
  collectionId : string;
  folderId : option string;
  sortOrder : Z;
  createdAt : string;
  updatedAt : string
}.
End R.

(** [Omit<Folder, 'id' | 'createdAt' | 'updatedAt'>] *)
Module NewFolder.
Record t : Type := {
  name : string;
  collectionId : string;
  parentFolderId : option string;
  auth : option AuthConfig;
  sortOrder : Z
}.
End NewFolder.

(** The three Dexie tables, each from primary key to stored object. *)
Record Database : Type := {
  collections : gmap string C.Collection;
  folders : gmap string F.Folder;
  requests : gmap string R.SavedRequest
}.

(** [table.add(object)] under the object's key: a key that is taken is a
    ConstraintError. *)
Definition add {V} (key : string) (object : V) (table : gmap string V)
  : Completion (gmap string V) :=
  match table !! key with
  | Some _ => Throw (JsError "ConstraintError" "Key already exists in the object store.")
  | None => Normal (<[key := object]> table)
  end.

(** [table.where(index).equals(key).toArray()]: the objects whose indexed
    property is [key]. *)
Definition where_equals {V} (index : V -> option string) (key : string)
    (table : gmap string V) : list V :=
  List.filter (fun object => bool_decide (index object = Some key))
    (snd <$> map_to_list table).

(** [table.where(index).equals(key).delete()] *)
Definition where_equals_delete {V} (index : V -> option string) (key : string)
    (table : gmap string V) : gmap string V :=
  filter (fun entry => index (snd entry) <> Some key) table.

(** [table.bulkDelete(keys)] *)
Definition bulkDelete {V} (keys : list string) (table : gmap string V) : gmap string V :=
  fold_left (fun t key => delete key t) keys table.

(** *** getFolderDepth *)

(** The loop of [getFolderDepth]; [fuel] bounds the number of its
    iterations (four are enough, see [depthLoop_fuel]). *)
Fixpoint depthLoop (fuel : nat) (table : gmap string F.Folder)
    (currentId : option string) (depth : Z) : Z :=
  match fuel, currentId with
  | S fuel, Some id =>
      if truthy id && (depth <? 4) then
        match table !! id with
        | None => depth
        | Some foundFolder => depthLoop fuel table (F.parentFolderId foundFolder) (depth + 1)
        end
      else depth
  | _, _ => depth
  end.

Definition getFolderDepth (db : Database) (folderId : option string) : Z :=
  if negb (truthy_opt folderId) then 0
  else depthLoop 4 (folders db) folderId 0.

(** *** createFolder *)

(** [uuid] is what [crypto.randomUUID()] gives and [now] the time stamp. *)
Definition createFolder (uuid now : string) (folder : NewFolder.t) (db : Database)
  : Completion string * Database :=
  let parentDepth := getFolderDepth db (NewFolder.parentFolderId folder) in
  if parentDepth >=? 3 then
    (Throw (JsError "Error" "Maximum folder nesting depth (3 levels) exceeded"), db)
  else
    match add uuid
            {| F.id := uuid;
               F.name := NewFolder.name folder;
               F.collectionId := NewFolder.collectionId folder;
               F.parentFolderId := NewFolder.parentFolderId folder;
               F.auth := NewFolder.auth folder;
               F.sortOrder := NewFolder.sortOrder folder;
               F.createdAt := now;
               F.updatedAt := now |} (folders db) with
    | Normal table =>
        (Normal uuid,
         {| collections := collections db; folders := table; requests := requests db |})
    | Throw e => (Throw e, db)
    end.

(** *** updateFolder *)

(** [Partial<Omit<Folder, 'id' | 'createdAt'>>]: [None] for a property the
    updates do not have. *)
Module FolderUpdates.
Record t : Type := {
  name : option string;
  collectionId : option string;
  parentFolderId : option (option string);
  auth : option (option AuthConfig);
  sortOrder : option Z;
  updatedAt : option string
}.
End FolderUpdates.

(** [{ ...folder, ...updates, updatedAt: now }], what
    [db.folders.update(id, { ...updates, updatedAt: now })] stores. *)
Definition updated (now : string) (updates : FolderUpdates.t) (folder : F.Folder)
  : F.Folder :=
  {| F.id := F.id folder;
     F.name := default (F.name folder) (FolderUpdates.name updates);
     F.collectionId := default (F.collectionId folder) (FolderUpdates.collectionId updates);
     F.parentFolderId :=
       default (F.parentFolderId folder) (FolderUpdates.parentFolderId updates);
     F.auth := default (F.auth folder) (FolderUpdates.auth updates);
     F.sortOrder := default (F.sortOrder folder) (FolderUpdates.sortOrder updates);
     F.createdAt := F.createdAt folder;
     F.updatedAt := now |}.

(** [now] is the time stamp; a key that is not stored is left alone. *)
Definition updateFolder (now : string) (id : string) (updates : FolderUpdates.t)
    (db : Database) : Completion unit * Database :=
  let tooDeep :=
    match FolderUpdates.parentFolderId updates with
    | Some parentFolderId => getFolderDepth db parentFolderId >=? 3
    | None => false
    end in
  if tooDeep then
    (Throw (JsError "Error" "Maximum folder nesting depth (3 levels) exceeded"), db)
  else
    match folders db !! id with
    | Some folder =>
        (Normal tt,
         {| collections := collections db;
            folders := <[id := updated now updates folder]> (folders db);
            requests := requests db |})
    | None => (Normal tt, db)
    end.

(** *** deleteFolder *)

(** [for (const item of items) state = body(state, item)], where the body
    may not return. *)
Fixpoint for_of {A S} (items : list A) (body : S -> A -> option S) (state : S)
  : option S :=
  match items with
  | [] => Some state
  | item :: rest =>
      match body state item with
      | Some state => for_of rest body state
      | None => None
      end
  end.

(** [getDescendantFolderIds]; [None] when the recursion is deeper than
    [fuel] calls. *)
Fixpoint getDescendantFolderIds (fuel : nat) (table : gmap string F.Folder)
    (folderId : string) : option (list string) :=
  match fuel with
  | O => None
  | S fuel =>
      let children := where_equals F.parentFolderId folderId table in
      let childIds := List.map F.id children in
      for_of childIds
        (fun descendantIds childId =>
           match getDescendantFolderIds fuel table childId with
           | Some grandchildren => Some (descendantIds ++ childId :: grandchildren)
           | None => None
           end)
        []
  end.

(** [deleteFolder], a read-write transaction on the folders and the
    requests; [None] when [getDescendantFolderIds] does not return within
    [fuel] calls. *)
Definition deleteFolder (fuel : nat) (id : string) (db : Database) : option Database :=
  match getDescendantFolderIds fuel (folders db) id with
  | None => None
  | Some descendantIds =>
      let allFolderIds := id :: descendantIds in
      let requests :=
        fold_left (fun table folderId => where_equals_delete R.folderId folderId table)
          allFolderIds (requests db) in
      Some {| collections := collections db;
              folders := bulkDelete allFolderIds (folders db);
              requests := requests |}
  end.

(** *** Notions used to state the properties *)

(** Every object is stored under its [id], and no key is the empty
    string. *)
Definition keyed (table : gmap string F.Folder) : Prop :=
  table !! EmptyString = None
  /\ forall key folder, table !! key = Some folder -> F.id folder = key.

(** [child] is a folder stored with [parent] as its parent folder. *)
Definition child_of (table : gmap string F.Folder) (parent child : string) : Prop :=
  exists folder, table !! child = Some folder /\ F.parentFolderId folder = Some parent.

(** [x] is below [ancestor]: a child, or a child of a folder below. *)
Inductive below (table : gmap string F.Folder) (ancestor : string) : string -> Prop :=
  | below_child x : child_of table ancestor x -> below table ancestor x
  | below_deeper x y : below table ancestor x -> child_of table x y -> below table ancestor y.

(** The folders [deleteFolder id] removes: [id] and the folders below. *)
Definition removed (table : gmap string F.Folder) (id x : string) : Prop :=
  x = id \/ below table id x.

(** [{ parentFolderId }], the updates that move a folder. *)
Definition move_to (parentFolderId : option string) : FolderUpdates.t :=
  {| FolderUpdates.name := None; FolderUpdates.collectionId := None;
     FolderUpdates.parentFolderId := Some parentFolderId;
     FolderUpdates.auth := None; FolderUpdates.sortOrder := None;
     FolderUpdates.updatedAt := None |}.

(** No stored folder is nested deeper than three levels. *)
Definition nesting_limit (db : Database) : Prop :=
  forall key, is_Some (folders db !! key) -> getFolderDepth db (Some key) <= 3.

End Collections.

(** ** The request builder: [stores/request.store] and the headers editor *)

Module RequestStore.

Import Types Headers.

(** [Partial<Header>] *)
Module Partial.
Record Header : Type := {
  key : option string;
  value : option string;
  enabled : option bool
}.
End Partial.

(** [{ ...header, ...updates }] *)
Definition spread (header : Header) (updates : Partial.Header) : Header :=
  {| key := default (key header) (Partial.key updates);
     value := default (value header) (Partial.value updates);
     enabled := default (enabled header) (Partial.enabled updates) |}.

(** [{ key: '', value: '', enabled: true }] *)
Definition blank : Header :=
  {| key := EmptyString; value := EmptyString; enabled := true |}.

(** [ResponseState] *)
Module Response.
Record ResponseState : Type := {
  status : Z;
  statusText : string;
  headers : list Header;
  body : string;
  bodyTruncated : bool;
  size : Z;
  timing : Client.Timing;
  error : option Schema.RequestError;
  loading : bool
}.
End Response.

Module State.
Record RequestState : Type := {
  method : Schema.HttpMethod;
  url : string;
  headers : list Header;
  body : option RequestBody;
  auth : AuthConfig;
  timeout : Z;
  response : option Response.ResponseState;
  loading : bool;
  savedRequestId : option string;
  isDirty : bool
}.
End State.
Import State.

(** [set({ headers, isDirty: true })] *)
Definition setHeaders (headers : list Header) (state : RequestState) : RequestState :=
  {| method := method state; url := url state; headers := headers; body := body state;
     auth := auth state; timeout := timeout state; response := response state;
     loading := loading state; savedRequestId := savedRequestId state;
     isDirty := true |}.

(** [headers.filter((_, i) => i !== index)], counting from [i]. *)
Fixpoint without (index : Z) (i : nat) (headers : list Header) : list Header :=
  match headers with
  | [] => []
  | h :: rest =>
      if Z.of_nat i =? index then without index (S i) rest
      else h :: without index (S i) rest
  end.

(** [headers.map((h, i) => (i === index ? change(h) : h))] *)
Definition at_index (index : Z) (change : Header -> Header) (headers : list Header)
  : list Header :=
  imap (fun i h => if Z.of_nat i =? index then change h else h) headers.

Definition addHeader (header : option Partial.Header) (state : RequestState)
  : RequestState :=
  setHeaders
    (headers state
     ++ [match header with
         | Some given => spread blank given
         | None => blank
         end]) state.

Definition updateHeader (index : Z) (updates : Partial.Header) (state : RequestState)
  : RequestState :=
  setHeaders (at_index index (fun h => spread h updates) (headers state)) state.

Definition removeHeader (index : Z) (state : RequestState) : RequestState :=
  setHeaders (without index 0 (headers state)) state.

Definition toggleHeader (index : Z) (state : RequestState) : RequestState :=
  setHeaders
    (at_index index
       (fun h => {| key := key h; value := value h; enabled := negb (enabled h) |})
       (headers state)) state.

(** What [selectCurrentRequest] returns *)
Module Current.
Record t : Type := {
  method : Schema.HttpMethod;
  url : string;
  headers : list Header;
  body : option RequestBody;
  auth : AuthConfig;
  timeout : Z
}.
End Current.

Section WithRuntime.

Context (rt : Runtime).

(** [h.key.trim() !== ''] *)
Definition named (h : Header) : bool := truthy (trim rt (key h)).

Definition selectCurrentRequest (state : RequestState) : Current.t :=
  {| Current.method := method state;
     Current.url := url state;
     Current.headers := List.filter (fun h => enabled h && named h) (headers state);
     Current.body := body state;
     Current.auth := auth state;
     Current.timeout := timeout state |}.

(** [HeaderCount] of the request builder: the number its badge shows. *)
Definition HeaderCount (headers : list Header) : Z :=
  Z.of_nat (length (List.filter (fun h => enabled h && truthy (trim rt (key h))) headers)).

(** The keys of the rows that [headersToRecord] takes. *)
Definition keptKeys (rows : list Header) : list string :=
  key <$> List.filter (kept rt) rows.

End WithRuntime.

(** *** The headers editor, on the list it is given *)

Module Editor.

Definition updateHeader (headers : list Header) (index : Z) (updates : Partial.Header)
  : list Header :=
  at_index index (fun h => spread h updates) headers.

(** [headers[index]] *)
Definition item (headers : list Header) (index : Z) : option Header :=
  if index <? 0 then None else headers !! Z.to_nat index.

Definition toggleHeader (headers : list Header) (index : Z) : list Header :=
  match item headers index with
  | Some header =>
      updateHeader headers index
        {| Partial.key := None; Partial.value := None;
           Partial.enabled := Some (negb (enabled header)) |}
  | None => headers
  end.

End Editor.

End RequestStore.

(** ** Sending a request: [hooks/useRequest] *)

Module UseRequest.

Import Types Headers RequestStore RequestStore.State.

(** The request and the response of the entry given to
    [addHistoryEntry]. *)
Module Sent.
Record t : Type := {
  method : Schema.HttpMethod;
  url : string;
  headers : list Header;
  body : option string;
  authType : AuthType
}.
End Sent.

Module Received.
Record t : Type := {
  status : Z;
  statusText : string;
  headers : list Header;
  body : string;
  bodyTruncated : bool;
  size : Z
}.
End Received.

(** The argument of [addHistoryEntry] *)
Module Entry.
Record t : Type := {
  request : Sent.t;
  response : option Received.t;
  timing : Client.Timing;
  error : option Schema.RequestError;
  environmentId : option string;
  savedRequestId : option string
}.
End Entry.

Section WithRuntime.

Context (rt : Runtime).

(** The URL [sendRequest] posts: trimmed, and with [https://] in front
    unless it starts with a scheme of HTTP; [None] when there is nothing
    left after trimming, and [sendRequest] returns at once. *)
Definition targetUrl (url : string) : option string :=
  let url := trim rt url in
  if negb (truthy url) then None
  else if negb (String.prefix "http://" url) && negb (String.prefix "https://" url)
       then Some ("https://" +:+ url)
       else Some url.

(** [currentRequest.body?.content ?? null] *)
Definition bodyContent (body : option RequestBody) : option string := content <$> body.

Definition proxyRequest (currentRequest : Current.t) (url : string)
  : Schema.Req.ProxyRequest :=
  {| Schema.Req.method := Current.method currentRequest;
     Schema.Req.url := url;
     Schema.Req.headers := headersToRecord rt (Current.headers currentRequest);
     Schema.Req.body := bodyContent (Current.body currentRequest);
     Schema.Req.timeout := Current.timeout currentRequest |}.

(** [Object.entries(response.headers).map(([key, value]) => ({ key, value,
    enabled: true }))]; the entries come in the order of the map. *)
Definition responseHeaders (headers : gmap string string) : list Header :=
  (fun entry => {| key := fst entry; value := snd entry; enabled := true |})
    <$> map_to_list headers.

Definition sent (currentRequest : Current.t) (url : string)
  : Sent.t :=
  {| Sent.method := Current.method currentRequest;
     Sent.url := url;
     Sent.headers := List.filter (named rt) (Current.headers currentRequest);
     Sent.body := bodyContent (Current.body currentRequest);
     Sent.authType := authType (Current.auth currentRequest) |}.

(** [error instanceof Error ? error.message : 'Request failed'] *)
Definition errorMessage (error : Thrown + Client.ApiError) : string :=
  match error with
  | inl (JsError _ message) => message
  | inl JsOther => "Request failed"
  | inr apiError => Client.api_message apiError
  end.

(** [set({ response })] and, in the [finally], [set({ loading: false })] *)
Definition finish (response : Response.ResponseState) (state : RequestState) : RequestState :=
  {| method := method state; url := url state; headers := State.headers state;
     body := body state; auth := auth state; timeout := timeout state;
     response := Some response; loading := false;
     savedRequestId := State.savedRequestId state; isDirty := isDirty state |}.

(** [sendRequest], with what [api.proxy] does and what [Date.now()] reads
    (the n-th reading is [dateNow n]).  The result is the state of the
    store when the call is over and the entry given to [addHistoryEntry],
    if one is. *)
Definition sendRequest
    (api : Schema.Req.ProxyRequest -> Thrown + Client.ApiError + Client.ProxyResponse)
    (dateNow : nat -> Z) (state : RequestState)
  : RequestState * option Entry.t :=
  let currentRequest := selectCurrentRequest rt state in
  match targetUrl (Current.url currentRequest) with
  | None => (state, None)
  | Some url =>
      let startTime := dateNow 0%nat in
      match api (proxyRequest currentRequest url) with
      | inr response =>
          let headers := responseHeaders (Client.headers response) in
          (finish
             {| Response.status := Client.status response;
                Response.statusText := Client.statusText response;
                Response.headers := headers;
                Response.body := Client.body response;
                Response.bodyTruncated := Client.bodyTruncated response;
                Response.size := Client.size response;
                Response.timing := Client.timing response;
                Response.error := Client.error response;
                Response.loading := false |} state,
           Some {| Entry.request := sent currentRequest url;
                   Entry.response :=
                     match Client.error response with
                     | Some _ => None
                     | None =>
                         Some {| Received.status := Client.status response;
                                 Received.statusText := Client.statusText response;
                                 Received.headers := headers;
                                 Received.body := Client.body response;
                                 Received.bodyTruncated := Client.bodyTruncated response;
                                 Received.size := Client.size response |}
                     end;
                   Entry.timing := Client.timing response;
                   Entry.error := Client.error response;
                   Entry.environmentId := None;
                   Entry.savedRequestId := State.savedRequestId state |})
      | inl error =>
          let failure :=
            {| Schema.type := Schema.unknown; Schema.message := errorMessage error |} in
          let elapsed (reading : nat) :=
            {| Client.total := Client.ofZ (dateNow reading - startTime);
               Client.dns := None; Client.connect := None; Client.tls := None;
               Client.firstByte := None; Client.download := None |} in
          (finish
             {| Response.status := 0; Response.statusText := EmptyString;
                Response.headers := []; Response.body := EmptyString;
                Response.bodyTruncated := false; Response.size := 0;
                Response.timing := elapsed 1%nat;
                Response.error := Some failure; Response.loading := false |} state,
           Some {| Entry.request := sent currentRequest url;
                   Entry.response := None;
                   Entry.timing := elapsed 2%nat;
                   Entry.error := Some failure;
                   Entry.environmentId := None;
                   Entry.savedRequestId := State.savedRequestId state |})
      end
  end.

End WithRuntime.

End UseRequest.

(** ** Variables of the active environment: [stores/environment.store] *)

Module EnvStore.

Import Env.

(** [(v) => v.key === key && v.enabled] *)
Definition matches (key : string) (v : EnvVariable) : bool :=
  String.eqb (Env.key v) key && enabled v.

Definition getVariable (state : EnvironmentState) (key : string) : option string :=
  match activeEnvironment state with
  | None => None
  | Some active => value <$> List.find (matches key) (variables active)
  end.

(** One turn of the loop over the variables: [map.set(key, value)] for an
    enabled variable. *)
Definition set_enabled (map : gmap string string) (v : EnvVariable) : gmap string string :=
  if enabled v then <[Env.key v := value v]> map else map.

Definition getVariablesMap (state : EnvironmentState) : gmap string string :=
  match activeEnvironment state with
  | None => ∅
  | Some active => fold_left set_enabled (variables active) ∅
  end.

End EnvStore.

(** ** Helpers of the response viewer *)

Module View.

(** [text.replace(/c/g, replacement)] for a pattern of one character *)
Fixpoint replace (c : ascii) (replacement : string) (text : string) : string :=
  match text with
  | EmptyString => EmptyString
  | String a rest =>
      if Ascii.eqb a c then replacement +:+ replace c replacement rest
      else String a (replace c replacement rest)
  end.

Definition escapeHtml (text : string) : string :=
  replace "'" "&#039;"
    (replace "034" "&quot;"
       (replace ">" "&gt;"
          (replace "<" "&lt;"
             (replace "&" "&amp;" text)))).

(** What [escapeHtml] writes for one character. *)
Definition entity (c : ascii) : string :=
  if Ascii.eqb c "&" then "&amp;"
  else if Ascii.eqb c "<" then "&lt;"
  else if Ascii.eqb c ">" then "&gt;"
  else if Ascii.eqb c "034" then "&quot;"
  else if Ascii.eqb c "'" then "&#039;"
  else String c EmptyString.

(** [escapeHtml] in one pass. *)
Fixpoint escaped (text : string) : string :=
  match text with
  | EmptyString => EmptyString
  | String a rest => entity a +:+ escaped rest
  end.

(** The characters that end a text or an attribute value in HTML. *)
Definition special (c : ascii) : bool :=
  Ascii.eqb c "<" || Ascii.eqb c ">" || Ascii.eqb c "034" || Ascii.eqb c "'".

End View.

(** ** More sample inputs *)

Module Cases.

(** A response of one byte that declares no length. *)
Definition plain_response : Fetch.Response :=
  {| Fetch.status := 200;
     Fetch.statusText := "OK";
     Fetch.headers := [];
     Fetch.body := Some {| Fetch.chunks := [[Byte.x01]]; Fetch.failure := None;
                           Fetch.cancel_failure := None |} |}.

Definition plain_read : Proxy.Read (list Byte.byte) :=
  {| Proxy.body := [Byte.x01]; Proxy.truncated := false; Proxy.size := 1 |}.

(** The streams of [Samples.short_response] and of
    [Samples.oversized_response], in responses that declare no length. *)
Definition short_undeclared : Fetch.Response :=
  {| Fetch.status := 200;
     Fetch.statusText := "OK";
     Fetch.headers := [];
     Fetch.body := Fetch.body Samples.short_response |}.

Definition oversized_undeclared : Fetch.Response :=
  {| Fetch.status := 200;
     Fetch.statusText := "OK";
     Fetch.headers := [];
     Fetch.body := Some Samples.oversized_stream |}.

(** A payload with a method and a URL only. *)
Definition bare_payload : Route.Json :=
  Route.JObject
    [("method", Route.JString "GET"); ("url", Route.JString "https://example.com")].

Definition bare_request : Schema.Req.ProxyRequest :=
  {| Schema.Req.method := Schema.GET;
     Schema.Req.url := "https://example.com";
     Schema.Req.headers := ∅;
     Schema.Req.body := None;
     Schema.Req.timeout := 30000 |}.

(** A collection with a folder and a folder in it. *)
Definition sample_folder (id : string) (parent : option string) : Collections.F.Folder :=
  {| Collections.F.id := id;
     Collections.F.name := id;
     Collections.F.collectionId := "c1";
     Collections.F.parentFolderId := parent;
     Collections.F.auth := None;
     Collections.F.sortOrder := 0;
     Collections.F.createdAt := "2025-12-05T00:00:00.000Z";
     Collections.F.updatedAt := "2025-12-05T00:00:00.000Z" |}.

Definition outer : Collections.F.Folder := sample_folder "f1" None.

Definition inner : Collections.F.Folder := sample_folder "f2" (Some "f1").

Definition library : Collections.Database :=
  {| Collections.collections := ∅;
     Collections.folders := <["f1" := outer]> (<["f2" := inner]> ∅);
     Collections.requests := ∅ |}.

Definition new_folder : Collections.NewFolder.t :=
  {| Collections.NewFolder.name := "f3";
     Collections.NewFolder.collectionId := "c1";
     Collections.NewFolder.parentFolderId := Some "f2";
     Collections.NewFolder.auth := None;
     Collections.NewFolder.sortOrder := 1 |}.

(** The state of the request builder with a URL that lacks its scheme. *)
Definition typed_state : RequestStore.State.RequestState :=
  {| RequestStore.State.method := Schema.GET;
     RequestStore.State.url := " example.com ";
     RequestStore.State.headers := Samples.mixed_case_rows;
     RequestStore.State.body := None;
     RequestStore.State.auth := Types.none;
     RequestStore.State.timeout := 30000;
     RequestStore.State.response := None;
     RequestStore.State.loading := false;
     RequestStore.State.savedRequestId := None;
     RequestStore.State.isDirty := true |}.

(** A response of the engine to a request that went through. *)
Definition ok_response : Schema.Res.ProxyResponse :=
  {| Schema.Res.status := 200;
     Schema.Res.statusText := "OK";
     Schema.Res.headers := {["content-type" := "text/plain"]};
     Schema.Res.body := "hello";
     Schema.Res.bodyTruncated := false;
     Schema.Res.size := 5;
     Schema.Res.timing := {| Schema.total := 7; Schema.firstByte := Some 4;
                             Schema.download := Some 4 |};
     Schema.Res.error := None |}.

(** An active environment in which the key [host] is set twice. *)
Definition twice_set : Env.Environment :=
  {| Env.id := "dev"; Env.name := "dev";
     Env.variables :=
       [ {| Env.key := "host"; Env.value := "a.example.com"; Env.enabled := true |};
         {| Env.key := "port"; Env.value := "8080"; Env.enabled := true |};
         {| Env.key := "host"; Env.value := "b.example.com"; Env.enabled := false |} ];
     Env.isActive := true;
     Env.createdAt := "2025-12-05T00:00:00.000Z";
     Env.updatedAt := "2025-12-05T00:00:00.000Z";
     Env.syncProjectId := None |}.

Definition active_state : Env.EnvironmentState :=
  {| Env.environments := [twice_set]; Env.activeEnvironment := Some twice_set;
     Env.loading := false; Env.error := None |}.

End Cases.

(** * Properties *)

(** ** The error classifier *)

Section Classifier.

Import Schema Proxy.

Context (rt : Runtime).

Lemma recognised_unfold name msg :
  recognised rt name msg =
  let m := toLowerCase rt msg in
  String.eqb name "AbortError" || includes m "abort"
  || (includes m "dns" || includes m "getaddrinfo" || includes m "resolve")
  || (includes m "ssl" || includes m "tls" || includes m "certificate")
  || (includes m "network" || includes m "connect" || includes m "econnrefused"
      || includes m "econnreset" || includes m "enotfound").
Proof.
  unfold recognised, keywordGroups. cbn [existsb snd].
  rewrite !orb_false_r. cbv zeta. rewrite !orb_assoc. reflexivity.
Qed.

Ltac split_includes :=
  repeat match goal with
    | |- context [includes ?m ?k] => destruct (includes m k); cbn [orb negb]
    end.

(** On the thrown values of the engine's worlds [categorizeError] gives one
    of the five types and a message.  An [Error] is classified [unknown]
    exactly when it is not recognised (no cancellation marker, no keyword
    of any group in its lower-cased message), and then its message is kept
    as it is; a thrown value that is not an [Error] has no message to keep
    and is [unknown] with a fixed one. *)
Lemma categorizeError_total_unknown (e : Thrown) :
  (exists t m, categorizeError rt e = {| type := t; message := m |}
               /\ In t [timeout; network; dns; ssl; unknown])
  /\ match e with
     | JsError name msg =>
         (recognised rt name msg = false ->
          categorizeError rt e = {| type := unknown; message := msg |})
         /\ (recognised rt name msg = true -> type (categorizeError rt e) <> unknown)
     | JsOther => type (categorizeError rt e) = unknown
     end.
Proof.
  split.
  - exists (type (categorizeError rt e)), (message (categorizeError rt e)).
    split; [by destruct (categorizeError rt e)|].
    destruct e as [name msg|]; cbn [categorizeError]; cbv zeta.
    + destruct (String.eqb name "AbortError"); cbn [orb];
        split_includes; cbn; tauto.
    + cbn; tauto.
  - destruct e as [name msg|]; [|reflexivity].
    rewrite recognised_unfold. cbn [categorizeError]. cbv zeta.
    destruct (String.eqb name "AbortError"); cbn [orb];
      split_includes; cbn; split; congruence.
Qed.

(** On the values of the engine's worlds the classifier is the one the
    engine calls. *)
Lemma categorizeError_of_thrown (e : Thrown) :
  Values.categorizeError rt (Values.of_thrown e) = Normal (categorizeError rt e).
Proof. by destruct e. Qed.

(** C7, amended. [categorizeError] returns, without throwing, for every
    value that is not an [Error] and for every [Error] whose message is a
    string: it gives one of the five types and a message.  Such an
    [Error] is classified [unknown] exactly when it is not recognised (no
    cancellation marker, no keyword of any group in its lower-cased
    message), and then its message is kept as it is; a value that is not
    an [Error] has no message to keep and is [unknown] with a fixed
    one. *)
Theorem categorizeError_total_on_string_messages (error : Values.Value) :
  Values.typed error = true ->
  exists r,
    Values.categorizeError rt error = Normal r
    /\ In (type r) [timeout; network; dns; ssl; unknown]
    /\ match error with
       | Values.ErrorValue name (Values.Text msg) =>
           (recognised rt name msg = false ->
            r = {| type := unknown; message := msg |})
           /\ (recognised rt name msg = true -> type r <> unknown)
       | _ => r = {| type := unknown; message := "An unknown error occurred" |}
       end.
Proof.
  intros Htyped.
  assert (forall e, In (type (categorizeError rt e)) [timeout; network; dns; ssl; unknown])
    as Hfive.
  { intros e. destruct (proj1 (categorizeError_total_unknown e)) as (t & m & -> & Hin).
    exact Hin. }
  destruct error as [name [msg|]|]; [| discriminate Htyped |].
  - cbn [Values.categorizeError]. eexists. split; [reflexivity|]. split; [apply Hfive|].
    exact (proj2 (categorizeError_total_unknown (JsError name msg))).
  - cbn [Values.categorizeError]. eexists. split; [reflexivity|]. split; [apply Hfive|].
    reflexivity.
Qed.

End Classifier.

(** C7 as stated, refuted: an [Error] whose message is not a string, the
    number 42 say, makes [categorizeError] throw a TypeError. *)
Lemma categorizeError_throws_without_string_message :
  ~ (forall (rt : Runtime) (error : Values.Value),
       exists r, Values.categorizeError rt error = Normal r).
Proof.
  intros Hclaim.
  destruct (Hclaim sampleRuntime (Values.ErrorValue "Error" Values.NoText)) as [r Hr].
  discriminate Hr.
Qed.

Lemma categorizeError_total_on_string_messages_witness :
  Values.typed (Values.ErrorValue "TypeError" (Values.Text "socket hang up")) = true
  /\ Proxy.recognised sampleRuntime "TypeError" "socket hang up" = false
  /\ Values.categorizeError sampleRuntime
       (Values.ErrorValue "TypeError" (Values.Text "socket hang up"))
     = Normal {| Schema.type := Schema.unknown; Schema.message := "socket hang up" |}.
Proof.
  split; [reflexivity|]. split; [reflexivity|].
  destruct (categorizeError_total_on_string_messages sampleRuntime
              (Values.ErrorValue "TypeError" (Values.Text "socket hang up")) eq_refl)
    as (r & Hr & _ & Hunknown & _).
  rewrite Hr. f_equal. apply Hunknown. reflexivity.
Defined.

(** ** The execution engine *)

Section Engine.

Import Schema Proxy.

Context (rt : Runtime).

Lemma tryBlock_calls w request startTime :
  calls (tryBlock rt w request startTime)
  = [(Req.url request, fetchOptions request)].
Proof.
  unfold tryBlock.
  destruct (fetch w _ _) as [response|e]; [|reflexivity].
  destruct (readResponseBody rt response); reflexivity.
Qed.

(** How the [try] block completes, by what the fetch and the read of the
    body do. *)
Lemma tryBlock_fails w request startTime e :
  Fails rt w request e ->
  completion (tryBlock rt w request startTime) = Throw e.
Proof.
  intros [e' Hfetch | response e' Hfetch Hread]; unfold tryBlock; rewrite Hfetch.
  - reflexivity.
  - rewrite Hread. reflexivity.
Qed.

Lemma tryBlock_succeeds w request startTime response r :
  fetch w (Req.url request) (fetchOptions request) = Normal response ->
  readResponseBody rt response = Normal r ->
  exists timing,
    completion (tryBlock rt w request startTime)
    = Normal {| Res.status := Fetch.status response;
                Res.statusText := Fetch.statusText response;
                Res.headers := headersRecord (Fetch.headers response);
                Res.body := body r;
                Res.bodyTruncated := truncated r;
                Res.size := size r;
                Res.timing := timing;
                Res.error := None |}.
Proof.
  intros Hfetch Hread. unfold tryBlock. rewrite Hfetch, Hread.
  eexists. reflexivity.
Qed.

(** Either some step fails, or the fetch and the read both succeed. *)
Lemma fails_or_succeeds w request :
  (exists e, Fails rt w request e)
  \/ (exists response r,
        fetch w (Req.url request) (fetchOptions request) = Normal response
        /\ readResponseBody rt response = Normal r).
Proof.
  destruct (fetch w (Req.url request) (fetchOptions request)) as [response|e] eqn:Hfetch.
  - destruct (readResponseBody rt response) as [r|e] eqn:Hread.
    + right. eauto.
    + left. exists e. eapply read_fails; eauto.
  - left. exists e. by apply fetch_fails.
Qed.

(** The result when a step fails: what the [catch] block builds. *)
Lemma executeProxyRequest_failed w request e :
  Fails rt w request e ->
  exists timing,
    executeProxyRequest rt w request
    = Normal {| Res.status := 0; Res.statusText := EmptyString; Res.headers := ∅;
                Res.body := EmptyString; Res.bodyTruncated := false; Res.size := 0;
                Res.timing := timing;
                Res.error := Some (categorizeError rt e) |}.
Proof.
  intros Hfails. unfold executeProxyRequest.
  rewrite (tryBlock_fails _ _ _ _ Hfails). cbn [try_catch].
  eexists. reflexivity.
Qed.

(** C8. For a GET or a HEAD request the engine makes its one outbound call
    without a body, whatever the [body] field of the request holds. *)
Theorem get_head_send_no_body (w : World) (request : Req.ProxyRequest) :
  Req.method request = GET \/ Req.method request = HEAD ->
  exists options,
    outboundCalls rt w request = [(Req.url request, options)]
    /\ Fetch.Init.body options = None.
Proof.
  intros Hmethod. exists (fetchOptions request). split.
  - apply tryBlock_calls.
  - unfold fetchOptions. cbn [Fetch.Init.body].
    assert (is_GET_or_HEAD (Req.method request) = true) as ->
      by (destruct Hmethod as [-> | ->]; reflexivity).
    by rewrite andb_false_r.
Qed.

(** C2. [executeProxyRequest] never throws: it completes normally with a
    ProxyResponse for every request and every world, and when the fetch
    (rejected by the network or by the abort signal of the timeout) or the
    read of the body fails with [e], that response has status 0, no
    headers, an empty body, and the error [categorizeError e], which for
    the rejection by the abort signal is the timeout error. *)
Theorem executeProxyRequest_never_throws (w : World) (request : Req.ProxyRequest) :
  (exists r, executeProxyRequest rt w request = Normal r)
  /\ (forall e, Fails rt w request e ->
      exists r, executeProxyRequest rt w request = Normal r
                /\ Res.status r = 0
                /\ Res.statusText r = EmptyString
                /\ Res.headers r = ∅
                /\ Res.body r = EmptyString
                /\ Res.bodyTruncated r = false
                /\ Res.size r = 0
                /\ Res.error r = Some (categorizeError rt e))
  /\ (forall msg,
        categorizeError rt (JsError "AbortError" msg)
        = {| type := timeout; message := "Request timed out" |}).
Proof.
  split; [|split].
  - unfold executeProxyRequest, try_catch.
    destruct (completion _); eauto.
  - intros e Hfails.
    destruct (executeProxyRequest_failed w request e Hfails) as [timing ->].
    eexists. split; [reflexivity|]. cbn. tauto.
  - reflexivity.
Qed.

(** C1. Provided the responses the fetch resolves to carry a status other
    than 0 (the Fetch standard gives such a status to a network error
    only, and then the fetch rejects), the result of [executeProxyRequest]
    has an error exactly when its status is 0, and exactly one of the two
    cases applies: the call succeeded, the status is the one received and
    the error is null; or a step failed, the status is 0 and the error is
    the classified failure. *)
Theorem error_iff_status_zero (w : World) (request : Req.ProxyRequest) :
  (forall response,
     fetch w (Req.url request) (fetchOptions request) = Normal response ->
     Fetch.status response <> 0) ->
  exists r,
    executeProxyRequest rt w request = Normal r
    /\ (Res.error r <> None <-> Res.status r = 0)
    /\ ((exists response,
           fetch w (Req.url request) (fetchOptions request) = Normal response
           /\ Res.status r = Fetch.status response
           /\ Res.status r <> 0 /\ Res.error r = None)
        \/ (exists e,
              Fails rt w request e
              /\ Res.status r = 0 /\ Res.error r = Some (categorizeError rt e))).
Proof.
  intros Hstatus.
  destruct (fails_or_succeeds w request) as [[e Hfails] | (response & r & Hfetch & Hread)].
  - destruct (executeProxyRequest_failed w request e Hfails) as [timing ->].
    eexists. split; [reflexivity|]. cbn. split.
    + split; [done | discriminate].
    + right. exists e. auto.
  - destruct (tryBlock_succeeds w request (now w 0) response r Hfetch Hread)
      as [timing Hcompl].
    unfold executeProxyRequest. rewrite Hcompl. cbn [try_catch].
    eexists. split; [reflexivity|]. cbn.
    specialize (Hstatus response Hfetch). split.
    + split; [congruence | intros; contradiction].
    + left. exists response. auto.
Qed.

End Engine.

Lemma get_head_send_no_body_witness :
  Schema.Req.method Samples.get_with_body = Schema.GET
  /\ Schema.Req.body Samples.get_with_body = Some "ignored"
  /\ exists options,
       Proxy.outboundCalls sampleRuntime Samples.sample_world Samples.get_with_body
       = [(Schema.Req.url Samples.get_with_body, options)]
       /\ Fetch.Init.body options = None.
Proof.
  split; [reflexivity|]. split; [reflexivity|].
  apply (get_head_send_no_body sampleRuntime Samples.sample_world Samples.get_with_body).
  left. reflexivity.
Defined.

Lemma executeProxyRequest_never_throws_witness :
  Proxy.Fails sampleRuntime Samples.timeout_world Samples.get_with_body
    (JsError "AbortError" "The signal has been aborted")
  /\ exists r,
       Proxy.executeProxyRequest sampleRuntime Samples.timeout_world Samples.get_with_body
       = Normal r
       /\ Schema.Res.status r = 0
       /\ Schema.Res.error r
          = Some {| Schema.type := Schema.timeout;
                    Schema.message := "Request timed out" |}.
Proof.
  assert (Proxy.Fails sampleRuntime Samples.timeout_world Samples.get_with_body
            (JsError "AbortError" "The signal has been aborted")) as Hfails
    by (apply Proxy.fetch_fails; reflexivity).
  split; [exact Hfails|].
  destruct (proj1 (proj2 (executeProxyRequest_never_throws sampleRuntime
                            Samples.timeout_world Samples.get_with_body)) _ Hfails)
    as (r & Hr & Hstatus & _ & _ & _ & _ & _ & Herror).
  exists r. split; [exact Hr|]. split; [exact Hstatus | exact Herror].
Defined.

Lemma error_iff_status_zero_witness :
  (forall response,
     Proxy.fetch Samples.sample_world (Schema.Req.url Samples.get_with_body)
       (Proxy.fetchOptions Samples.get_with_body) = Normal response ->
     Fetch.status response <> 0)
  /\ exists r,
       Proxy.executeProxyRequest sampleRuntime Samples.sample_world Samples.get_with_body
       = Normal r
       /\ (Schema.Res.error r <> None <-> Schema.Res.status r = 0).
Proof.
  assert (forall response,
     Proxy.fetch Samples.sample_world (Schema.Req.url Samples.get_with_body)
       (Proxy.fetchOptions Samples.get_with_body) = Normal response ->
     Fetch.status response <> 0) as Hstatus
    by (intros response [= <-]; discriminate).
  split; [exact Hstatus|].
  destruct (error_iff_status_zero sampleRuntime Samples.sample_world
              Samples.get_with_body Hstatus) as (r & Hr & Hiff & _).
  exists r. split; [exact Hr | exact Hiff].
Defined.

(** ** The bounded body reader *)

Section BodyReader.

Import Proxy.

Lemma MAX_BODY_SIZE_pos : 0 < MAX_BODY_SIZE.
Proof. reflexivity. Qed.

Lemma byteLength_app a b : byteLength (a ++ b) = byteLength a + byteLength b.
Proof. unfold byteLength. rewrite length_app. lia. Qed.

Lemma byteLength_nonneg a : 0 <= byteLength a.
Proof. unfold byteLength. lia. Qed.

Lemma byteLength_take n a :
  0 <= n -> byteLength (take (Z.to_nat n) a) = Z.min n (byteLength a).
Proof. intros Hn. unfold byteLength. rewrite length_take. lia. Qed.

(** [a.subarray(0, n)] for a count that is not negative: the first [n]
    bytes, all of them when there are fewer. *)
Lemma subarray_prefix a n : 0 <= n -> subarray a 0 n = take (Z.to_nat n) a.
Proof.
  intros Hn. unfold subarray, clamp_index.
  pose proof (byteLength_nonneg a) as Hlen.
  replace (0 <? 0) with false by reflexivity.
  destruct (n <? 0) eqn:Hneg; [lia|].
  rewrite (Z.min_l 0) by lia. rewrite Z.sub_0_r.
  change (Z.to_nat 0) with 0%nat. rewrite drop_0.
  destruct (Z.le_ge_cases n (byteLength a)).
  - by rewrite Z.min_l.
  - rewrite Z.min_r by lia.
    rewrite !take_ge by (unfold byteLength in *; lia). done.
Qed.

(** [target.set(source, offset)] when the source fits. *)
Lemma typed_set_fits target source offset :
  0 <= offset -> offset + byteLength source <= byteLength target ->
  typed_set target source offset
  = Normal (take (Z.to_nat offset) target ++ source
            ++ drop (Z.to_nat offset + length source) target).
Proof.
  intros Hoff Hfit. unfold typed_set.
  destruct (offset <? 0) eqn:H1; [lia|].
  destruct (byteLength target <? offset + byteLength source) eqn:H2; [lia|].
  reflexivity.
Qed.

(** The copy loop: no RangeError, and [combined] ends up holding what it
    held below [offset], followed by the first bytes of the chunks. *)
Lemma copyChunks_spec chunks : forall combined offset,
  0 <= offset < MAX_BODY_SIZE ->
  byteLength combined = Z.min (offset + byteLength (concat chunks)) MAX_BODY_SIZE ->
  copyChunks chunks combined offset
  = Normal (take (Z.to_nat offset) combined
            ++ take (Z.to_nat (byteLength combined - offset)) (concat chunks)).
Proof.
  induction chunks as [|chunk rest IH]; intros combined offset Hoff Hlen.
  - cbn [copyChunks concat]. rewrite take_nil, app_nil_r.
    change (byteLength (concat [])) with 0 in Hlen.
    rewrite take_ge; [done|]. unfold byteLength in *. lia.
  - cbn [copyChunks concat] in *. rewrite byteLength_app in Hlen.
    pose proof (byteLength_nonneg chunk) as Hc.
    pose proof (byteLength_nonneg (concat rest)) as Hr.
    set (toCopy := Z.min (byteLength chunk) (MAX_BODY_SIZE - offset)) in *.
    assert (0 <= toCopy) by lia.
    rewrite subarray_prefix by done.
    assert (byteLength (take (Z.to_nat toCopy) chunk) = toCopy) as Hsub
      by (rewrite byteLength_take by done; lia).
    rewrite typed_set_fits by lia. cbn [bind].
    assert (length (take (Z.to_nat toCopy) chunk) = Z.to_nat toCopy) as Hsubn
      by (unfold byteLength in Hsub; lia).
    rewrite Hsubn.
    destruct (offset + toCopy >=? MAX_BODY_SIZE) eqn:Hfull.
    + (* the cap is reached inside this chunk *)
      assert (toCopy = MAX_BODY_SIZE - offset) as HtoCopy by lia.
      assert (byteLength combined = MAX_BODY_SIZE) as Hcomb by lia.
      rewrite (drop_ge combined) by (unfold byteLength in *; lia).
      rewrite app_nil_r. f_equal. f_equal.
      rewrite Hcomb, <- HtoCopy.
      rewrite take_app_le; [done|]. unfold byteLength in *. lia.
    + (* the whole chunk is copied *)
      assert (toCopy = byteLength chunk) as HtoCopy by lia.
      rewrite (take_ge chunk) by (unfold byteLength in *; lia).
      set (combined' := take (Z.to_nat offset) combined ++ chunk
                        ++ drop (Z.to_nat offset + Z.to_nat toCopy) combined).
      assert (byteLength combined' = byteLength combined) as Hsame.
      { unfold combined', byteLength in *.
        rewrite !length_app, length_take, length_drop. lia. }
      rewrite IH; [| lia | lia].
      f_equal. rewrite Hsame.
      assert (take (Z.to_nat (offset + toCopy)) combined'
              = take (Z.to_nat offset) combined ++ chunk) as ->.
      { unfold combined'. rewrite app_assoc. apply take_app_length'.
        unfold byteLength in *. rewrite length_app, length_take. lia. }
      rewrite <- app_assoc. f_equal.
      rewrite take_app. f_equal.
      * rewrite take_ge; [done|]. unfold byteLength in *. lia.
      * f_equal. unfold byteLength in *. lia.
Qed.

(** The read loop: what it has read when it stops, and why it stopped. *)
Lemma readChunks_spec pending failure : forall acc total,
  total = byteLength (concat acc) ->
  match readChunks pending failure acc total with
  | Normal (chunks, totalSize) =>
      totalSize = byteLength (concat chunks)
      /\ exists rest, acc ++ pending = chunks ++ rest
                      /\ (MAX_BODY_SIZE <= totalSize \/ (rest = [] /\ failure = None))
  | Throw e =>
      failure = Some e /\ byteLength (concat (acc ++ pending)) < MAX_BODY_SIZE
  end.
Proof.
  induction pending as [|value rest IH]; intros acc total Htotal.
  - cbn [readChunks]. destruct (total <? MAX_BODY_SIZE) eqn:Hlt.
    + destruct failure as [e|].
      * rewrite app_nil_r. split; [done | lia].
      * split; [done|]. exists []. split; [done | by right].
    + split; [done|]. exists []. split; [done | left; lia].
  - cbn [readChunks]. destruct (total <? MAX_BODY_SIZE) eqn:Hlt.
    + specialize (IH (acc ++ [value]) (total + byteLength value)).
      rewrite <- app_assoc in IH. cbn [app] in IH. apply IH.
      rewrite concat_app, byteLength_app. cbn [concat]. rewrite app_nil_r. lia.
    + split; [done|]. exists (value :: rest). split; [done | left; lia].
Qed.

(** The partial read returns the first [MAX_BODY_SIZE] bytes of the stream,
    flagged as truncated, with the declared size. *)
Lemma readPartial_spec stream declared r :
  readPartial stream declared = Normal r ->
  body r = subarray (concat (Fetch.chunks stream)) 0 MAX_BODY_SIZE
  /\ truncated r = true /\ size r = declared.
Proof.
  unfold readPartial.
  pose proof (readChunks_spec (Fetch.chunks stream) (Fetch.failure stream) [] 0 eq_refl)
    as Hread.
  destruct (readChunks _ _ _ _) as [[chunks totalSize]|e]; [|discriminate].
  destruct Hread as (Htotal & rest & Hsplit & Hstop). cbn [bind app] in *.
  unfold cancel. destruct (Fetch.cancel_failure stream); [discriminate|]. cbn [bind].
  pose proof MAX_BODY_SIZE_pos as Hmax.
  pose proof (byteLength_nonneg (concat chunks)) as Hnn.
  rewrite copyChunks_spec.
  2: lia.
  2: { unfold new_Uint8Array, byteLength at 1. rewrite length_replicate. lia. }
  cbn [bind]. intros [= <-]. cbn [body truncated size]. split; [|done].
  rewrite Z.sub_0_r.
  assert (byteLength (new_Uint8Array (Z.min totalSize MAX_BODY_SIZE))
          = Z.min totalSize MAX_BODY_SIZE) as ->.
  { unfold new_Uint8Array, byteLength. rewrite length_replicate. lia. }
  rewrite subarray_prefix by lia. rewrite Hsplit, concat_app.
  destruct Hstop as [Hfull | [-> _]].
  - rewrite Z.min_r by lia. rewrite take_app_le; [done|].
    unfold byteLength in *. lia.
  - cbn [concat]. rewrite app_nil_r.
    destruct (Z.le_ge_cases totalSize MAX_BODY_SIZE).
    + rewrite Z.min_l by done. rewrite !take_ge; [done | |]; unfold byteLength in *; lia.
    + by rewrite Z.min_r by lia.
Qed.

(** The full read returns everything, or its first [MAX_BODY_SIZE] bytes
    when there is more. *)
Lemma readFull_spec response r :
  readFull response = Normal r ->
  size r = byteLength (delivered response)
  /\ truncated r = (byteLength (delivered response) >? MAX_BODY_SIZE)
  /\ body r = subarray (delivered response) 0 MAX_BODY_SIZE.
Proof.
  unfold readFull, arrayBuffer, delivered.
  pose proof MAX_BODY_SIZE_pos as Hmax.
  assert (forall buffer : list Byte.byte,
    (if byteLength buffer >? MAX_BODY_SIZE
     then Normal {| body := subarray buffer 0 MAX_BODY_SIZE; truncated := true;
                    size := byteLength buffer |}
     else Normal {| body := buffer; truncated := false; size := byteLength buffer |})
    = Normal r ->
    size r = byteLength buffer
    /\ truncated r = (byteLength buffer >? MAX_BODY_SIZE)
    /\ body r = subarray buffer 0 MAX_BODY_SIZE) as Hbuffer.
  { intros buffer. destruct (byteLength buffer >? MAX_BODY_SIZE) eqn:Hover;
      intros [= <-]; cbn [body truncated size]; [done|].
    repeat split. rewrite subarray_prefix by lia.
    rewrite take_ge; [done|]. unfold byteLength in *. lia. }
  destruct (Fetch.body response) as [stream|]; cbn [bind].
  - destruct (Fetch.failure stream); [discriminate|]. cbn [bind]. apply Hbuffer.
  - apply Hbuffer.
Qed.

(** The partial read returns when neither the stream nor its cancellation
    fails. *)
Lemma readPartial_returns stream declared :
  Fetch.failure stream = None ->
  Fetch.cancel_failure stream = None ->
  exists r, readPartial stream declared = Normal r.
Proof.
  intros Hok Hcancel. unfold readPartial, cancel. rewrite Hcancel.
  pose proof (readChunks_spec (Fetch.chunks stream) (Fetch.failure stream) [] 0 eq_refl)
    as Hread.
  destruct (readChunks _ _ _ _) as [[chunks totalSize]|e].
  - destruct Hread as (Htotal & _). cbn [bind].
    pose proof MAX_BODY_SIZE_pos as Hmax.
    pose proof (byteLength_nonneg (concat chunks)) as Hnn.
    rewrite copyChunks_spec; [cbn [bind]; eauto | lia |].
    unfold new_Uint8Array, byteLength at 1. rewrite length_replicate. lia.
  - destruct Hread as [Hfail _]. congruence.
Qed.

Section WithRuntime.

Context (rt : Runtime).

(** [readResponseBody] returns what [readResponseBytes] returns, the body
    decoded; it throws what [readResponseBytes] throws. *)
Lemma readResponseBody_decodes response :
  readResponseBody rt response
  = match readResponseBytes rt response with
    | Normal r =>
        Normal {| body := decode rt (body r); truncated := truncated r; size := size r |}
    | Throw e => Throw e
    end.
Proof. unfold readResponseBody. by destruct (readResponseBytes rt response). Qed.

(** The two ways in which [readResponseBody] flags a body as truncated. *)
Lemma truncated_cases response r :
  readResponseBytes rt response = Normal r ->
  truncated r = true ->
  (exists declared stream,
      declaredSize rt response = Some declared
      /\ MAX_BODY_SIZE < declared
      /\ Fetch.body response = Some stream
      /\ readPartial stream declared = Normal r)
  \/ ((forall declared, declaredSize rt response = Some declared ->
                        declared <= MAX_BODY_SIZE)
      /\ MAX_BODY_SIZE < byteLength (delivered response)
      /\ readFull response = Normal r).
Proof.
  unfold readResponseBytes. intros Hread Htrunc.
  assert (readFull response = Normal r ->
          MAX_BODY_SIZE < byteLength (delivered response)) as Hfull.
  { intros Hr. destruct (readFull_spec _ _ Hr) as (_ & Ht & _).
    rewrite Htrunc in Ht. lia. }
  destruct (declaredSize rt response) as [declared|] eqn:Hdeclared.
  - destruct (negb (declared =? 0) && (declared >? MAX_BODY_SIZE)) eqn:Hover.
    + destruct (Fetch.body response) as [stream|] eqn:Hbody.
      * left. exists declared, stream. repeat split; [lia | done].
      * injection Hread as <-. discriminate.
    + right. split; [|by auto]. intros ? [= <-].
      pose proof MAX_BODY_SIZE_pos. lia.
  - right. split; [|by auto]. discriminate.
Qed.

(** [readResponseBody] returns whenever the stream and its cancellation do
    not fail; it throws nothing of its own. *)
Lemma readResponseBytes_returns response :
  (forall stream, Fetch.body response = Some stream ->
                  Fetch.failure stream = None /\ Fetch.cancel_failure stream = None) ->
  exists r, readResponseBytes rt response = Normal r.
Proof.
  intros Hstream.
  assert (exists r, readFull response = Normal r) as Hfull.
  { unfold readFull, arrayBuffer.
    destruct (Fetch.body response) as [stream|].
    - destruct (Hstream stream eq_refl) as [-> _]. cbn [bind].
      destruct (_ >? _); eauto.
    - cbn [bind]. destruct (_ >? _); eauto. }
  unfold readResponseBytes.
  destruct (declaredSize rt response) as [declared|]; [|done].
  destruct (negb (declared =? 0) && (declared >? MAX_BODY_SIZE)); [|done].
  destruct (Fetch.body response) as [stream|]; [|eauto].
  destruct (Hstream stream eq_refl). by apply readPartial_returns.
Qed.

(** Without a declared length the body is read in full. *)
Lemma read_full_only response r :
  declaredSize rt response = None ->
  readResponseBytes rt response = Normal r ->
  size r = byteLength (delivered response)
  /\ truncated r = (byteLength (delivered response) >? MAX_BODY_SIZE)
  /\ body r = subarray (delivered response) 0 MAX_BODY_SIZE.
Proof.
  unfold readResponseBytes. intros -> Hfull. by apply readFull_spec.
Qed.

Lemma observedBytes_full response :
  (forall declared, declaredSize rt response = Some declared ->
                    declared <= MAX_BODY_SIZE) ->
  observedBytes rt response = byteLength (delivered response).
Proof.
  intros Hsmall. unfold observedBytes, delivered.
  destruct (Fetch.body response) as [stream|]; [|done].
  destruct (declaredSize rt response) as [declared|]; [|done].
  specialize (Hsmall declared eq_refl).
  destruct (negb (declared =? 0) && (declared >? MAX_BODY_SIZE)) eqn:Hover; [lia | done].
Qed.

End WithRuntime.

Import Samples.

(** C3, the code at the failing input.  For the response that declares
    20000000 bytes and delivers three, [readResponseBody] takes the
    short-circuit path: the bytes it decodes are the whole stream, three
    bytes and not [MAX_BODY_SIZE], and yet it flags the body as truncated,
    with size 20000000.  The same stream in a response that declares no
    length is read on the full-read path, which does not flag it and
    gives size 3. *)
Theorem short_body_flagged_as_truncated :
  readResponseBytes sampleRuntime short_response = Normal short_read
  /\ truncated short_read = true
  /\ size short_read = 20000000
  /\ body short_read = delivered short_response
  /\ byteLength (body short_read) = 3
  /\ byteLength (body short_read) < MAX_BODY_SIZE
  /\ readResponseBytes sampleRuntime Cases.short_undeclared
     = Normal {| body := body short_read; truncated := false; size := 3 |}.
Proof.
  split; [reflexivity|]. split; [reflexivity|]. split; [reflexivity|].
  split; [reflexivity|]. split; [reflexivity|]. split; reflexivity.
Qed.

Lemma byteLength_oversized_chunk : byteLength oversized_chunk = MAX_BODY_SIZE + 2.
Proof.
  unfold oversized_chunk, byteLength. rewrite length_replicate.
  pose proof MAX_BODY_SIZE_pos. lia.
Qed.

Lemma readChunks_oversized :
  readChunks [oversized_chunk] None [] 0 = Normal ([oversized_chunk], MAX_BODY_SIZE + 2).
Proof.
  cbn [readChunks app].
  replace (0 <? MAX_BODY_SIZE) with true by reflexivity.
  rewrite byteLength_oversized_chunk.
  replace (0 + (MAX_BODY_SIZE + 2) <? MAX_BODY_SIZE) with false; [done|].
  pose proof MAX_BODY_SIZE_pos. lia.
Qed.

(** C4, the code at the failing input.  For the response that declares
    10485761 bytes and delivers 10485762 in one chunk, [readResponseBody]
    takes the short-circuit path and reads all 10485762 bytes, and yet the
    size it returns is the declared 10485761: less than the bytes it has
    read, and less than the larger of the two.  The same stream in a
    response that declares no length is read on the full-read path, whose
    size is the 10485762 bytes read. *)
Theorem declared_size_reported_below_bytes_read :
  exists r,
    readResponseBytes sampleRuntime oversized_response = Normal r
    /\ truncated r = true
    /\ size r = 10485761
    /\ declaredSize sampleRuntime oversized_response = Some 10485761
    /\ observedBytes sampleRuntime oversized_response = 10485762
    /\ size r < Z.max (default 0 (declaredSize sampleRuntime oversized_response))
                   (observedBytes sampleRuntime oversized_response)
    /\ exists r',
         readResponseBytes sampleRuntime Cases.oversized_undeclared = Normal r'
         /\ truncated r' = true
         /\ size r' = 10485762.
Proof.
  assert (declaredSize sampleRuntime oversized_response = Some 10485761) as Hdecl
    by reflexivity.
  assert (observedBytes sampleRuntime oversized_response = 10485762) as Hobs.
  { unfold observedBytes. rewrite Hdecl.
    change (Fetch.body oversized_response) with (Some oversized_stream).
    replace (negb (10485761 =? 0) && (10485761 >? MAX_BODY_SIZE)) with true by reflexivity.
    change (Fetch.chunks oversized_stream) with [oversized_chunk].
    change (Fetch.failure oversized_stream) with (@None Thrown).
    rewrite readChunks_oversized. reflexivity. }
  destruct (readPartial_returns oversized_stream 10485761 eq_refl eq_refl) as [r Hr].
  assert (readResponseBytes sampleRuntime oversized_response = Normal r) as Hread.
  { unfold readResponseBytes. rewrite Hdecl.
    replace (negb (10485761 =? 0) && (10485761 >? MAX_BODY_SIZE)) with true by reflexivity.
    exact Hr. }
  destruct (readPartial_spec _ _ _ Hr) as (_ & Htrunc & Hsize).
  exists r. split; [exact Hread|]. split; [exact Htrunc|]. split; [exact Hsize|].
  split; [exact Hdecl|]. split; [exact Hobs|]. split.
  { rewrite Hdecl, Hobs, Hsize. cbn [default from_option id]. lia. }
  assert (declaredSize sampleRuntime Cases.oversized_undeclared = None) as Hnone
    by reflexivity.
  destruct (readResponseBytes_returns sampleRuntime Cases.oversized_undeclared)
    as [r' Hr'].
  { intros stream [= <-]. split; reflexivity. }
  exists r'. split; [exact Hr'|].
  destruct (read_full_only sampleRuntime Cases.oversized_undeclared r' Hnone Hr')
    as (Hsize' & Htrunc' & _).
  assert (byteLength (delivered Cases.oversized_undeclared) = 10485762) as Hlen.
  { unfold delivered. change (Fetch.body Cases.oversized_undeclared)
      with (Some oversized_stream).
    cbv beta iota. change (Fetch.chunks oversized_stream) with [oversized_chunk].
    cbn [concat]. rewrite app_nil_r, byteLength_oversized_chunk. reflexivity. }
  rewrite Hlen in Hsize', Htrunc'. split; [|exact Hsize'].
  rewrite Htrunc'. reflexivity.
Qed.

End BodyReader.

(** ** The proxy boundary *)

Section Boundary.

Import Schema Route.

Context (rt : Runtime).

Lemma parseMethod_Some v m :
  parseMethod v = Some m -> v = Some (JString (methodName m)).
Proof.
  unfold parseMethod. destruct v as [[]|]; try discriminate.
  intros Hfind. apply find_some in Hfind as [_ Heq].
  apply String.eqb_eq in Heq. by rewrite Heq.
Qed.

Lemma parseUrl_Some v u :
  parseUrl rt v = Some u -> v = Some (JString u) /\ urlParses rt u = true.
Proof.
  unfold parseUrl. destruct v as [[]|]; try discriminate.
  destruct (urlParses rt s) eqn:Hparses; [|discriminate].
  by intros [= ->].
Qed.

Lemma parseTimeout_Some v t :
  parseTimeout v = Some t ->
  (v = None /\ t = 30000)
  \/ (exists x, v = Some (JNumber x) /\ (x == inject_Z t)%Q /\ 0 <= t <= 300000).
Proof.
  unfold parseTimeout. destruct v as [[]|]; try discriminate.
  - destruct (isInteger x && Qle_bool 0 x && Qle_bool x 300000) eqn:Hok; [|discriminate].
    intros [= <-]. right. exists x. split; [done|].
    apply andb_prop in Hok as [Hok Hmax]. apply andb_prop in Hok as [Hint Hmin].
    apply Qeq_bool_iff in Hint. apply Qle_bool_iff in Hmin, Hmax.
    split; [by symmetry|].
    rewrite <- Hint in Hmin, Hmax.
    change 0%Q with (inject_Z 0) in Hmin. change 300000%Q with (inject_Z 300000) in Hmax.
    rewrite <- Zle_Qle in Hmin, Hmax. done.
  - intros [= <-]. by left.
Qed.

(** A malformed payload does not parse. *)
Lemma safeParse_rejects payload :
  bad_method payload \/ bad_url rt payload \/ bad_timeout payload ->
  exists details, safeParse rt payload = inl details /\ details <> [].
Proof.
  intros Hbad. unfold safeParse.
  destruct payload; try (by eexists; split; [reflexivity | discriminate]).
  set (payload := JObject fields) in *.
  destruct (parseMethod (field payload "method")) as [m|] eqn:Hm.
  2: { eexists. split; [reflexivity | discriminate]. }
  destruct (parseUrl rt (field payload "url")) as [u|] eqn:Hu.
  2: { eexists. split; [reflexivity | discriminate]. }
  destruct (parseTimeout (field payload "timeout")) as [t|] eqn:Ht.
  - exfalso. destruct Hbad as [Hbad | [Hbad | Hbad]].
    + apply parseMethod_Some in Hm. by apply (Hbad m).
    + apply parseUrl_Some in Hu as [Hfield Hparses].
      specialize (Hbad u Hfield). congruence.
    + unfold bad_timeout in Hbad.
      apply parseTimeout_Some in Ht as [[Hnone _] | (x & Hfield & Hx & Hrange)];
        rewrite ?Hnone, ?Hfield in Hbad; [done|].
      rewrite Hx in Hbad.
      change 0%Q with (inject_Z 0) in Hbad.
      change 300000%Q with (inject_Z 300000) in Hbad.
      rewrite <- !Zlt_Qlt in Hbad. lia.
  - destruct (parseHeaders (field payload "headers")), (parseBody (field payload "body"));
      eexists; (split; [reflexivity|]); cbn [issue app];
      intros Habs; apply (f_equal (@length _)) in Habs;
      rewrite ?length_app in Habs; cbn in Habs; lia.
Qed.

(** C5. A payload with a method outside the enumeration, a URL that the
    URL parser does not accept, or a timeout outside [0, 300000] is
    answered with status 400 and the error [validation_error]; the reply
    is not a ProxyResponse, and no outbound call was made. *)
Theorem malformed_payload_rejected (w : Proxy.World) (payload : Json) :
  bad_method payload \/ bad_url rt payload \/ bad_timeout payload ->
  exists details,
    post rt w (Normal payload)
    = ({| code := 400;
          Route.payload := ErrorBody "validation_error" "Invalid request body"
                             (Some details) |}, [])
    /\ details <> [].
Proof.
  intros Hbad. destruct (safeParse_rejects payload Hbad) as (details & Hparse & Hne).
  exists details. split; [|done].
  unfold post. by rewrite Hparse.
Qed.

End Boundary.

Lemma malformed_payload_rejected_witness :
  Route.bad_timeout Samples.late_payload
  /\ exists details,
       Route.post sampleRuntime Samples.sample_world (Normal Samples.late_payload)
       = ({| Route.code := 400;
             Route.payload := Route.ErrorBody "validation_error" "Invalid request body"
                                (Some details) |}, [])
       /\ details <> [].
Proof.
  assert (Route.bad_timeout Samples.late_payload) as Hbad
    by (vm_compute; right; reflexivity).
  split; [exact Hbad|].
  apply (malformed_payload_rejected sampleRuntime Samples.sample_world
           Samples.late_payload).
  right. right. exact Hbad.
Defined.

(** ** Request headers *)

Section RequestHeaders.

Import Headers.

Context (rt : Runtime).

Lemma headersToRecord_fold rows : headersToRecord rt rows = fold_left (step rt) rows ∅.
Proof. reflexivity. Qed.

Lemma set_prop_lookup_eq (record : gmap string string) k v :
  k <> "__proto__" -> set_prop record k v !! k = Some v.
Proof.
  intros Hk. unfold set_prop.
  destruct (String.eqb_spec k "__proto__"); [done|]. apply lookup_insert_eq.
Qed.

Lemma set_prop_lookup_ne (record : gmap string string) k k' v :
  k <> k' -> set_prop record k v !! k' = record !! k'.
Proof.
  intros Hk. unfold set_prop.
  destruct (String.eqb k "__proto__"); [done|]. by apply lookup_insert_ne.
Qed.

(** Where an entry of a record after one turn comes from. *)
Lemma step_lookup_Some record header k v :
  step rt record header !! k = Some v ->
  record !! k = Some v
  \/ (kept rt header = true /\ key header = k /\ value header = v).
Proof.
  unfold step. destruct (kept rt header); [|by left].
  unfold set_prop. destruct (String.eqb (key header) "__proto__"); [by left|].
  destruct (decide (key header = k)) as [<-|Hne].
  - rewrite lookup_insert_eq. intros [= <-]. by right.
  - rewrite lookup_insert_ne by done. by left.
Qed.

(** Rows that are skipped, or that have another key, leave a key alone. *)
Lemma fold_lookup_untouched rows : forall (record : gmap string string) k,
  (forall h, h ∈ rows -> kept rt h = true -> key h <> k) ->
  fold_left (step rt) rows record !! k = record !! k.
Proof.
  induction rows as [|header rows IH]; intros record k Hother; [done|].
  cbn [fold_left]. rewrite IH.
  - unfold step. destruct (kept rt header) eqn:Hkept; [|done].
    apply set_prop_lookup_ne. apply Hother; [left | done].
  - intros h Hin. apply Hother. by right.
Qed.

Lemma fold_lookup_Some rows : forall (record : gmap string string) k v,
  fold_left (step rt) rows record !! k = Some v ->
  record !! k = Some v
  \/ (exists h, h ∈ rows /\ kept rt h = true /\ key h = k /\ value h = v).
Proof.
  induction rows as [|header rows IH]; intros record k v Hlookup; [by left|].
  cbn [fold_left] in Hlookup. apply IH in Hlookup as [Hstep | (h & Hin & Hh)].
  - apply step_lookup_Some in Hstep as [Hrecord | Hheader]; [by left|].
    right. exists header. split; [left | done].
  - right. exists h. split; [by right | done].
Qed.

(** C9, amended. The record [headersToRecord] builds is keyed by the exact
    text of the keys: an entry is the value of the last kept row (enabled,
    key not blank) with exactly that key, every entry comes from a kept row
    with exactly that key, and so two rows whose keys differ, be it only in
    letter case, give two entries.  (The key [__proto__] is left aside.) *)
Theorem headersToRecord_exact_key_last_wins (rows : list Header) :
  (forall before h after,
     rows = before ++ h :: after ->
     kept rt h = true ->
     key h <> "__proto__" ->
     (forall h', h' ∈ after -> kept rt h' = true -> key h' <> key h) ->
     headersToRecord rt rows !! key h = Some (value h))
  /\ (forall k v,
        headersToRecord rt rows !! k = Some v ->
        exists h, h ∈ rows /\ kept rt h = true /\ key h = k /\ value h = v).
Proof.
  split.
  - intros before h after -> Hkept Hproto Hlast.
    rewrite headersToRecord_fold, fold_left_app. cbn [fold_left].
    rewrite fold_lookup_untouched by done.
    unfold step. rewrite Hkept. by apply set_prop_lookup_eq.
  - intros k v Hlookup. rewrite headersToRecord_fold in Hlookup.
    apply fold_lookup_Some in Hlookup as [Hempty | Hrow]; [|done].
    by rewrite lookup_empty in Hempty.
Qed.

End RequestHeaders.

Import Samples.

(** C9 as stated, refuted: the rows [Accept] and [accept] give two entries
    of the record, whose keys differ only in letter case. *)
Lemma headersToRecord_case_sensitive :
  ~ (forall (rt : Runtime) (rows : list Headers.Header) (k1 k2 : string),
       is_Some (Headers.headersToRecord rt rows !! k1) ->
       is_Some (Headers.headersToRecord rt rows !! k2) ->
       toLowerCase rt k1 = toLowerCase rt k2 ->
       k1 = k2).
Proof.
  intros Hclaim.
  specialize (Hclaim sampleRuntime mixed_case_rows "Accept" "accept").
  assert ("Accept" = "accept") as Heq; [|discriminate Heq].
  apply Hclaim; [by eexists | by eexists | reflexivity].
Qed.

Lemma headersToRecord_exact_key_last_wins_witness :
  Headers.headersToRecord sampleRuntime mixed_case_rows !! "accept"
  = Some "application/json".
Proof.
  apply (proj1 (headersToRecord_exact_key_last_wins sampleRuntime mixed_case_rows)
           [accept_upper] accept_lower []).
  - reflexivity.
  - reflexivity.
  - discriminate.
  - intros h' Hin. by apply elem_of_nil in Hin.
Defined.

(** ** The active environment *)

Section ActiveEnvironment.

Import Env.

(** The table after [setActiveEnvironment]: the same environments under
    the same keys, each with the flag [activated id k]. *)
Lemma setActiveEnvironment_lookup id (t : Table) k :
  snd (setActiveEnvironment id t) !! k = with_isActive (activated id k) <$> t !! k.
Proof.
  unfold setActiveEnvironment, transaction, seq, modify, activated.
  destruct id as [key|]; cbn [snd fst].
  - destruct (truthy key); cbn [andb].
    + unfold update, ret. rewrite lookup_fmap.
      destruct (t !! key) as [env|] eqn:Hkey; cbn [snd fmap option_fmap option_map].
      * destruct (String.eqb_spec key k) as [<-|Hne].
        -- rewrite lookup_insert_eq, Hkey. reflexivity.
        -- rewrite lookup_insert_ne by done. by rewrite lookup_fmap.
      * destruct (String.eqb_spec key k) as [<-|Hne].
        -- rewrite lookup_fmap, Hkey. reflexivity.
        -- by rewrite lookup_fmap.
    + unfold ret. cbn [snd]. by rewrite lookup_fmap.
  - unfold ret. cbn [snd]. by rewrite lookup_fmap.
Qed.

Lemma activated_true id k : activated id k = true -> id = Some k /\ k <> EmptyString.
Proof.
  unfold activated. destruct id as [key|]; [|discriminate].
  intros [Htruthy Heq]%andb_prop. apply String.eqb_eq in Heq as ->.
  split; [done|]. intros ->. discriminate.
Qed.

Lemma id_is_true id env : id_is id env = true -> id = Some (Env.id env).
Proof.
  unfold id_is. destruct id as [key|]; [|discriminate].
  intros Heq. apply String.eqb_eq in Heq. by rewrite Heq.
Qed.

Lemma filter_id_absent key (envs : list Environment) :
  key ∉ (Env.id <$> envs) -> List.filter (id_is (Some key)) envs = [].
Proof.
  induction envs as [|env envs IH]; intros Habsent; [done|].
  rewrite fmap_cons, not_elem_of_cons in Habsent. destruct Habsent as [Hne Habsent].
  cbn [List.filter id_is].
  destruct (String.eqb_spec (Env.id env) key); [congruence | by apply IH].
Qed.

(** In a list without two environments of the same id, at most one has a
    given id. *)
Lemma at_most_one_with_id id (envs : list Environment) :
  NoDup (Env.id <$> envs) ->
  (length (List.filter (id_is id) envs) <= 1)%nat.
Proof.
  induction envs as [|env envs IH]; intros Hnodup; [cbn; lia|].
  rewrite fmap_cons in Hnodup. apply NoDup_cons in Hnodup as [Hfresh Hnodup].
  cbn [List.filter].
  destruct (id_is id env) eqn:Hid; [|by apply IH].
  apply id_is_true in Hid as ->.
  rewrite filter_id_absent by done. cbn. lia.
Qed.

Lemma filter_isActive_map id (envs : list Environment) :
  List.filter isActive (List.map (fun env => with_isActive (id_is id env) env) envs)
  = List.map (with_isActive true) (List.filter (id_is id) envs).
Proof.
  induction envs as [|env envs IH]; [done|]. cbn [List.map List.filter].
  cbn [with_isActive isActive]. destruct (id_is id env); cbn [List.map]; by rewrite IH.
Qed.

(** C10. When the store's [setActiveEnvironment id] completes, the table
    is the one the transaction of [services/db] leaves: it holds the same
    environments, and at most one of them is active: an active one is
    stored under the id that was passed, the environment under that id is
    active when there is one (and the id is not empty), and after
    [setActiveEnvironment null] none is active, however many were active
    before.  The store's list follows: an active environment has the id
    passed, none is active for null, and at most one is active as long as
    no two environments of the list share an id. *)
Theorem setActiveEnvironment_one_active (dbFailure : option Thrown)
    (id : option string) (t t' : Table) (state state' : EnvironmentState) :
  store_setActiveEnvironment dbFailure id t state = (Normal tt, t', state') ->
  t' = snd (setActiveEnvironment id t)
  /\ dom t' = dom t
  /\ (forall k env, t' !! k = Some env -> isActive env = true -> id = Some k)
  /\ (forall k1 k2 env1 env2,
        t' !! k1 = Some env1 -> isActive env1 = true ->
        t' !! k2 = Some env2 -> isActive env2 = true -> k1 = k2)
  /\ (forall key, id = Some key -> key <> EmptyString -> is_Some (t !! key) ->
        exists env, t' !! key = Some env /\ isActive env = true)
  /\ (id = None -> forall k env, t' !! k = Some env -> isActive env = false)
  /\ (forall env, In env (environments state') -> isActive env = true ->
        id = Some (Env.id env))
  /\ (id = None -> forall env, In env (environments state') -> isActive env = false)
  /\ (NoDup (Env.id <$> environments state) ->
      (length (List.filter isActive (environments state')) <= 1)%nat).
Proof.
  unfold store_setActiveEnvironment.
  destruct dbFailure as [thrown|]; [discriminate|]. intros [= Ht' Hstate'].
  split; [done|]. symmetry in Ht', Hstate'.
  assert (forall k env, t' !! k = Some env -> isActive env = activated id k) as Hflag.
  { intros k env. rewrite Ht', setActiveEnvironment_lookup.
    destruct (t !! k); [|discriminate]. by intros [= <-]. }
  assert (forall k env, t' !! k = Some env -> isActive env = true -> id = Some k)
    as Hactive.
  { intros k env Hk Hact. rewrite (Hflag k env Hk) in Hact.
    by apply activated_true in Hact as [? _]. }
  repeat split.
  - apply set_eq. intros k. rewrite !elem_of_dom, Ht'.
    rewrite setActiveEnvironment_lookup. by rewrite fmap_is_Some.
  - exact Hactive.
  - intros k1 k2 env1 env2 H1 A1 H2 A2.
    pose proof (Hactive _ _ H1 A1). pose proof (Hactive _ _ H2 A2). congruence.
  - intros key -> Hkey [env Henv].
    rewrite Ht', setActiveEnvironment_lookup, Henv. eexists. split; [reflexivity|].
    cbn [isActive with_isActive activated]. rewrite String.eqb_refl, andb_true_r.
    unfold truthy. by destruct (String.eqb_spec key EmptyString).
  - intros -> k env Hk. by rewrite (Hflag k env Hk).
  - intros env Hin Hact. rewrite Hstate' in Hin.
    cbn [setActiveEnvironment_state environments] in Hin.
    apply in_map_iff in Hin as (env0 & <- & _). cbn [isActive with_isActive] in Hact.
    by apply id_is_true in Hact.
  - intros -> env Hin. rewrite Hstate' in Hin.
    cbn [setActiveEnvironment_state environments] in Hin.
    apply in_map_iff in Hin as (env0 & <- & _). reflexivity.
  - intros Hnodup. rewrite Hstate'. cbn [setActiveEnvironment_state environments].
    rewrite filter_isActive_map, length_map. by apply at_most_one_with_id.
Qed.

(** The list [loadEnvironments] puts in the store holds no two environments
    of the same id, the table being keyed by id. *)
Lemma getAllEnvironments_NoDup (t : Table) :
  (forall k env, t !! k = Some env -> Env.id env = k) ->
  NoDup (Env.id <$> fst (getAllEnvironments t)).
Proof.
  intros Hkeyed. unfold getAllEnvironments. cbn [fst].
  rewrite <- list_fmap_compose.
  rewrite (list_fmap_ext _ fst (map_to_list t) ).
  - apply NoDup_fst_map_to_list.
  - intros i [k env] Hi. cbn.
    apply Hkeyed. apply elem_of_map_to_list. by eapply list_elem_of_lookup_2.
Qed.

End ActiveEnvironment.

Lemma setActiveEnvironment_one_active_witness :
  Env.store_setActiveEnvironment None (Some "staging") Samples.sample_table
    Samples.sample_state
  = (Normal tt,
     snd (Env.setActiveEnvironment (Some "staging") Samples.sample_table),
     Env.setActiveEnvironment_state (Some "staging") Samples.sample_state)
  /\ NoDup (Env.id <$> Env.environments Samples.sample_state)
  /\ (length (List.filter Env.isActive
                (Env.environments
                   (Env.setActiveEnvironment_state (Some "staging")
                      Samples.sample_state))) <= 1)%nat
  /\ (forall k env,
        snd (Env.setActiveEnvironment (Some "staging") Samples.sample_table) !! k
        = Some env ->
        Env.isActive env = true -> Some "staging" = Some k).
Proof.
  split; [reflexivity|].
  assert (NoDup (Env.id <$> Env.environments Samples.sample_state)) as Hnodup
    by (apply (bool_decide_unpack _); vm_compute; exact I).
  split; [exact Hnodup|].
  pose proof (setActiveEnvironment_one_active None (Some "staging") Samples.sample_table
                _ Samples.sample_state _ eq_refl)
    as (_ & _ & Hactive & _ & _ & _ & _ & _ & Hone).
  split; [exact (Hone Hnodup) | exact Hactive].
Defined.

(** ** The Change Log *)

Section Log.

Import ChangeLog.

Lemma find_id_None key (log : list ChangeRecord) :
  List.find (fun r => String.eqb (id r) key) log = None <-> key ∉ (id <$> log).
Proof.
  induction log as [|r log IH]; cbn [List.find].
  - split; [intros _; apply not_elem_of_nil | done].
  - rewrite fmap_cons, not_elem_of_cons.
    destruct (String.eqb_spec (id r) key) as [Heq|Hne].
    + split; [discriminate | intros [Hne _]; congruence].
    + rewrite IH. split; [intros; split; [congruence | done] | tauto].
Qed.

Lemma with_id_absent key (log : list ChangeRecord) :
  key ∉ (id <$> log) -> with_id key log = [].
Proof.
  induction log as [|r log IH]; intros Habsent; [done|].
  rewrite fmap_cons, not_elem_of_cons in Habsent. destruct Habsent as [Hne Habsent].
  unfold with_id in *. cbn [List.filter].
  destruct (String.eqb_spec (id r) key); [congruence | by apply IH].
Qed.

(** In a log without two records of the same id, a stored record is the
    only one with its id. *)
Lemma with_id_stored (record : ChangeRecord) (log : list ChangeRecord) :
  NoDup (id <$> log) -> record ∈ log -> with_id (id record) log = [record].
Proof.
  induction log as [|r log IH]; intros Hnodup Hin; [by apply elem_of_nil in Hin|].
  rewrite fmap_cons in Hnodup. apply NoDup_cons in Hnodup as [Hfresh Hnodup].
  apply elem_of_cons in Hin as [<- | Hin].
  - unfold with_id. cbn [List.filter]. rewrite String.eqb_refl.
    f_equal. by apply with_id_absent.
  - unfold with_id. cbn [List.filter].
    destruct (String.eqb_spec (id r) (id record)) as [Heq|Hne].
    + exfalso. apply Hfresh. rewrite Heq. by apply list_elem_of_fmap_2.
    + by apply IH.
Qed.

(** What [append] does, case by case. *)
Lemma append_cases (record : ChangeRecord) (log : list ChangeRecord) :
  ((id record ∉ (id <$> log)) /\ append record log = (true, log ++ [record]))
  \/ (exists stored, stored ∈ log /\ id stored = id record
        /\ ((stored = record /\ append record log = (true, log))
            \/ (stored <> record /\ append record log = (false, log)))).
Proof.
  unfold append.
  destruct (List.find _ log) as [stored|] eqn:Hfind.
  - right. exists stored. apply find_some in Hfind as [Hin Heq].
    apply list_elem_of_In in Hin. apply String.eqb_eq in Heq.
    split; [done|]. split; [done|].
    destruct (bool_decide_reflect (stored = record)); [left | right]; done.
  - left. by apply find_id_None in Hfind.
Qed.

(** C6. In a Change Log that holds no two records of the same id and no
    record that has the id of [record] with another content, appending
    [record] twice reports success both times, the second append changes
    nothing, and the log then holds [record] exactly once under its id.
    [append] fails only when the log holds a record of the same id with
    another content, and then leaves the log as it is. *)
Theorem append_twice_once (record : ChangeRecord) (log : list ChangeRecord) :
  NoDup (id <$> log) ->
  (forall stored, stored ∈ log -> id stored = id record -> stored = record) ->
  let first := append record log in
  let second := append record (snd first) in
  fst first = true /\ fst second = true
  /\ snd second = snd first
  /\ with_id (id record) (snd second) = [record]
  /\ NoDup (id <$> snd second)
  /\ (forall anyRecord anyLog,
        fst (append anyRecord anyLog) = false ->
        snd (append anyRecord anyLog) = anyLog
        /\ exists stored, stored ∈ anyLog /\ id stored = id anyRecord
                          /\ stored <> anyRecord).
Proof.
  intros Hnodup Hsame first second.
  assert (fst first = true /\ record ∈ snd first /\ NoDup (id <$> snd first))
    as (Hfirst & Hin & Hnodup1).
  { unfold first.
    destruct (append_cases record log)
      as [[Hfresh ->] | (stored & Hstored & Hid & [[-> ->] | [Hne _]])]; cbn [fst snd].
    - split; [done|]. split; [apply elem_of_app; right; by left|].
      rewrite fmap_app. apply NoDup_app. split; [done|].
      split; [|apply NoDup_singleton].
      intros key Hkey [->|[]%elem_of_nil]%elem_of_cons. done.
    - done.
    - destruct Hne. by apply Hsame. }
  assert (second = (true, snd first)) as Hsecond.
  { unfold second.
    destruct (append_cases record (snd first))
      as [[Hfresh _] | (stored & Hstored & Hid & [[_ ->] | [Hne _]])].
    - destruct Hfresh. by apply list_elem_of_fmap_2.
    - done.
    - destruct Hne.
      pose proof (with_id_stored record _ Hnodup1 Hin) as Honly.
      assert (stored ∈ with_id (id record) (snd first)) as Hmem.
      { unfold with_id. apply list_elem_of_In, filter_In.
        split; [by apply list_elem_of_In | by apply String.eqb_eq]. }
      rewrite Honly in Hmem. by apply list_elem_of_singleton in Hmem. }
  rewrite Hsecond. cbn [fst snd]. repeat split; try done.
  - by apply with_id_stored.
  - destruct (append_cases anyRecord anyLog)
      as [[_ Heq] | (stored & _ & _ & [[_ Heq] | [_ Heq]])];
      rewrite Heq in *; done.
  - destruct (append_cases anyRecord anyLog)
      as [[_ Heq] | (stored & Hstored & Hid & [[_ Heq] | [Hne Heq]])];
      rewrite Heq in *; try done. eauto.
Qed.

End Log.

Lemma append_twice_once_witness :
  NoDup (ChangeLog.id <$> Samples.sample_log)
  /\ fst (ChangeLog.append Samples.sample_change Samples.sample_log) = true
  /\ fst (ChangeLog.append Samples.sample_change
            (snd (ChangeLog.append Samples.sample_change Samples.sample_log))) = true
  /\ ChangeLog.with_id (ChangeLog.id Samples.sample_change)
       (snd (ChangeLog.append Samples.sample_change
               (snd (ChangeLog.append Samples.sample_change Samples.sample_log))))
     = [Samples.sample_change].
Proof.
  assert (NoDup (ChangeLog.id <$> Samples.sample_log)) as Hnodup
    by (apply (bool_decide_unpack _); vm_compute; exact I).
  split; [exact Hnodup|].
  assert (forall stored, stored ∈ Samples.sample_log ->
            ChangeLog.id stored = ChangeLog.id Samples.sample_change ->
            stored = Samples.sample_change) as Hsame.
  { intros stored Hin Hid. apply list_elem_of_singleton in Hin. subst stored.
    discriminate Hid. }
  pose proof (append_twice_once Samples.sample_change Samples.sample_log Hnodup Hsame)
    as (Hfirst & Hsecond & _ & Honce & _).
  split; [exact Hfirst|]. split; [exact Hsecond | exact Honce].
Defined.

(** * More properties *)

(** ** The body reader, whatever the flag *)

Section BodyReaderMore.

Import Proxy.

(** The read loop stops at the first chunk that reaches the cap: what the
    stream holds after it, and whether it fails later, is not looked at. *)
Lemma readChunks_stops pre : forall post failure acc total,
  MAX_BODY_SIZE <= total + byteLength (concat pre) ->
  readChunks (pre ++ post) failure acc total = readChunks pre None acc total.
Proof.
  induction pre as [|value pre IH]; intros post failure acc total Hcap.
  - change (byteLength (concat [])) with 0 in Hcap. cbn [app].
    destruct post; cbn [readChunks];
      (destruct (total <? MAX_BODY_SIZE) eqn:Hlt; [lia | done]).
  - cbn [app readChunks]. destruct (total <? MAX_BODY_SIZE); [|done].
    apply IH. cbn [concat] in Hcap. rewrite byteLength_app in Hcap. lia.
Qed.

Section WithRuntime.

Context (rt : Runtime).

(** The three ways in which [readResponseBody] returns. *)
Lemma read_cases response r :
  readResponseBytes rt response = Normal r ->
  (exists declared stream,
      declaredSize rt response = Some declared /\ MAX_BODY_SIZE < declared
      /\ Fetch.body response = Some stream /\ readPartial stream declared = Normal r)
  \/ (exists declared,
        declaredSize rt response = Some declared /\ MAX_BODY_SIZE < declared
        /\ Fetch.body response = None
        /\ r = {| body := []; truncated := false; size := 0 |})
  \/ ((forall declared, declaredSize rt response = Some declared ->
                        declared <= MAX_BODY_SIZE)
      /\ readFull response = Normal r).
Proof.
  unfold readResponseBytes. intros Hread.
  pose proof MAX_BODY_SIZE_pos as Hmax.
  destruct (declaredSize rt response) as [declared|] eqn:Hdeclared.
  - destruct (negb (declared =? 0) && (declared >? MAX_BODY_SIZE)) eqn:Hover.
    + destruct (Fetch.body response) as [stream|] eqn:Hbody.
      * left. exists declared, stream. repeat split; [lia | done].
      * right. left. exists declared. injection Hread as <-. repeat split. lia.
    + right. right. split; [|done]. intros ? [= <-]. lia.
  - right. right. split; [|done]. discriminate.
Qed.

(** X1. Whatever [readResponseBody] returns, the bytes it decodes are the
    first [MAX_BODY_SIZE] bytes of what the stream delivers (all of them
    when there are fewer): never more than the cap, and never more than
    the size reported. *)
Theorem body_is_capped_stream_prefix (response : Fetch.Response)
    (r : Read (list Byte.byte)) :
  readResponseBytes rt response = Normal r ->
  body r = subarray (delivered response) 0 MAX_BODY_SIZE
  /\ byteLength (body r) <= MAX_BODY_SIZE
  /\ byteLength (body r) <= size r.
Proof.
  intros Hread. pose proof MAX_BODY_SIZE_pos as Hmax.
  assert (body r = subarray (delivered response) 0 MAX_BODY_SIZE
          /\ Z.min (byteLength (delivered response)) MAX_BODY_SIZE <= size r)
    as [Hbody Hsize].
  { destruct (read_cases _ _ Hread)
      as [(declared & stream & _ & Hover & Hstream & Hpartial)
         | [(declared & _ & _ & Hnone & ->) | (_ & Hfull)]].
    - destruct (readPartial_spec _ _ _ Hpartial) as (Hb & _ & Hs).
      unfold delivered. rewrite Hstream. split; [done | lia].
    - unfold delivered. rewrite Hnone. split; [reflexivity|].
      cbn [size]. change (byteLength []) with 0. lia.
    - destruct (readFull_spec _ _ Hfull) as (Hs & _ & Hb). split; [done | lia]. }
  assert (byteLength (body r)
          = Z.min (byteLength (delivered response)) MAX_BODY_SIZE) as Hlen.
  { rewrite Hbody, subarray_prefix by lia. rewrite byteLength_take by lia. lia. }
  split; [done|]. lia.
Qed.

(** X2. A body that is not flagged as truncated is the whole stream, and
    the size reported is its length, which does not exceed the cap. *)
Theorem untruncated_body_is_whole_stream (response : Fetch.Response)
    (r : Read (list Byte.byte)) :
  readResponseBytes rt response = Normal r ->
  truncated r = false ->
  body r = delivered response
  /\ size r = byteLength (body r)
  /\ size r <= MAX_BODY_SIZE.
Proof.
  intros Hread Hflag. pose proof MAX_BODY_SIZE_pos as Hmax.
  destruct (read_cases _ _ Hread)
    as [(declared & stream & _ & _ & _ & Hpartial)
       | [(declared & _ & _ & Hnone & ->) | (_ & Hfull)]].
  - destruct (readPartial_spec _ _ _ Hpartial) as (_ & Ht & _). congruence.
  - unfold delivered. rewrite Hnone. cbn [body size].
    change (byteLength []) with 0. repeat split. lia.
  - destruct (readFull_spec _ _ Hfull) as (Hs & Ht & Hb).
    rewrite Hflag in Ht.
    assert (byteLength (delivered response) <= MAX_BODY_SIZE) as Hsmall by lia.
    assert (body r = delivered response) as Hwhole.
    { rewrite Hb, subarray_prefix by lia. apply take_ge.
      unfold byteLength in Hsmall. lia. }
    rewrite Hwhole. split; [done|]. split; [done | lia].
Qed.

(** X3. [readResponseBody] flags the body as truncated exactly when the
    stream delivers more than the cap, or when the declared content length
    is over the cap and the response has a body: a stream longer than the
    cap is always flagged. *)
Theorem truncated_flag_iff (response : Fetch.Response) (r : Read (list Byte.byte)) :
  readResponseBytes rt response = Normal r ->
  (truncated r = true <->
   MAX_BODY_SIZE < byteLength (delivered response)
   \/ (exists declared stream,
         declaredSize rt response = Some declared /\ MAX_BODY_SIZE < declared
         /\ Fetch.body response = Some stream)).
Proof.
  intros Hread. pose proof MAX_BODY_SIZE_pos as Hmax.
  destruct (read_cases _ _ Hread)
    as [(declared & stream & Hdecl & Hover & Hstream & Hpartial)
       | [(declared & Hdecl & Hover & Hnone & ->) | (Hsmall & Hfull)]].
  - destruct (readPartial_spec _ _ _ Hpartial) as (_ & -> & _).
    split; [|done]. intros _. right. eauto.
  - cbn [truncated]. split; [discriminate|].
    unfold delivered. rewrite Hnone. change (byteLength []) with 0.
    intros [Hlong | (d & stream & _ & _ & Habs)]; [lia | discriminate].
  - destruct (readFull_spec _ _ Hfull) as (_ & -> & _). split.
    + intros Hgt. left. lia.
    + intros [Hlong | (d & stream & Hdecl & Hover & _)]; [lia|].
      specialize (Hsmall d Hdecl). lia.
Qed.

End WithRuntime.

(** X4. Once the chunks read so far reach the cap, the partial read is
    over: the chunks that follow, and a failure of the stream after them,
    change nothing to what is returned. *)
Theorem partial_read_ignores_what_follows_the_cap
    (pre post : list (list Byte.byte)) (failure cancelled : option Thrown)
    (declared : Z) :
  MAX_BODY_SIZE <= byteLength (concat pre) ->
  readPartial {| Fetch.chunks := pre ++ post; Fetch.failure := failure;
                 Fetch.cancel_failure := cancelled |} declared
  = readPartial {| Fetch.chunks := pre; Fetch.failure := None;
                   Fetch.cancel_failure := cancelled |} declared.
Proof.
  intros Hcap. unfold readPartial, cancel.
  cbn [Fetch.chunks Fetch.failure Fetch.cancel_failure].
  rewrite readChunks_stops by lia. reflexivity.
Qed.

End BodyReaderMore.



(** ** The timings of the engine *)

Section Timing.

Import Schema Proxy.

Lemma Qfloor_lower (x : Q) (n : Z) : (inject_Z n <= x)%Q -> n <= Qfloor x.
Proof. intros H. rewrite <- (Qfloor_Z n). by apply Qfloor_resp_le. Qed.

Lemma Qfloor_upper (x : Q) (n : Z) : (x < inject_Z n)%Q -> Qfloor x < n.
Proof.
  intros H. rewrite Zlt_Qlt. eapply Qle_lt_trans; [apply Qfloor_le | done].
Qed.

(** [Math.round] of a number that is not negative is not negative. *)
Lemma Math_round_nonneg (x : Q) : (0 <= x)%Q -> 0 <= Math_round x.
Proof.
  intros Hx. unfold Math_round. apply Qfloor_lower.
  apply Qle_trans with x; [done|].
  rewrite <- (Qplus_0_r x) at 1. apply Qplus_le_r. done.
Qed.

(** Rounding two parts and their sum: the rounded parts add up to the
    rounded sum, give or take one. *)
Lemma Math_round_plus (x y : Q) :
  Math_round (x + y) - 1 <= Math_round x + Math_round y <= Math_round (x + y) + 1.
Proof.
  unfold Math_round.
  pose proof (Qfloor_le (x + (1 # 2))) as Hx1. pose proof (Qlt_floor (x + (1 # 2))) as Hx2.
  pose proof (Qfloor_le (y + (1 # 2))) as Hy1. pose proof (Qlt_floor (y + (1 # 2))) as Hy2.
  set (fx := Qfloor (x + (1 # 2))) in *. set (fy := Qfloor (y + (1 # 2))) in *.
  rewrite inject_Z_plus in Hx2, Hy2.
  split.
  - assert (Qfloor (x + y + (1 # 2)) < fx + fy + 2); [|lia].
    apply Qfloor_upper. rewrite !inject_Z_plus.
    change (inject_Z 2) with (2 # 1)%Q. change (inject_Z 1) with 1%Q in *.
    lra.
  - assert (fx + fy - 1 <= Qfloor (x + y + (1 # 2))); [|lia].
    apply Qfloor_lower. unfold Z.sub. rewrite !inject_Z_plus, inject_Z_opp.
    change (inject_Z 1) with 1%Q in *.
    lra.
Qed.

Context (rt : Runtime).

(** X5. With a clock that does not run backwards, every timing of the
    result is a non-negative number of milliseconds.  After a success the
    time to first byte and the download time add up to the total, give or
    take one millisecond of rounding; after a failure there is no download
    time, and no time to first byte either when it is the fetch that
    failed. *)
Theorem timing_nonnegative (w : World) (request : Req.ProxyRequest) :
  (now w 0 <= now w 1)%Q ->
  (now w 1 <= now w 2)%Q ->
  exists r,
    executeProxyRequest rt w request = Normal r
    /\ 0 <= total (Res.timing r)
    /\ (forall t, firstByte (Res.timing r) = Some t -> 0 <= t)
    /\ (forall t, download (Res.timing r) = Some t -> 0 <= t)
    /\ (Res.error r = None ->
        exists t d, firstByte (Res.timing r) = Some t
                    /\ download (Res.timing r) = Some d
                    /\ total (Res.timing r) - 1 <= t + d <= total (Res.timing r) + 1)
    /\ (Res.error r <> None -> download (Res.timing r) = None)
    /\ (forall e, fetch w (Req.url request) (fetchOptions request) = Throw e ->
        firstByte (Res.timing r) = None).
Proof.
  intros H01 H12.
  assert (0 <= now w 1 - now w 0)%Q as Hfirst by lra.
  assert (0 <= now w 2 - now w 1)%Q as Hdownload by lra.
  assert (0 <= now w 2 - now w 0)%Q as Htotal by lra.
  unfold executeProxyRequest, tryBlock.
  destruct (fetch w (Req.url request) (fetchOptions request)) as [response|e];
    [destruct (readResponseBody rt response) as [read|e]|];
    cbn [completion try_catch readings firstByteTime];
    (eexists; split; [reflexivity|]);
    cbn [Res.timing Res.error total firstByte download firstByte_in_catch];
    repeat split; try discriminate; try done;
    try (by apply Math_round_nonneg);
    try (intros t [= <-]; by apply Math_round_nonneg).
  - intros _. eexists _, _. split; [reflexivity|]. split; [reflexivity|].
    assert (Math_round (now w 2 - now w 0)
            = Math_round ((now w 1 - now w 0) + (now w 2 - now w 1))) as ->.
    { unfold Math_round. apply Qfloor_comp. ring. }
    apply Math_round_plus.
  - intros t. destruct (Qeq_bool (now w 1) 0); [discriminate|].
    intros [= <-]. by apply Math_round_nonneg.
Qed.

End Timing.

(** ** The order of the classifier *)

Section ClassifierOrder.

Import Schema Proxy Labels.

Context (rt : Runtime).

Ltac split_includes :=
  repeat match goal with
    | |- context [includes ?m ?k] => destruct (includes m k); cbn [orb negb]
    end.

(** X6. [categorizeError] tries the cancellation marker first and then the
    keyword groups in their order (timeout, dns, ssl, network): the first
    group with a keyword in the lower-cased message decides the type, so a
    message with keywords of several groups goes to the earliest.  A
    timeout gets the fixed message; the other types keep the original
    message after their label. *)
Theorem categorizeError_first_group_wins (name msg : string) :
  categorizeError rt (JsError name msg)
  = if String.eqb name "AbortError" then
      {| type := timeout; message := "Request timed out" |}
    else
      match List.find (fun group => existsb (includes (toLowerCase rt msg)) (snd group))
              keywordGroups with
      | Some (timeout, _) => {| type := timeout; message := "Request timed out" |}
      | Some (t, _) => {| type := t; message := label t +:+ msg |}
      | None => {| type := unknown; message := msg |}
      end.
Proof.
  cbn [categorizeError]. cbv zeta.
  destruct (String.eqb name "AbortError"); cbn [orb]; [reflexivity|].
  unfold keywordGroups. cbn [List.find existsb snd].
  split_includes; reflexivity.
Qed.

End ClassifierOrder.

(** ** Requests on the wire *)

Section Validation.

Import Schema Route.

Context (rt : Runtime).

Lemma parseRecord_encode (entries : list (string * string)) :
  parseRecord ((fun entry => (fst entry, JString (snd entry))) <$> entries)
  = Some (Wire.parsedRecord (list_to_map entries)).
Proof.
  unfold Wire.parsedRecord.
  induction entries as [|[k v] entries IH].
  { change (Some (∅ : gmap string string) = Some (delete "__proto__" ∅)).
    by rewrite delete_empty. }
  cbn [fmap list_fmap parseRecord fst snd]. cbn [fmap list_fmap] in IH.
  rewrite IH. cbn [fmap option_fmap option_map]. f_equal.
  change (list_to_map ((k, v) :: entries))
    with (<[k:=v]> (list_to_map entries : gmap string string)).
  destruct (String.eqb_spec k "__proto__") as [->|Hne].
  - by rewrite delete_insert_eq.
  - by rewrite delete_insert_ne.
Qed.

(** What [z.record] makes of a record sent as JSON: the record without the
    key [__proto__], so the record itself when it has no such key. *)
Lemma parseRecord_encodeRecord (record : gmap string string) fields :
  Wire.encodeRecord record = JObject fields ->
  parseRecord fields = Some (Wire.parsedRecord record).
Proof.
  unfold Wire.encodeRecord. intros [= <-].
  rewrite parseRecord_encode. by rewrite list_to_map_to_list.
Qed.

Lemma parsedRecord_same (record : gmap string string) :
  record !! "__proto__" = None -> Wire.parsedRecord record = record.
Proof. apply delete_id. Qed.

Lemma isInteger_inject_Z n : isInteger (inject_Z n) = true.
Proof. unfold isInteger. rewrite Qfloor_Z. apply Qeq_bool_iff. reflexivity. Qed.

Lemma Qle_bool_inject_Z a b : Qle_bool (inject_Z a) (inject_Z b) = (a <=? b).
Proof.
  apply eq_true_iff_eq. rewrite Qle_bool_iff, <- Zle_Qle. symmetry. apply Z.leb_le.
Qed.

Lemma parseTimeout_inject_Z t :
  0 <= t <= 300000 -> parseTimeout (Some (JNumber (inject_Z t))) = Some t.
Proof.
  intros Ht. cbn [parseTimeout]. rewrite isInteger_inject_Z.
  change 0%Q with (inject_Z 0). change 300000%Q with (inject_Z 300000).
  rewrite !Qle_bool_inject_Z, Qfloor_Z.
  destruct (Z.leb_spec 0 t), (Z.leb_spec t 300000); (done || lia).
Qed.

Lemma parseMethod_methodName m : parseMethod (Some (JString (methodName m))) = Some m.
Proof. by destruct m. Qed.

(** What [api.proxy] posts for a valid request parses back to it, as far
    as [z.record] keeps its headers. *)
Lemma safeParse_encodeRequest (request : Req.ProxyRequest) :
  urlParses rt (Req.url request) = true ->
  0 <= Req.timeout request <= 300000 ->
  safeParse rt (Wire.encodeRequest request) = inr (Wire.parsedRequest request).
Proof.
  intros Hurl Htimeout. destruct request as [m u h b t].
  cbn [Req.url Req.timeout] in *.
  unfold safeParse, Wire.encodeRequest, Wire.parsedRequest.
  cbn [field List.find fst snd String.eqb Ascii.eqb Bool.eqb fmap option_fmap option_map
       Req.method Req.url Req.headers Req.body Req.timeout].
  rewrite parseMethod_methodName, parseTimeout_inject_Z by done.
  cbn [parseUrl]. rewrite Hurl.
  unfold parseHeaders, Wire.encodeRecord. rewrite parseRecord_encode, list_to_map_to_list.
  by destruct b.
Qed.

(** X7. The body the client posts for a request is accepted by
    [ProxyRequestSchema], whenever the URL is one the URL parser accepts
    and the timeout is an integer of [0, 300000], and parsed back to the
    request with one change: zod's record leaves out a header named
    [__proto__].  A request without such a header is parsed back to that
    very request: nothing is lost or changed on the way. *)
Theorem request_round_trip (request : Req.ProxyRequest) :
  urlParses rt (Req.url request) = true ->
  0 <= Req.timeout request <= 300000 ->
  (exists parsed,
     safeParse rt (Wire.encodeRequest request) = inr parsed
     /\ Req.method parsed = Req.method request
     /\ Req.url parsed = Req.url request
     /\ Req.body parsed = Req.body request
     /\ Req.timeout parsed = Req.timeout request
     /\ Req.headers parsed !! "__proto__" = None
     /\ forall key, key <> "__proto__" ->
                    Req.headers parsed !! key = Req.headers request !! key)
  /\ (Req.headers request !! "__proto__" = None ->
      safeParse rt (Wire.encodeRequest request) = inr request).
Proof.
  intros Hurl Htimeout. rewrite (safeParse_encodeRequest request Hurl Htimeout). split.
  - eexists. split; [reflexivity|].
    cbn [Wire.parsedRequest Req.method Req.url Req.body Req.timeout Req.headers].
    repeat (split; [reflexivity|]). unfold Wire.parsedRecord. split.
    + apply lookup_delete_eq.
    + intros key Hkey. by rewrite lookup_delete_ne.
  - intros Hnone. unfold Wire.parsedRequest. rewrite parsedRecord_same by done.
    by destruct request.
Qed.

End Validation.

Section ValidationMore.

Import Schema Route.

Context (rt : Runtime).

(** X8. A request that [ProxyRequestSchema] lets through is what the
    payload says: its method and URL are the payload's strings, the URL is
    one the URL parser accepts, the timeout is within [0, 300000], a
    missing timeout is 30000, missing headers are the empty record, and the
    body is null exactly when the payload has none or a null one. *)
Theorem safeParse_sound (payload : Json) (request : Req.ProxyRequest) :
  safeParse rt payload = inr request ->
  field payload "method" = Some (JString (methodName (Req.method request)))
  /\ field payload "url" = Some (JString (Req.url request))
  /\ urlParses rt (Req.url request) = true
  /\ 0 <= Req.timeout request <= 300000
  /\ (field payload "timeout" = None -> Req.timeout request = 30000)
  /\ (field payload "headers" = None -> Req.headers request = ∅)
  /\ (Req.body request = None
      <-> field payload "body" = None \/ field payload "body" = Some JNull).
Proof.
  unfold safeParse. destruct payload; try discriminate.
  set (payload := JObject fields).
  destruct (parseMethod (field payload "method")) as [m|] eqn:Hm; [|discriminate].
  destruct (parseUrl rt (field payload "url")) as [u|] eqn:Hu; [|discriminate].
  destruct (parseHeaders (field payload "headers")) as [h|] eqn:Hh;
    [|destruct (parseBody _); discriminate].
  destruct (parseBody (field payload "body")) as [b|] eqn:Hb; [|discriminate].
  destruct (parseTimeout (field payload "timeout")) as [t|] eqn:Ht; [|discriminate].
  intros [= <-]. cbn [Req.method Req.url Req.headers Req.body Req.timeout].
  apply parseMethod_Some in Hm. apply parseUrl_Some in Hu as [Hu Hparses].
  split; [done|]. split; [done|]. split; [done|].
  split; [|split; [|split]].
  - apply parseTimeout_Some in Ht as [[_ ->] | (x & _ & _ & Hrange)]; lia.
  - intros Hnone. rewrite Hnone in Ht. by injection Ht as <-.
  - intros Hnone. rewrite Hnone in Hh. by injection Hh as <-.
  - unfold parseBody in Hb.
    destruct (field payload "body") as [[]|]; try discriminate;
      injection Hb as <-; split; auto; try discriminate.
    intros [|]; discriminate.
Qed.

(** X9. The handler of POST /api/proxy answers 500 only when the body is
    not JSON, and otherwise 200 exactly when the payload validates: a
    payload that validates gets the result of the engine with status 200
    even when the outbound call failed, after exactly one outbound call to
    the validated URL; a payload that does not gets 400 and no outbound
    call. *)
Theorem post_status_codes (w : Proxy.World) (parsed : Completion Json) :
  match parsed with
  | Throw e => post rt w parsed = (proxy_error e, [])
  | Normal payload =>
      match safeParse rt payload with
      | inr request =>
          exists response,
            Proxy.executeProxyRequest rt w request = Normal response
            /\ post rt w parsed
               = ({| code := 200; payload := ResultBody response |},
                  [(Req.url request, Proxy.fetchOptions request)])
      | inl details =>
          post rt w parsed
          = ({| code := 400;
                payload := ErrorBody "validation_error" "Invalid request body"
                             (Some details) |}, [])
      end
  end.
Proof.
  destruct parsed as [payload|e]; [|reflexivity].
  cbn [post]. destruct (safeParse rt payload) as [details|request]; [reflexivity|].
  unfold Proxy.outboundCalls. rewrite tryBlock_calls.
  destruct (fails_or_succeeds rt w request) as [[e Hfails] | (response & r & Hfetch & Hread)].
  - destruct (executeProxyRequest_failed rt w request e Hfails) as [timing ->]. eauto.
  - destruct (tryBlock_succeeds rt w request (Proxy.now w 0) response r Hfetch Hread)
      as [timing Hcompl].
    unfold Proxy.executeProxyRequest. rewrite Hcompl. cbn [try_catch]. eauto.
Qed.

End ValidationMore.

(** ** Responses on the wire *)

Section ClientSide.

Import Schema Route.

Lemma field_optionalNumber_other key key' value rest :
  key <> key' ->
  field (JObject (Wire.optionalNumber key value ++ rest)) key' = field (JObject rest) key'.
Proof.
  intros Hne. destruct value as [n|]; [|done].
  cbn [Wire.optionalNumber app field List.find fst].
  by apply String.eqb_neq in Hne as ->.
Qed.

Lemma parseNonnegative_inject_Z n :
  Client.parseNonnegative (Some (JNumber (inject_Z n)))
  = if 0 <=? n then Some (Client.ofZ n) else None.
Proof.
  unfold Client.parseNonnegative, Client.parseNumber, Client.nonnegative, Client.ofZ.
  change 0%Q with (inject_Z 0). by rewrite Qle_bool_inject_Z.
Qed.

Lemma parseInt_inject_Z n : Client.parseInt (Some (JNumber (inject_Z n))) = Some n.
Proof. unfold Client.parseInt. by rewrite isInteger_inject_Z, Qfloor_Z. Qed.

Lemma parseTiming_encodeTiming timing :
  Client.parseTiming (Some (Wire.encodeTiming timing))
  = if Wire.nonnegative_timing timing then
      Some {| Client.total := Client.ofZ (total timing);
              Client.dns := None; Client.connect := None; Client.tls := None;
              Client.firstByte := Client.ofZ <$> firstByte timing;
              Client.download := Client.ofZ <$> download timing |}
    else None.
Proof.
  destruct timing as [t [f|] [d|]]; unfold Wire.nonnegative_timing, Wire.encodeTiming;
    cbn [total firstByte download Wire.optionalNumber app from_option
         Client.parseTiming field List.find fst snd String.eqb Ascii.eqb Bool.eqb
         fmap option_fmap option_map Client.optional];
    rewrite ?parseNonnegative_inject_Z;
    repeat match goal with |- context [0 <=? ?n] => destruct (0 <=? n) end;
    reflexivity.
Qed.

Lemma parseErrorType_errorTypeName t :
  Client.parseErrorType (Some (JString (Wire.errorTypeName t))) = Some t.
Proof. by destruct t. Qed.

Lemma parseError_encodeError error :
  Client.parseError (Some (Wire.encodeError error)) = Some error.
Proof.
  destruct error as [[t m]|]; [|done].
  unfold Wire.encodeError, Client.parseError.
  cbn [field List.find fst snd String.eqb Ascii.eqb Bool.eqb fmap option_fmap option_map
       type message].
  by rewrite parseErrorType_errorTypeName.
Qed.

Lemma safeParse_encodeResponse (r : Res.ProxyResponse) :
  Client.safeParse (Wire.encodeResponse r)
  = if (0 <=? Res.size r) && Wire.nonnegative_timing (Res.timing r)
    then Some (Client.received r) else None.
Proof.
  unfold Client.safeParse, Wire.encodeResponse.
  cbn [field List.find fst snd String.eqb Ascii.eqb Bool.eqb fmap option_fmap option_map
       Client.parseString Client.parseBoolean Client.parseStringRecord].
  rewrite parseInt_inject_Z, parseTiming_encodeTiming, parseError_encodeError.
  unfold Wire.encodeRecord. rewrite parseRecord_encode, list_to_map_to_list.
  unfold Client.parseNonnegativeInt. rewrite parseInt_inject_Z.
  destruct (0 <=? Res.size r), (Wire.nonnegative_timing (Res.timing r)); reflexivity.
Qed.

(** X10. What the proxy sends for a response reads back on the client as
    the same response, provided the size and the timings are not negative,
    with one change: zod's record leaves out a header named [__proto__],
    so the headers read are the headers sent without that key, and the
    response read is field for field the one sent when it has no such
    header.  With a negative size or timing the client's schema turns the
    response down. *)
Theorem response_round_trip (r : Res.ProxyResponse) :
  (0 <= Res.size r -> 0 <= total (Res.timing r) ->
   (forall t, firstByte (Res.timing r) = Some t -> 0 <= t) ->
   (forall t, download (Res.timing r) = Some t -> 0 <= t) ->
   exists read,
     Client.safeParse (Wire.encodeResponse r) = Some read
     /\ Client.status read = Res.status r
     /\ Client.statusText read = Res.statusText r
     /\ Client.body read = Res.body r
     /\ Client.bodyTruncated read = Res.bodyTruncated r
     /\ Client.size read = Res.size r
     /\ Client.error read = Res.error r
     /\ Client.total (Client.timing read) = Client.ofZ (total (Res.timing r))
     /\ Client.firstByte (Client.timing read) = Client.ofZ <$> firstByte (Res.timing r)
     /\ Client.download (Client.timing read) = Client.ofZ <$> download (Res.timing r)
     /\ Client.headers read !! "__proto__" = None
     /\ (forall key, key <> "__proto__" ->
                     Client.headers read !! key = Res.headers r !! key)
     /\ (Res.headers r !! "__proto__" = None -> Client.headers read = Res.headers r))
  /\ (Res.size r < 0 \/ total (Res.timing r) < 0
      \/ (exists t, firstByte (Res.timing r) = Some t /\ t < 0)
      \/ (exists t, download (Res.timing r) = Some t /\ t < 0) ->
      Client.safeParse (Wire.encodeResponse r) = None).
Proof.
  rewrite safeParse_encodeResponse. unfold Wire.nonnegative_timing.
  destruct (Res.timing r) as [t f d] eqn:Htiming. cbn [total firstByte download].
  split.
  - intros Hsize Htotal Hfirst Hdownload.
    assert ((0 <=? Res.size r)
            && ((0 <=? t) && from_option (Z.leb 0) true f && from_option (Z.leb 0) true d)
            = true) as ->.
    { destruct (Z.leb_spec 0 (Res.size r)); [|lia].
      destruct (Z.leb_spec 0 t); [|lia].
      destruct f as [f|], d as [d|]; cbn [from_option andb];
        try specialize (Hfirst f eq_refl); try specialize (Hdownload d eq_refl);
        repeat match goal with |- context [0 <=? ?n] => destruct (Z.leb_spec 0 n) end;
        (reflexivity || lia). }
    eexists. split; [reflexivity|].
    cbn [Client.received Client.status Client.statusText Client.body
         Client.bodyTruncated Client.size Client.error Client.timing Client.headers
         Client.total Client.firstByte Client.download].
    rewrite Htiming. cbn [total firstByte download].
    repeat (split; [reflexivity|]). unfold Wire.parsedRecord.
    split; [apply lookup_delete_eq|]. split.
    + intros key Hkey. by rewrite lookup_delete_ne.
    + apply delete_id.
  - intros Hneg.
    destruct (Z.leb_spec 0 (Res.size r)); [|done].
    destruct (Z.leb_spec 0 t); [|done].
    destruct Hneg as [|[|[(x & -> & Hx)|(x & -> & Hx)]]]; try lia;
      cbn [from_option andb].
    + destruct (Z.leb_spec 0 x); [lia | done].
    + destruct (Z.leb_spec 0 x); [lia|]. by rewrite andb_false_r.
Qed.

End ClientSide.


(** ** The client against the proxy server *)

Section EndToEnd.

Import Schema Route.

Context (rt : Runtime).

Lemma read_size_nonneg response r :
  Proxy.readResponseBody rt response = Normal r -> 0 <= Proxy.size r.
Proof.
  rewrite readResponseBody_decodes.
  destruct (Proxy.readResponseBytes rt response) as [bytes|] eqn:Hread; [|discriminate].
  intros [= <-]. cbn [Proxy.size].
  pose proof MAX_BODY_SIZE_pos as Hmax.
  destruct (read_cases _ _ _ Hread)
    as [(declared & stream & _ & Hover & _ & Hpartial)
       | [(declared & _ & _ & _ & ->) | (_ & Hfull)]].
  - destruct (readPartial_spec _ _ _ Hpartial) as (_ & _ & ->). lia.
  - done.
  - destruct (readFull_spec _ _ Hfull) as (-> & _). apply byteLength_nonneg.
Qed.

(** With a clock that does not run backwards, the engine returns a
    response whose size and timings are not negative. *)
Lemma executeProxyRequest_wellformed (w : Proxy.World) (request : Req.ProxyRequest) :
  (Proxy.now w 0 <= Proxy.now w 1)%Q ->
  (Proxy.now w 1 <= Proxy.now w 2)%Q ->
  exists r,
    Proxy.executeProxyRequest rt w request = Normal r
    /\ 0 <= Res.size r
    /\ Wire.nonnegative_timing (Res.timing r) = true.
Proof.
  intros H01 H12.
  assert (0 <= Proxy.now w 1 - Proxy.now w 0)%Q as Hfirst by lra.
  assert (0 <= Proxy.now w 2 - Proxy.now w 1)%Q as Hdownload by lra.
  assert (0 <= Proxy.now w 2 - Proxy.now w 0)%Q as Htotal by lra.
  apply Math_round_nonneg in Hfirst, Hdownload, Htotal.
  apply Z.leb_le in Hfirst, Hdownload, Htotal.
  unfold Proxy.executeProxyRequest, Proxy.tryBlock.
  destruct (Proxy.fetch w (Req.url request) (Proxy.fetchOptions request)) as [response|e];
    [destruct (Proxy.readResponseBody rt response) as [read|e] eqn:Hread|];
    cbn [Proxy.completion try_catch Proxy.readings Proxy.firstByteTime];
    (eexists; split; [reflexivity|]);
    unfold Wire.nonnegative_timing;
    cbn [Res.timing Res.size total firstByte download Proxy.firstByte_in_catch from_option].
  - split; [by eapply read_size_nonneg|]. by rewrite Htotal, Hfirst, Hdownload.
  - split; [done|]. rewrite Htotal.
    destruct (Qeq_bool (Proxy.now w 1) 0); cbn [from_option]; by rewrite ?Hfirst.
  - split; [done|]. by rewrite Hfirst.
Qed.

Context (toText : Json -> string) (flatten : list string -> Json).

(** [api.proxy] against the proxy server: the engine's response to the
    request as the server parsed it, for a valid request, and an ApiError
    with status 400 for any other. *)
Lemma api_proxy_server (w : Proxy.World) (request : Req.ProxyRequest) :
  Wire.plain_lengths w ->
  (Proxy.now w 0 <= Proxy.now w 1)%Q ->
  (Proxy.now w 1 <= Proxy.now w 2)%Q ->
  (urlParses rt (Req.url request) = true -> 0 <= Req.timeout request <= 300000 ->
   exists response,
     Proxy.executeProxyRequest rt w (Wire.parsedRequest request) = Normal response
     /\ Client.proxy toText (Wire.server flatten rt w) request
        = inr (Client.received response))
  /\ (urlParses rt (Req.url request) = false
      \/ Req.timeout request < 0 \/ 300000 < Req.timeout request ->
      Client.proxy toText (Wire.server flatten rt w) request
      = inl (inr {| Client.api_status := 400;
                    Client.api_message := "Invalid request body" |})).
Proof.
  intros _ H01 H12. unfold Client.proxy, Wire.server. split.
  - intros Hurl Htimeout. cbn [post].
    rewrite (safeParse_encodeRequest rt request Hurl Htimeout).
    destruct (executeProxyRequest_wellformed w (Wire.parsedRequest request) H01 H12)
      as (r & -> & Hsize & Htiming).
    exists r. split; [reflexivity|].
    unfold Wire.encodeReply.
    cbn [fst code payload Wire.encodeReplyBody Wire.status Wire.json].
    change ((200 <=? 200) && (200 <=? 299)) with true. cbv iota.
    rewrite safeParse_encodeResponse. apply Z.leb_le in Hsize. by rewrite Hsize, Htiming.
  - intros Hbad. cbn [post].
    destruct (safeParse_rejects rt (Wire.encodeRequest request)) as (details & -> & _);
      [|reflexivity].
    right. destruct Hbad as [Hurl | Htimeout].
    + left. intros s [= <-]. exact Hurl.
    + right. unfold bad_timeout.
      cbn [Wire.encodeRequest field List.find fst snd String.eqb Ascii.eqb Bool.eqb
           fmap option_fmap option_map].
      change 0%Q with (inject_Z 0). change 300000%Q with (inject_Z 300000).
      rewrite <- !Zlt_Qlt. exact Htimeout.
Qed.

(** X11. [api.proxy] against the proxy server, with a clock that does not
    run backwards and responses whose declared content length, if any, has
    at most 15 characters (so that the size is a number, and one that the
    integers of the model hold).  A request whose URL the URL parser
    accepts and whose timeout is within [0, 300000] is executed as the
    server parsed it, that is without a header named [__proto__], and the
    client's schema does not turn the reply down, a failed outbound call
    included: [api.proxy] returns the engine's response as the client
    reads it, with the same fields but for a response header named
    [__proto__], which zod's record leaves out.  Any other request makes
    [api.proxy] throw an ApiError with status 400 and the message
    'Invalid request body'. *)
Theorem api_proxy_through_the_server (w : Proxy.World) (request : Req.ProxyRequest) :
  Wire.plain_lengths w ->
  (Proxy.now w 0 <= Proxy.now w 1)%Q ->
  (Proxy.now w 1 <= Proxy.now w 2)%Q ->
  (urlParses rt (Req.url request) = true -> 0 <= Req.timeout request <= 300000 ->
   exists response,
     Proxy.executeProxyRequest rt w (Wire.parsedRequest request) = Normal response
     /\ Client.proxy toText (Wire.server flatten rt w) request
        = inr (Client.received response))
  /\ (urlParses rt (Req.url request) = false
      \/ Req.timeout request < 0 \/ 300000 < Req.timeout request ->
      Client.proxy toText (Wire.server flatten rt w) request
      = inl (inr {| Client.api_status := 400;
                    Client.api_message := "Invalid request body" |})).
Proof. apply api_proxy_server. Qed.

End EndToEnd.

(** ** Folders: depth, subtrees and cascades *)

Section Folders.

Import Collections.

Lemma truthy_true s : truthy s = true <-> s <> EmptyString.
Proof.
  unfold truthy. rewrite negb_true_iff. split.
  - intros H ->. by rewrite String.eqb_refl in H.
  - intros H. by apply String.eqb_neq.
Qed.

(** The loop of [getFolderDepth] makes at most [4 - depth] iterations:
    fuel beyond that changes nothing. *)
Lemma depthLoop_fuel table : forall fuel fuel' currentId depth,
  4 - depth <= Z.of_nat fuel -> 4 - depth <= Z.of_nat fuel' ->
  depthLoop fuel table currentId depth = depthLoop fuel' table currentId depth.
Proof.
  induction fuel as [|fuel IH]; intros [|fuel'] [id|] depth Hfuel Hfuel';
    cbn [depthLoop]; try reflexivity.
  - destruct (depth <? 4) eqn:Hlt; [lia|]. by rewrite andb_false_r.
  - destruct (depth <? 4) eqn:Hlt; [lia|]. by rewrite andb_false_r.
  - destruct (truthy id && (depth <? 4)) eqn:Hguard; [|done].
    destruct (table !! id); [|done]. apply IH; lia.
Qed.

Lemma depthLoop_bounds table : forall fuel currentId depth,
  0 <= depth <= 4 -> depth <= depthLoop fuel table currentId depth <= 4.
Proof.
  induction fuel as [|fuel IH]; intros [id|] depth Hdepth; cbn [depthLoop]; try lia.
  destruct (truthy id && (depth <? 4)) eqn:Hguard; [|lia].
  destruct (table !! id); [|lia].
  apply andb_prop in Hguard as [_ Hlt].
  specialize (IH (F.parentFolderId f) (depth + 1)). lia.
Qed.

Lemma getFolderDepth_bounds db folderId : 0 <= getFolderDepth db folderId <= 4.
Proof.
  unfold getFolderDepth. destruct (negb (truthy_opt folderId)); [lia|].
  apply depthLoop_bounds. lia.
Qed.

Lemma getFolderDepth_absent db key :
  folders db !! key = None -> getFolderDepth db (Some key) = 0.
Proof.
  intros Habsent. unfold getFolderDepth. cbn [truthy_opt depthLoop].
  destruct (truthy key); cbn [negb andb]; [|done]. by rewrite Habsent.
Qed.

(** The depth of a stored folder is one more than the depth of its parent,
    as far as the loop counts. *)
Lemma getFolderDepth_stored db key folder :
  key <> EmptyString ->
  folders db !! key = Some folder ->
  getFolderDepth db (Some key)
  = Z.min 4 (1 + getFolderDepth db (F.parentFolderId folder)).
Proof.
  intros Hkey Hfolder. apply truthy_true in Hkey.
  unfold getFolderDepth. cbn [truthy_opt]. rewrite Hkey. cbn [negb].
  cbn [depthLoop]. rewrite Hkey, Hfolder. cbn [andb Z.ltb Z.compare Z.add].
  repeat (
    match goal with
    | |- context [match ?o with Some _ => _ | None => _ end] =>
        lazymatch o with
        | F.parentFolderId _ => destruct o as [?id|] eqn:?
        | _ !! _ => destruct o as [?f|] eqn:?
        end
    | |- context [truthy ?s] => destruct (truthy s) eqn:?
    end;
    cbn [truthy_opt negb andb depthLoop Z.ltb Z.compare Z.add Pos.add Pos.compare
         Pos.compare_cont Pos.succ];
    try reflexivity).
Qed.


(** A new key changes no chain of parents that does not lead to it. *)
Lemma depthLoop_insert table uuid folder :
  (forall key stored, table !! key = Some stored -> F.parentFolderId stored <> Some uuid) ->
  forall fuel currentId depth,
    currentId <> Some uuid ->
    depthLoop fuel (<[uuid := folder]> table) currentId depth
    = depthLoop fuel table currentId depth.
Proof.
  intros Hfresh. induction fuel as [|fuel IH]; intros [id|] depth Hne;
    cbn [depthLoop]; try reflexivity.
  destruct (truthy id && (depth <? 4)); [|done].
  rewrite lookup_insert_ne by congruence.
  destruct (table !! id) as [stored|] eqn:Hstored; [|done].
  apply IH. by eapply Hfresh.
Qed.

Lemma getFolderDepth_insert db uuid folder folderId :
  (forall key stored, folders db !! key = Some stored ->
                      F.parentFolderId stored <> Some uuid) ->
  folderId <> Some uuid ->
  getFolderDepth {| collections := collections db;
                    folders := <[uuid := folder]> (folders db);
                    requests := requests db |} folderId
  = getFolderDepth db folderId.
Proof.
  intros Hfresh Hne. unfold getFolderDepth. cbn [folders].
  destruct (negb (truthy_opt folderId)); [done|]. by apply depthLoop_insert.
Qed.

(** X12. [createFolder] enforces the nesting limit.  With a new id that
    is free and not yet named as a parent, it throws, and stores nothing,
    exactly when the parent is at depth three or deeper.  Otherwise the
    folder is stored under the new id one level below its parent, every
    other folder keeps its place and its depth, and a database within the
    limit of three levels stays within it. *)
Theorem createFolder_keeps_nesting_limit (uuid now : string) (folder : NewFolder.t)
    (db : Database) :
  uuid <> EmptyString ->
  folders db !! uuid = None ->
  NewFolder.parentFolderId folder <> Some uuid ->
  (forall key stored, folders db !! key = Some stored ->
                      F.parentFolderId stored <> Some uuid) ->
  let parentDepth := getFolderDepth db (NewFolder.parentFolderId folder) in
  if 3 <=? parentDepth then
    createFolder uuid now folder db
    = (Throw (JsError "Error" "Maximum folder nesting depth (3 levels) exceeded"), db)
  else
    exists db',
      createFolder uuid now folder db = (Normal uuid, db')
      /\ (exists stored, folders db' !! uuid = Some stored
                         /\ F.parentFolderId stored = NewFolder.parentFolderId folder)
      /\ getFolderDepth db' (Some uuid) = parentDepth + 1
      /\ (forall key, key <> uuid ->
            folders db' !! key = folders db !! key
            /\ getFolderDepth db' (Some key) = getFolderDepth db (Some key))
      /\ (nesting_limit db -> nesting_limit db').
Proof.
  intros Huuid Hfree Hparent Hfresh parentDepth. unfold createFolder.
  fold parentDepth. rewrite Z.geb_leb.
  destruct (3 <=? parentDepth) eqn:Hdeep; [reflexivity|].
  apply Z.leb_gt in Hdeep.
  unfold add. rewrite Hfree. eexists. split; [reflexivity|].
  set (stored := {| F.id := uuid |}).
  set (db' := {| collections := collections db |}).
  assert (forall folderId, folderId <> Some uuid ->
            getFolderDepth db' folderId = getFolderDepth db folderId) as Hsame.
  { intros folderId Hne. by apply getFolderDepth_insert. }
  assert (getFolderDepth db' (Some uuid) = parentDepth + 1) as Hnew.
  { rewrite (getFolderDepth_stored db' uuid stored Huuid)
      by (cbn [folders db']; apply lookup_insert_eq).
    cbn [F.parentFolderId stored]. rewrite Hsame by done. fold parentDepth.
    pose proof (getFolderDepth_bounds db (NewFolder.parentFolderId folder)).
    fold parentDepth in H. lia. }
  split; [|split; [done|split]].
  - exists stored. split; [apply lookup_insert_eq | reflexivity].
  - intros key Hkey. split.
    + cbn [folders db']. by rewrite lookup_insert_ne.
    + apply Hsame. congruence.
  - intros Hlimit key Hstored.
    destruct (decide (key = uuid)) as [->|Hne].
    + rewrite Hnew. lia.
    + rewrite Hsame by congruence. apply Hlimit.
      cbn [folders db'] in Hstored. by rewrite lookup_insert_ne in Hstored.
Qed.


Lemma where_equals_spec {V} (index : V -> option string) key (table : gmap string V) object :
  In object (where_equals index key table)
  <-> exists k, table !! k = Some object /\ index object = Some key.
Proof.
  unfold where_equals. rewrite filter_In, bool_decide_eq_true, <- list_elem_of_In.
  rewrite list_elem_of_fmap. split.
  - intros [([k v] & -> & Hin) Hindex]. apply elem_of_map_to_list in Hin. eauto.
  - intros (k & Hk & Hindex). split; [|done].
    exists (k, object). split; [done|]. by apply elem_of_map_to_list.
Qed.

Lemma childIds_spec table parent child :
  keyed table ->
  In child (List.map F.id (where_equals F.parentFolderId parent table))
  <-> child_of table parent child.
Proof.
  intros [_ Hkeyed]. rewrite in_map_iff. unfold child_of. split.
  - intros (folder & <- & Hin). apply where_equals_spec in Hin as (k & Hk & Hparent).
    exists folder. split; [|done]. by rewrite (Hkeyed _ _ Hk).
  - intros (folder & Hstored & Hparent). exists folder. split; [by apply Hkeyed|].
    apply where_equals_spec. eauto.
Qed.

Lemma below_unfold table ancestor x :
  below table ancestor x
  <-> exists c, child_of table ancestor c /\ (x = c \/ below table c x).
Proof.
  split.
  - induction 1 as [x Hchild | x y _ (c & Hc & Hx) Hy].
    + exists x. auto.
    + exists c. split; [done|]. right. destruct Hx as [-> | Hx].
      * by apply below_child.
      * by eapply below_deeper.
  - intros (c & Hc & [-> | Hbelow]); [by apply below_child|].
    induction Hbelow as [x Hx | x y _ IH Hy].
    + eapply below_deeper; [by apply below_child | done].
    + by eapply below_deeper.
Qed.

(** The loop of [getDescendantFolderIds] when every recursive call
    returns. *)
Lemma for_of_collect (descend : string -> option (list string))
    (Q : string -> string -> Prop) (items : list string) :
  (forall c, In c items ->
     exists found, descend c = Some found /\ forall x, In x found <-> Q c x) ->
  forall descendantIds,
  exists out,
    for_of items
      (fun descendantIds childId =>
         match descend childId with
         | Some grandchildren => Some (descendantIds ++ childId :: grandchildren)
         | None => None
         end) descendantIds
    = Some (descendantIds ++ out)
    /\ forall x, In x out <-> exists c, In c items /\ (x = c \/ Q c x).
Proof.
  induction items as [|c items IH]; intros Hcalls descendantIds.
  - exists []. cbn [for_of]. rewrite app_nil_r. split; [done|].
    intros x. split; [intros [] | intros (c & [] & _)].
  - destruct (Hcalls c (or_introl eq_refl)) as (found & Hfound & Hspec).
    cbn [for_of]. rewrite Hfound.
    destruct (IH (fun c' Hin => Hcalls c' (or_intror Hin)) (descendantIds ++ c :: found))
      as (out & -> & Hout).
    exists ((c :: found) ++ out). split; [by rewrite <- app_assoc|].
    intros x. rewrite in_app_iff, Hout. cbn [In]. rewrite Hspec. split.
    + intros [[<- | HQ] | (c' & Hin & Hx)]; eauto 6.
    + intros (c' & [<- | Hin] & [-> | HQ]); eauto 6.
Qed.

(** A child lies one level below its parent. *)
Lemma child_depth db parent child :
  keyed (folders db) ->
  child_of (folders db) parent child ->
  getFolderDepth db (Some child) = Z.min 4 (1 + getFolderDepth db (Some parent)).
Proof.
  intros [Hnonempty _] (folder & Hstored & Hparent).
  rewrite (getFolderDepth_stored db child folder); [by rewrite Hparent | | done].
  intros ->. congruence.
Qed.

Lemma depth_within_limit db key :
  nesting_limit db -> getFolderDepth db (Some key) <= 3.
Proof.
  intros Hlimit. destruct (folders db !! key) as [folder|] eqn:Hstored.
  - apply Hlimit. by eexists.
  - rewrite getFolderDepth_absent by done. lia.
Qed.

(** Within the nesting limit [getDescendantFolderIds] returns, with the
    folders below the given one, after at most [4 - depth] nested
    calls. *)
Lemma getDescendantFolderIds_spec db :
  keyed (folders db) -> nesting_limit db ->
  forall fuel folderId,
    4 - getFolderDepth db (Some folderId) <= Z.of_nat fuel ->
    exists descendantIds,
      getDescendantFolderIds fuel (folders db) folderId = Some descendantIds
      /\ forall x, In x descendantIds <-> below (folders db) folderId x.
Proof.
  intros Hkeyed Hlimit. induction fuel as [|fuel IH]; intros folderId Hfuel.
  - pose proof (depth_within_limit db folderId Hlimit). lia.
  - cbn [getDescendantFolderIds].
    destruct (for_of_collect (getDescendantFolderIds fuel (folders db))
                (below (folders db))
                (List.map F.id (where_equals F.parentFolderId folderId (folders db))))
      with (descendantIds := @nil string) as (out & Hout & Hspec).
    { intros c Hc. apply IH. apply childIds_spec in Hc; [|done].
      rewrite (child_depth db folderId c Hkeyed Hc).
      pose proof (depth_within_limit db c Hlimit) as Hc3.
      rewrite (child_depth db folderId c Hkeyed Hc) in Hc3. lia. }
    exists out. split; [exact Hout|].
    intros x. rewrite Hspec, below_unfold. split.
    + intros (c & Hc & Hx). exists c. split; [by apply childIds_spec in Hc | done].
    + intros (c & Hc & Hx). exists c. split; [by apply childIds_spec | done].
Qed.


(** X13. In a database within the nesting limit whose folders are stored
    under their ids, [getDescendantFolderIds] returns after at most four
    nested calls, and what it returns are exactly the folders below the
    given one: its children, their children, and so on. *)
Theorem getDescendantFolderIds_is_the_subtree (db : Database) (fuel : nat)
    (folderId : string) :
  keyed (folders db) -> nesting_limit db -> (4 <= fuel)%nat ->
  exists descendantIds,
    getDescendantFolderIds fuel (folders db) folderId = Some descendantIds
    /\ forall x, In x descendantIds <-> below (folders db) folderId x.
Proof.
  intros Hkeyed Hlimit Hfuel. apply getDescendantFolderIds_spec; [done..|].
  pose proof (getFolderDepth_bounds db (Some folderId)). lia.
Qed.

Lemma bulkDelete_lookup {V} keys : forall (table : gmap string V) x,
  bulkDelete keys table !! x = if bool_decide (x ∈ keys) then None else table !! x.
Proof.
  unfold bulkDelete. induction keys as [|key keys IH]; intros table x; cbn [fold_left].
  - by rewrite bool_decide_eq_false_2 by apply not_elem_of_nil.
  - rewrite IH. destruct (decide (x = key)) as [->|Hne].
    + rewrite (bool_decide_eq_true_2 (key ∈ key :: keys)) by apply list_elem_of_here.
      rewrite lookup_delete_eq. by destruct (bool_decide _).
    + rewrite lookup_delete_ne by done.
      rewrite (bool_decide_ext (x ∈ key :: keys) (x ∈ keys)); [done|].
      rewrite elem_of_cons. split; [by intros [|] | by right].
Qed.

Lemma where_equals_delete_all {V} (index : V -> option string) keys :
  forall (table : gmap string V) x object,
    fold_left (fun t key => where_equals_delete index key t) keys table !! x = Some object
    <-> table !! x = Some object /\ forall key, In key keys -> index object <> Some key.
Proof.
  induction keys as [|key keys IH]; intros table x object; cbn [fold_left].
  - split; [intros H; split; [done | intros ? []] | by intros [? _]].
  - rewrite IH. unfold where_equals_delete. rewrite map_lookup_filter_Some.
    cbn [snd In]. split.
    + intros [[Hx Hkey] Hkeys]. split; [done|]. intros k [<-|Hk]; auto.
    + intros [Hx Hkeys]. auto.
Qed.

(** What [deleteFolder] removes and what it leaves. *)
Lemma deleteFolder_subtree (db : Database) (fuel : nat) (id : string) :
  keyed (folders db) -> nesting_limit db -> (4 <= fuel)%nat ->
  exists db',
    deleteFolder fuel id db = Some db'
    /\ collections db' = collections db
    /\ (forall x folder,
          folders db' !! x = Some folder
          <-> folders db !! x = Some folder /\ ~ removed (folders db) id x)
    /\ (forall key request,
          requests db' !! key = Some request
          <-> requests db !! key = Some request
              /\ forall folderId, R.folderId request = Some folderId ->
                                  ~ removed (folders db) id folderId).
Proof.
  intros Hkeyed Hlimit Hfuel.
  destruct (getDescendantFolderIds_spec db Hkeyed Hlimit fuel id)
    as (descendantIds & Hids & Hspec).
  { pose proof (getFolderDepth_bounds db (Some id)). lia. }
  unfold deleteFolder. rewrite Hids. eexists. split; [reflexivity|].
  cbn [collections folders requests]. split; [reflexivity|].
  assert (forall x, In x (id :: descendantIds) <-> removed (folders db) id x) as Hall.
  { intros x. cbn [In]. rewrite Hspec. unfold removed.
    split; (intros [|]; [by left | by right]). }
  split.
  - intros x folder. rewrite bulkDelete_lookup, <- Hall, <- list_elem_of_In.
    destruct (bool_decide_reflect (x ∈ id :: descendantIds));
      split; try done; by intros [? ?].
  - intros key request. rewrite where_equals_delete_all. split.
    + intros [Hstored Hkeys]. split; [done|]. intros folderId Hfolder Hremoved.
      apply Hall in Hremoved. by apply (Hkeys folderId).
    + intros [Hstored Hkeys]. split; [done|]. intros folderId Hin Hfolder.
      apply Hall in Hin. by apply (Hkeys folderId).
Qed.


(** X14. [deleteFolder], in a database within the nesting limit: it
    returns, and it removes the folder, every folder below it and every
    request that lies in one of them, and nothing else: the other folders
    and requests, and the collections, are as before. *)
Theorem deleteFolder_removes_the_subtree (db : Database) (fuel : nat) (id : string) :
  keyed (folders db) -> nesting_limit db -> (4 <= fuel)%nat ->
  exists db',
    deleteFolder fuel id db = Some db'
    /\ collections db' = collections db
    /\ (forall x folder,
          folders db' !! x = Some folder
          <-> folders db !! x = Some folder /\ ~ removed (folders db) id x)
    /\ (forall key request,
          requests db' !! key = Some request
          <-> requests db !! key = Some request
              /\ forall folderId, R.folderId request = Some folderId ->
                                  ~ removed (folders db) id folderId).
Proof. apply deleteFolder_subtree. Qed.

(** A folder that stays has a parent that stays: the chain of its parents
    is the one it had. *)
Lemma depthLoop_remaining (table table' : gmap string F.Folder) id :
  (forall x, ~ removed table id x -> table' !! x = table !! x) ->
  forall fuel currentId depth,
    (forall x, currentId = Some x -> ~ removed table id x) ->
    depthLoop fuel table' currentId depth = depthLoop fuel table currentId depth.
Proof.
  intros Hsame. induction fuel as [|fuel IH]; intros [x|] depth Hstays;
    cbn [depthLoop]; try reflexivity.
  destruct (truthy x && (depth <? 4)); [|done].
  rewrite Hsame by auto.
  destruct (table !! x) as [folder|] eqn:Hstored; [|done].
  apply IH. intros p Hparent Hremoved. apply (Hstays x eq_refl).
  right. assert (child_of table p x) as Hchild by (by exists folder).
  destruct Hremoved as [-> | Hbelow].
  - by apply below_child.
  - by eapply below_deeper.
Qed.

(** X15. [deleteFolder] leaves no orphans and keeps the database in order.
    A folder that stays keeps its parent, if it had one stored, and its
    depth; a request that stays keeps its folder, if it had one stored.
    So the folders are still stored under their ids and the nesting limit
    still holds. *)
Theorem deleteFolder_leaves_no_orphans (db db' : Database) (fuel : nat) (id : string) :
  keyed (folders db) -> nesting_limit db -> (4 <= fuel)%nat ->
  deleteFolder fuel id db = Some db' ->
  (forall x folder parent,
     folders db' !! x = Some folder -> F.parentFolderId folder = Some parent ->
     is_Some (folders db !! parent) -> is_Some (folders db' !! parent))
  /\ (forall key request folderId,
        requests db' !! key = Some request -> R.folderId request = Some folderId ->
        is_Some (folders db !! folderId) -> is_Some (folders db' !! folderId))
  /\ (forall x, is_Some (folders db' !! x) ->
                getFolderDepth db' (Some x) = getFolderDepth db (Some x))
  /\ keyed (folders db') /\ nesting_limit db'.
Proof.
  intros Hkeyed Hlimit Hfuel Hdelete.
  destruct (deleteFolder_subtree db fuel id Hkeyed Hlimit Hfuel)
    as (db0 & Hdb0 & _ & Hfolders & Hrequests).
  rewrite Hdelete in Hdb0. injection Hdb0 as <-.
  assert (forall x, ~ removed (folders db) id x -> folders db' !! x = folders db !! x)
    as Hsame.
  { intros x Hstays. apply option_eq. intros folder. rewrite Hfolders.
    split; [by intros [? _] | done]. }
  assert (forall x, is_Some (folders db' !! x) ->
                    getFolderDepth db' (Some x) = getFolderDepth db (Some x)) as Hdepth.
  { intros x [folder Hx]. apply Hfolders in Hx as [_ Hstays].
    unfold getFolderDepth. destruct (negb _); [done|].
    apply (depthLoop_remaining _ _ id Hsame). by intros ? [= <-]. }
  split; [|split; [|split; [done|split]]].
  - intros x folder parent Hx Hparent [p Hp].
    apply Hfolders in Hx as [Hx Hstays].
    exists p. apply Hfolders. split; [done|]. intros Hremoved. apply Hstays.
    right. assert (child_of (folders db) parent x) as Hchild by (by exists folder).
    destruct Hremoved as [-> | Hbelow];
      [by apply below_child | by eapply below_deeper].
  - intros key request folderId Hkey Hfolder [folder Hstored].
    apply Hrequests in Hkey as [_ Hstays].
    exists folder. apply Hfolders. split; [done|]. by apply Hstays.
  - destruct Hkeyed as [Hnonempty Hids]. split.
    + destruct (folders db' !! EmptyString) as [folder|] eqn:Hempty; [|done].
      apply Hfolders in Hempty as [Hempty _]. congruence.
    + intros key folder Hstored. apply Hfolders in Hstored as [Hstored _].
      by apply Hids.
  - intros x Hx. rewrite Hdepth by done. apply Hlimit.
    destruct Hx as [folder Hx]. apply Hfolders in Hx as [Hx _]. by eexists.
Qed.

Lemma for_of_stuck {A S} (items : list A) (body : S -> A -> option S) (c : A) :
  In c items -> (forall state, body state c = None) ->
  forall state, for_of items body state = None.
Proof.
  intros Hin Hstuck. induction items as [|item items IH]; intros state; [destruct Hin|].
  cbn [for_of]. destruct Hin as [-> | Hin]; [by rewrite Hstuck|].
  destruct (body state item); [by apply IH | done].
Qed.

Lemma descend_into table parent child fuel :
  keyed table -> child_of table parent child ->
  getDescendantFolderIds fuel table child = None ->
  getDescendantFolderIds (S fuel) table parent = None.
Proof.
  intros Hkeyed Hchild Hstuck. cbn [getDescendantFolderIds].
  apply (for_of_stuck _ _ child); [by apply childIds_spec|].
  intros state. by rewrite Hstuck.
Qed.

(** X16. [updateFolder] looks at the depth of the new parent only.  A
    folder can therefore be moved below one of its own children, as long
    as that child is less than three levels deep: the update is made, the
    two folders are then each other's parent, and from then on
    [getDescendantFolderIds], and with it [deleteFolder], does not return
    for either of them, however many calls it is given. *)
Theorem updateFolder_can_close_a_cycle (db : Database) (now parent child : string)
    (folder : F.Folder) :
  keyed (folders db) ->
  folders db !! parent = Some folder ->
  child_of (folders db) parent child ->
  parent <> child ->
  getFolderDepth db (Some child) < 3 ->
  exists db',
    updateFolder now parent (move_to (Some child)) db = (Normal tt, db')
    /\ child_of (folders db') parent child
    /\ child_of (folders db') child parent
    /\ forall fuel,
         getDescendantFolderIds fuel (folders db') parent = None
         /\ getDescendantFolderIds fuel (folders db') child = None
         /\ deleteFolder fuel parent db' = None
         /\ deleteFolder fuel child db' = None.
Proof.
  intros Hkeyed Hparent (stored & Hchild & Hlink) Hne Hdepth.
  unfold updateFolder. cbn [move_to FolderUpdates.parentFolderId].
  destruct (Z.geb_spec (getFolderDepth db (Some child)) 3) as [|_]; [lia|].
  rewrite Hparent. eexists. split; [reflexivity|]. cbn [folders].
  set (table := <[parent := _]> (folders db)).
  assert (child_of table parent child) as Hdown.
  { exists stored. split; [|done]. unfold table. by rewrite lookup_insert_ne. }
  assert (child_of table child parent) as Hup.
  { eexists. split; [apply lookup_insert_eq | reflexivity]. }
  assert (keyed table) as Hkeyed'.
  { destruct Hkeyed as [Hnonempty Hids]. split.
    - unfold table. rewrite lookup_insert_ne; [done|]. intros ->. congruence.
    - intros key f. unfold table. destruct (decide (key = parent)) as [->|Hkey].
      + rewrite lookup_insert_eq. intros [= <-]. cbn [updated F.id]. by apply Hids.
      + rewrite lookup_insert_ne by done. apply Hids. }
  split; [done|]. split; [done|].
  assert (forall fuel,
            getDescendantFolderIds fuel table parent = None
            /\ getDescendantFolderIds fuel table child = None) as Hstuck.
  { induction fuel as [|fuel [IHparent IHchild]]; [done|]. split.
    - by apply (descend_into table parent child).
    - by apply (descend_into table child parent). }
  intros fuel. destruct (Hstuck fuel) as [Hp Hc].
  unfold deleteFolder. cbn [folders]. by rewrite Hp, Hc.
Qed.

End Folders.

(** ** The header rows of the request builder *)

Section Rows.

Import Headers RequestStore RequestStore.State.

Context (rt : Runtime).

Lemma fold_step_filter rows : forall record : gmap string string,
  fold_left (step rt) (List.filter (kept rt) rows) record = fold_left (step rt) rows record.
Proof.
  induction rows as [|row rows IH]; intros record; [done|].
  cbn [List.filter fold_left]. destruct (kept rt row) eqn:Hkept.
  - cbn [fold_left]. apply IH.
  - rewrite IH. f_equal. unfold step. by rewrite Hkept.
Qed.

Lemma filter_filter_implied {A} (p q : A -> bool) (l : list A) :
  (forall x, p x = true -> q x = true) ->
  List.filter q (List.filter p l) = List.filter p l.
Proof.
  intros Himpl. induction l as [|x l IH]; [done|].
  cbn [List.filter]. destruct (p x) eqn:Hp; [|done].
  cbn [List.filter]. by rewrite (Himpl x Hp), IH.
Qed.

(** X17. The filter of [selectCurrentRequest] and the checks of the hook
    agree.  The record of headers that [sendRequest] posts is
    [headersToRecord] of the rows of the store as they are: selecting
    first loses nothing and lets nothing else through.  And the rows the
    hook keeps for the history entry are exactly the selected rows. *)
Theorem selected_rows_are_the_rows_sent (state : RequestState) (url : string) :
  let currentRequest := selectCurrentRequest rt state in
  Schema.Req.headers (UseRequest.proxyRequest rt currentRequest url)
  = headersToRecord rt (State.headers state)
  /\ UseRequest.Sent.headers (UseRequest.sent rt currentRequest url)
     = Current.headers currentRequest.
Proof.
  cbn [UseRequest.proxyRequest Schema.Req.headers selectCurrentRequest Current.headers
       UseRequest.sent UseRequest.Sent.headers]. split.
  - unfold headersToRecord. apply (fold_step_filter (State.headers state) ∅).
  - apply filter_filter_implied. intros h Hkept. by apply andb_prop in Hkept as [_ ?].
Qed.

Lemma size_set_prop (record : gmap string string) k v :
  (base.size (set_prop record k v) <= S (base.size record))%nat.
Proof.
  unfold set_prop. destruct (String.eqb k "__proto__"); [lia|].
  destruct (record !! k) eqn:Hk.
  - rewrite map_size_insert_Some by done. lia.
  - rewrite map_size_insert_None by done. lia.
Qed.

Lemma size_fold_step rows : forall record : gmap string string,
  (base.size (fold_left (step rt) rows record)
   <= base.size record + length (List.filter (kept rt) rows))%nat.
Proof.
  induction rows as [|row rows IH]; intros record; cbn [fold_left List.filter]; [lia|].
  etransitivity; [apply IH|]. unfold step. destruct (kept rt row); cbn [length].
  - pose proof (size_set_prop record (key row) (value row)). lia.
  - lia.
Qed.

Lemma size_fold_step_distinct rows : forall record : gmap string string,
  NoDup (keptKeys rt rows) ->
  (forall k, k ∈ keptKeys rt rows -> k <> "__proto__" /\ record !! k = None) ->
  base.size (fold_left (step rt) rows record)
  = (base.size record + length (List.filter (kept rt) rows))%nat.
Proof.
  unfold keptKeys.
  induction rows as [|row rows IH]; intros record Hdistinct Hfree;
    cbn [fold_left List.filter]; [cbn [length]; lia|].
  assert (step rt record row
          = if kept rt row then set_prop record (key row) (value row) else record)
    as -> by reflexivity.
  destruct (kept rt row) eqn:Hkept.
  - cbn [List.filter fmap list_fmap] in Hdistinct, Hfree. rewrite Hkept in Hdistinct, Hfree.
    cbn [fmap list_fmap] in Hdistinct, Hfree.
    apply NoDup_cons in Hdistinct as [Hfirst Hdistinct].
    destruct (Hfree (key row)) as [Hproto Hnone]; [apply list_elem_of_here|].
    unfold set_prop. apply String.eqb_neq in Hproto. rewrite Hproto.
    rewrite IH; [| done |].
    + rewrite map_size_insert_None by done. cbn [length]. lia.
    + intros k Hk. destruct (Hfree k) as [? ?]; [by apply list_elem_of_further|].
      split; [done|]. rewrite lookup_insert_ne; [done|]. intros <-. done.
  - cbn [List.filter] in Hdistinct, Hfree. rewrite Hkept in Hdistinct, Hfree.
    by apply IH.
Qed.

(** X18. The badge of the headers tab counts the rows that are enabled
    and have a key; the record posted has at most that many headers, and
    exactly that many when the keys of these rows are distinct and none
    is [__proto__].  Rows that repeat a key are counted but sent
    once. *)
Theorem HeaderCount_bounds_the_headers_sent (rows : list Header) :
  Z.of_nat (base.size (headersToRecord rt rows)) <= HeaderCount rt rows
  /\ (NoDup (keptKeys rt rows) -> "__proto__" ∉ keptKeys rt rows ->
      Z.of_nat (base.size (headersToRecord rt rows)) = HeaderCount rt rows).
Proof.
  unfold HeaderCount, headersToRecord. fold (kept rt). split.
  - pose proof (size_fold_step rows ∅) as Hsize. rewrite map_size_empty in Hsize. lia.
  - intros Hdistinct Hproto.
    rewrite (size_fold_step_distinct rows ∅ Hdistinct), map_size_empty; [lia|].
    intros k Hk. split; [by intros -> | apply lookup_empty].
Qed.

End Rows.

Section RowEdits.

Import Headers RequestStore RequestStore.State.

Lemma at_index_lookup index change (rows : list Header) (i : nat) :
  at_index index change rows !! i
  = (fun h => if Z.of_nat i =? index then change h else h) <$> rows !! i.
Proof. unfold at_index. apply list_lookup_imap. Qed.

Lemma at_index_outside index change (rows : list Header) :
  index < 0 \/ Z.of_nat (length rows) <= index ->
  at_index index change rows = rows.
Proof.
  intros Hout. apply list_eq. intros i. rewrite at_index_lookup.
  destruct (rows !! i) as [h|] eqn:Hi; [|done]. cbn [fmap option_fmap option_map].
  apply lookup_lt_Some in Hi.
  destruct (Z.eqb_spec (Z.of_nat i) index); [lia | done].
Qed.

Lemma without_spec index : forall (rows : list Header) (i : nat),
  without index i rows
  = if (Z.of_nat i <=? index) && (index <? Z.of_nat i + Z.of_nat (length rows)) then
      take (Z.to_nat (index - Z.of_nat i)) rows
      ++ drop (S (Z.to_nat (index - Z.of_nat i))) rows
    else rows.
Proof.
  induction rows as [|h rows IH]; intros i; cbn [without length].
  - destruct (_ && _); [|done]. by rewrite take_nil, drop_nil.
  - rewrite IH. destruct (Z.eqb_spec (Z.of_nat i) index) as [<-|Hne].
    + replace (Z.of_nat i - Z.of_nat i) with 0 by lia. cbn [Z.to_nat take drop app].
      destruct (Z.leb_spec (Z.of_nat (S i)) (Z.of_nat i)); [lia|]. cbn [andb].
      destruct (Z.leb_spec (Z.of_nat i) (Z.of_nat i)); [|lia].
      destruct (Z.ltb_spec (Z.of_nat i) (Z.of_nat i + Z.of_nat (S (length rows)))); [|lia].
      reflexivity.
    + destruct (Z.leb_spec (Z.of_nat (S i)) index),
               (Z.ltb_spec index (Z.of_nat (S i) + Z.of_nat (length rows)));
        destruct (Z.leb_spec (Z.of_nat i) index),
                 (Z.ltb_spec index (Z.of_nat i + Z.of_nat (S (length rows))));
        cbn [andb]; try lia; try reflexivity.
      replace (Z.to_nat (index - Z.of_nat i))
        with (S (Z.to_nat (index - Z.of_nat (S i)))) by lia.
      reflexivity.
Qed.

(** X19. The edits of the header rows.  Toggling a row twice gives the rows
    back; a row added at the end and removed again leaves the rows as they
    were; removing the row at an index of the list takes out that row and
    no other, and an index outside the list changes nothing, be it for
    removing, toggling or updating.  The headers editor toggles as the
    store does. *)
Theorem header_row_edits (state : RequestState) (index : Z) :
  let rows := State.headers state in
  State.headers (toggleHeader index (toggleHeader index state)) = rows
  /\ (forall given,
        State.headers (removeHeader (Z.of_nat (length rows)) (addHeader given state))
        = rows)
  /\ (0 <= index < Z.of_nat (length rows) ->
      State.headers (removeHeader index state)
      = take (Z.to_nat index) rows ++ drop (S (Z.to_nat index)) rows)
  /\ (index < 0 \/ Z.of_nat (length rows) <= index ->
      State.headers (removeHeader index state) = rows
      /\ State.headers (toggleHeader index state) = rows
      /\ forall updates, State.headers (updateHeader index updates state) = rows)
  /\ Editor.toggleHeader rows index = State.headers (toggleHeader index state).
Proof.
  cbn [toggleHeader removeHeader addHeader updateHeader setHeaders State.headers].
  set (rows := State.headers state).
  split; [|split; [|split; [|split]]].
  - apply list_eq. intros i. rewrite !at_index_lookup.
    destruct (rows !! i) as [[k v e]|]; [|done]. cbn [fmap option_fmap option_map].
    destruct (Z.of_nat i =? index); [|done].
    cbn [key value enabled]. by rewrite negb_involutive.
  - intros given. rewrite without_spec, length_app. cbn [length].
    destruct (Z.leb_spec (Z.of_nat 0) (Z.of_nat (length rows))); [|lia].
    destruct (Z.ltb_spec (Z.of_nat (length rows))
                (Z.of_nat 0 + Z.of_nat (length rows + 1))); [|lia].
    cbn [andb]. replace (Z.to_nat (Z.of_nat (length rows) - Z.of_nat 0))
      with (length rows) by lia.
    rewrite take_app_length.
    rewrite drop_ge by (rewrite length_app; cbn [length]; lia).
    apply app_nil_r.
  - intros Hin. rewrite without_spec.
    destruct (Z.leb_spec (Z.of_nat 0) index); [|lia].
    destruct (Z.ltb_spec index (Z.of_nat 0 + Z.of_nat (length rows))); [|lia].
    cbn [andb]. by replace (index - Z.of_nat 0) with index by lia.
  - intros Hout. split; [|split].
    + rewrite without_spec.
      destruct (Z.leb_spec (Z.of_nat 0) index),
               (Z.ltb_spec index (Z.of_nat 0 + Z.of_nat (length rows)));
        cbn [andb]; (reflexivity || lia).
    + by apply at_index_outside.
    + intros updates. by apply at_index_outside.
  - unfold Editor.toggleHeader, Editor.item, Editor.updateHeader.
    destruct (Z.ltb_spec index 0) as [Hneg|Hpos].
    { symmetry. apply at_index_outside. by left. }
    destruct (rows !! Z.to_nat index) as [header|] eqn:Hitem.
    + apply list_eq. intros i. rewrite !at_index_lookup.
      destruct (rows !! i) as [h|] eqn:Hi; [|done]. cbn [fmap option_fmap option_map].
      destruct (Z.eqb_spec (Z.of_nat i) index) as [Heq|]; [|done].
      assert (i = Z.to_nat index) as -> by lia.
      assert (h = header) as -> by congruence.
      reflexivity.
    + symmetry. apply at_index_outside. right.
      apply lookup_ge_None in Hitem. lia.
Qed.

End RowEdits.

(** ** The variables of the active environment *)

Section Variables.

Import Env EnvStore.

Lemma fold_set_enabled_lookup (vars : list EnvVariable) :
  forall (map : gmap string string) key,
    fold_left set_enabled vars map !! key
    = match List.find (matches key) (rev vars) with
      | Some v => Some (value v)
      | None => map !! key
      end.
Proof.
  induction vars as [|v vars IH] using rev_ind; intros map key; [done|].
  rewrite fold_left_app, rev_app_distr. cbn [fold_left rev app List.find].
  unfold set_enabled at 1, matches at 1.
  destruct (String.eqb_spec (Env.key v) key) as [<-|Hne], (enabled v); cbn [andb];
    rewrite ?lookup_insert_eq, ?lookup_insert_ne by done; auto.
Qed.

Lemma find_head_filter {A} (p : A -> bool) (l : list A) :
  List.find p l = head (List.filter p l).
Proof.
  induction l as [|x l IH]; [done|]. cbn [List.find List.filter].
  by destruct (p x).
Qed.

Lemma find_rev_unique {A} (p : A -> bool) (l : list A) :
  (length (List.filter p l) <= 1)%nat -> List.find p (rev l) = List.find p l.
Proof.
  intros Hone. rewrite !find_head_filter, List.filter_rev.
  destruct (List.filter p l) as [|x [|y rest]]; [done | done | cbn in Hone; lia].
Qed.

Lemma find_rev_is_Some {A} (p : A -> bool) (l : list A) :
  is_Some (List.find p (rev l)) <-> is_Some (List.find p l).
Proof.
  rewrite !find_head_filter, List.filter_rev.
  destruct (List.filter p l) as [|x rest] eqn:Hf.
  - done.
  - split; intros _; [by eexists|].
    destruct (rev (x :: rest)) as [|y rest'] eqn:Hrev; [|by eexists].
    apply (f_equal (@length _)) in Hrev. rewrite length_rev in Hrev. discriminate.
Qed.

(** X20. The two ways to read a variable of the active environment.
    [getVariable] gives the value of the first enabled variable with the
    key, [getVariablesMap] that of the last one.  So both know the same
    keys, and they give the same value for a key that at most one enabled
    variable has; without an active environment neither knows any key. *)
Theorem getVariable_first_getVariablesMap_last (state : EnvironmentState) (key : string) :
  (forall active, activeEnvironment state = Some active ->
     getVariable state key = value <$> List.find (matches key) (variables active)
     /\ getVariablesMap state !! key
        = value <$> List.find (matches key) (rev (variables active)))
  /\ (is_Some (getVariable state key) <-> is_Some (getVariablesMap state !! key))
  /\ (forall active, activeEnvironment state = Some active ->
        (length (List.filter (matches key) (variables active)) <= 1)%nat ->
        getVariablesMap state !! key = getVariable state key)
  /\ (activeEnvironment state = None ->
      getVariable state key = None /\ getVariablesMap state !! key = None).
Proof.
  unfold getVariable, getVariablesMap.
  destruct (activeEnvironment state) as [active|].
  - assert (fold_left set_enabled (variables active) ∅ !! key
            = value <$> List.find (matches key) (rev (variables active))) as Hlast.
    { rewrite fold_set_enabled_lookup. by destruct (List.find _ _). }
    split; [by intros ? [= <-]|]. split; [|split; [|done]].
    + rewrite Hlast, !fmap_is_Some. symmetry. apply find_rev_is_Some.
    + intros ? [= <-] Hone. rewrite Hlast. by rewrite find_rev_unique.
  - split; [done|]. split; [|split; [done|done]].
    rewrite lookup_empty. done.
Qed.

End Variables.

(** ** Escaping for the response viewer *)

Section Escaping.

Import View.

Lemma append_assoc (a b c : string) : (a +:+ b) +:+ c = a +:+ (b +:+ c).
Proof.
  induction a as [|x a IH]; [done|].
  change (String x ((a +:+ b) +:+ c) = String x (a +:+ (b +:+ c))). by rewrite IH.
Qed.

Lemma replace_app c replacement a b :
  replace c replacement (a +:+ b) = replace c replacement a +:+ replace c replacement b.
Proof.
  induction a as [|x a IH]; [done|].
  change (String x a +:+ b) with (String x (a +:+ b)).
  change (replace c replacement (String x (a +:+ b)))
    with (if Ascii.eqb x c then replacement +:+ replace c replacement (a +:+ b)
          else String x (replace c replacement (a +:+ b))).
  change (replace c replacement (String x a))
    with (if Ascii.eqb x c then replacement +:+ replace c replacement a
          else String x (replace c replacement a)).
  rewrite IH. destruct (Ascii.eqb x c); [|done].
  by rewrite append_assoc.
Qed.

Lemma entity_passes a :
  replace "'" "&#039;"
    (replace "034" "&quot;"
       (replace ">" "&gt;" (replace "<" "&lt;" (replace "&" "&amp;" (String a EmptyString)))))
  = entity a.
Proof.
  unfold entity. cbn [replace].
  destruct (Ascii.eqb_spec a "&") as [->|Hamp]; [reflexivity|].
  cbn [replace].
  destruct (Ascii.eqb_spec a "<") as [->|Hlt]; [reflexivity|].
  cbn [replace].
  destruct (Ascii.eqb_spec a ">") as [->|Hgt]; [reflexivity|].
  cbn [replace].
  destruct (Ascii.eqb_spec a "034") as [->|Hquot]; [reflexivity|].
  cbn [replace].
  destruct (Ascii.eqb_spec a "'") as [->|Hapos]; reflexivity.
Qed.

Lemma escapeHtml_one_pass text : escapeHtml text = escaped text.
Proof.
  induction text as [|a rest IH]; [done|].
  change (String a rest) with (String a EmptyString +:+ rest).
  unfold escapeHtml in *. rewrite !replace_app, IH, entity_passes. reflexivity.
Qed.

Lemma entity_safe a c :
  In c (list_ascii_of_string (entity a)) -> special c = false.
Proof.
  unfold entity.
  repeat match goal with
    | |- context [Ascii.eqb a ?x] => destruct (Ascii.eqb_spec a x) as [->|?]
    end; cbn [list_ascii_of_string In];
    intros H; repeat (destruct H as [<- | H]; [reflexivity|]); try contradiction.
  destruct H as [<- | []]. unfold special.
  repeat match goal with
    | |- context [Ascii.eqb a ?x] => destruct (Ascii.eqb_spec a x); [contradiction|]
    end. reflexivity.
Qed.

Lemma list_ascii_of_string_app a b :
  list_ascii_of_string (a +:+ b) = list_ascii_of_string a ++ list_ascii_of_string b.
Proof.
  induction a as [|x a IH]; [done|].
  change (x :: list_ascii_of_string (a +:+ b)
          = x :: (list_ascii_of_string a ++ list_ascii_of_string b)).
  by rewrite IH.
Qed.

Lemma entity_prefix_free a b x y :
  entity a +:+ x = entity b +:+ y -> a = b /\ x = y.
Proof.
  unfold entity.
  repeat match goal with
    | |- context [Ascii.eqb a ?c] => destruct (Ascii.eqb_spec a c) as [->|?]
    end;
  repeat match goal with
    | |- context [Ascii.eqb b ?c] => destruct (Ascii.eqb_spec b c) as [->|?]
    end;
  cbn [String.append]; intros H; try discriminate H;
  try (injection H; intros; subst; try contradiction; by auto).
Qed.

(** X21. [escapeHtml] is safe and loses nothing.  What it returns holds no
    [<], no [>] and no quote of either kind; it is the text with each
    of the five characters written as its entity, in one pass (so the
    ampersand that an entity brings is not escaped again); and two
    different texts never give the same result. *)
Theorem escapeHtml_safe_and_lossless (text : string) :
  (forall c, In c (list_ascii_of_string (escapeHtml text)) -> special c = false)
  /\ escapeHtml text = escaped text
  /\ (forall other, escapeHtml other = escapeHtml text -> other = text).
Proof.
  split; [|split].
  - rewrite escapeHtml_one_pass. induction text as [|a rest IH]; [intros c []|].
    intros c. cbn [escaped]. rewrite list_ascii_of_string_app, in_app_iff.
    intros [Hin | Hin]; [by eapply entity_safe | by apply IH].
  - apply escapeHtml_one_pass.
  - intros other. rewrite !escapeHtml_one_pass. revert other.
    induction text as [|a rest IH]; intros [|b other]; cbn [escaped]; try done.
    + intros H. exfalso. revert H. unfold entity.
      repeat match goal with
        | |- context [Ascii.eqb b ?c] => destruct (Ascii.eqb b c)
        end; discriminate.
    + intros H. exfalso. revert H. unfold entity.
      repeat match goal with
        | |- context [Ascii.eqb a ?c] => destruct (Ascii.eqb a c)
        end; discriminate.
    + intros H. apply entity_prefix_free in H as [-> H]. by rewrite (IH _ H).
Qed.

End Escaping.

(** ** Sending a request, end to end *)

Section Sending.

Import Schema Route Headers RequestStore RequestStore.State UseRequest.

Context (rt : Runtime) (toText : Json -> string) (flatten : list string -> Json).

(** The record of headers that the hook builds has no key
    [__proto__]. *)
Lemma headersToRecord_no_proto (rows : list Header) :
  headersToRecord rt rows !! "__proto__" = None.
Proof.
  unfold headersToRecord.
  assert (forall record : gmap string string,
            record !! "__proto__" = None ->
            fold_left (step rt) rows record !! "__proto__" = None) as Hfold.
  { induction rows as [|row rows IH]; intros record Hnone; [done|].
    cbn [fold_left]. apply IH. unfold step. destruct (kept rt row); [|done].
    unfold set_prop. destruct (String.eqb_spec (key row) "__proto__"); [done|].
    by rewrite lookup_insert_ne. }
  apply Hfold, lookup_empty.
Qed.

(** X22. [sendRequest] from the store to the target and back, through
    [api.proxy], the proxy server and the engine, with a clock that does
    not run backwards and responses whose declared content length, if
    any, has at most 15 characters.  With a URL that is blank after
    trimming nothing is sent and the store stays as it is.  Otherwise the
    store ends up not loading, with a response; when the URL posted is one
    the URL parser accepts and the timeout is within [0, 300000], it is
    the response of the engine to the request the hook built, with the
    header record as rows but for a header named [__proto__], which the
    client's schema leaves out, and the history entry holds a response
    exactly when the response has no error; if not, the proxy turns the
    request down and the store shows status 0 with an error of type
    unknown and the message 'Invalid request body'. *)
Theorem sendRequest_through_the_server (w : Proxy.World) (dateNow : nat -> Z)
    (state : RequestState) :
  Wire.plain_lengths w ->
  (Proxy.now w 0 <= Proxy.now w 1)%Q ->
  (Proxy.now w 1 <= Proxy.now w 2)%Q ->
  let api := Client.proxy toText (Wire.server flatten rt w) in
  let currentRequest := selectCurrentRequest rt state in
  match targetUrl rt (State.url state) with
  | None => sendRequest rt api dateNow state = (state, None)
  | Some url =>
      let request := proxyRequest rt currentRequest url in
      exists shown entry,
        sendRequest rt api dateNow state
        = (finish shown state, Some entry)
        /\ Response.loading shown = false
        /\ Response.error shown = Entry.error entry
        /\ (Entry.response entry = None <-> Response.error shown <> None)
        /\ (urlParses rt url = true -> 0 <= State.timeout state <= 300000 ->
            exists r,
              Proxy.executeProxyRequest rt w request = Normal r
              /\ Response.status shown = Res.status r
              /\ Response.statusText shown = Res.statusText r
              /\ Response.body shown = Res.body r
              /\ Response.bodyTruncated shown = Res.bodyTruncated r
              /\ Response.size shown = Res.size r
              /\ Response.error shown = Res.error r
              /\ (forall h, In h (Response.headers shown)
                            <-> key h <> "__proto__"
                                /\ Res.headers r !! key h = Some (value h)
                                /\ enabled h = true))
        /\ (urlParses rt url = false
            \/ State.timeout state < 0 \/ 300000 < State.timeout state ->
            Response.status shown = 0
            /\ Response.error shown
               = Some {| type := unknown; message := "Invalid request body" |})
  end.
Proof.
  intros Hlengths H01 H12 api currentRequest. unfold sendRequest. cbv zeta.
  change (Current.url (selectCurrentRequest rt state)) with (State.url state).
  destruct (targetUrl rt (State.url state)) as [url|]; [|reflexivity].
  fold currentRequest. set (request := proxyRequest rt currentRequest url).
  destruct (api_proxy_server rt toText flatten w request Hlengths H01 H12)
    as [Hvalid Hinvalid].
  assert (Wire.parsedRequest request = request) as Hsame.
  { unfold Wire.parsedRequest, request, proxyRequest.
    cbn [Req.method Req.url Req.headers Req.body Req.timeout].
    by rewrite parsedRecord_same by apply headersToRecord_no_proto. }
  rewrite Hsame in Hvalid.
  fold api in Hvalid, Hinvalid.
  destruct (api request) as [failure|response] eqn:Hapi.
  - eexists _, _. split; [reflexivity|].
    cbn [Response.loading Response.error Entry.error Entry.response Response.status].
    split; [done|]. split; [done|]. split; [done|]. split.
    + intros Hurl Htimeout. destruct (Hvalid Hurl Htimeout) as (r & _ & Habs).
      discriminate.
    + intros Hbad. specialize (Hinvalid Hbad). injection Hinvalid as ->.
      done.
  - eexists _, _. split; [reflexivity|].
    cbn [Response.loading Response.error Entry.error Entry.response Response.status
         Response.statusText Response.body Response.bodyTruncated Response.size
         Response.headers].
    split; [done|]. split; [done|]. split.
    { destruct (Client.error response); split; done. }
    split.
    + intros Hurl Htimeout. destruct (Hvalid Hurl Htimeout) as (r & Hr & Hreceived).
      injection Hreceived as ->. exists r. split; [done|].
      cbn [Client.received Client.status Client.statusText Client.body
           Client.bodyTruncated Client.size Client.error Client.headers].
      repeat (split; [reflexivity|]).
      intros [k v e]. cbn [key value enabled]. unfold responseHeaders.
      rewrite <- list_elem_of_In, list_elem_of_fmap. unfold Wire.parsedRecord. split.
      * intros ([k' v'] & [= -> -> ->] & Hin). apply elem_of_map_to_list in Hin.
        apply lookup_delete_Some in Hin as [Hne Hlookup]. cbn [fst snd] in *.
        split; [congruence | done].
      * intros (Hne & Hlookup & ->). exists (k, v). split; [done|].
        apply elem_of_map_to_list. apply lookup_delete_Some. split; [congruence | done].
    + intros Hbad. specialize (Hinvalid Hbad). discriminate.
Qed.

End Sending.

(** ** The properties at sample inputs *)

Lemma body_is_capped_stream_prefix_witness :
  Proxy.readResponseBytes sampleRuntime Samples.short_response = Normal Samples.short_read
  /\ Proxy.body Samples.short_read
     = Proxy.subarray (Proxy.delivered Samples.short_response) 0 Proxy.MAX_BODY_SIZE
  /\ Proxy.byteLength (Proxy.body Samples.short_read) <= Proxy.MAX_BODY_SIZE.
Proof.
  split; [reflexivity|].
  pose proof (body_is_capped_stream_prefix sampleRuntime Samples.short_response
                Samples.short_read eq_refl) as (Hbody & Hcap & _).
  split; [exact Hbody | exact Hcap].
Defined.

Lemma untruncated_body_is_whole_stream_witness :
  Proxy.readResponseBytes sampleRuntime Cases.plain_response = Normal Cases.plain_read
  /\ Proxy.truncated Cases.plain_read = false
  /\ Proxy.body Cases.plain_read = Proxy.delivered Cases.plain_response
  /\ Proxy.size Cases.plain_read = Proxy.byteLength (Proxy.body Cases.plain_read).
Proof.
  split; [reflexivity|]. split; [reflexivity|].
  pose proof (untruncated_body_is_whole_stream sampleRuntime Cases.plain_response
                Cases.plain_read eq_refl eq_refl) as (Hbody & Hsize & _).
  split; [exact Hbody | exact Hsize].
Defined.

Lemma truncated_flag_iff_witness :
  Proxy.readResponseBytes sampleRuntime Samples.short_response = Normal Samples.short_read
  /\ (Proxy.truncated Samples.short_read = true <->
      Proxy.MAX_BODY_SIZE < Proxy.byteLength (Proxy.delivered Samples.short_response)
      \/ (exists declared stream,
            Proxy.declaredSize sampleRuntime Samples.short_response = Some declared
            /\ Proxy.MAX_BODY_SIZE < declared
            /\ Fetch.body Samples.short_response = Some stream)).
Proof.
  split; [reflexivity|].
  exact (truncated_flag_iff sampleRuntime Samples.short_response Samples.short_read eq_refl).
Defined.

Lemma partial_read_ignores_what_follows_the_cap_witness :
  Proxy.MAX_BODY_SIZE <= Proxy.byteLength (concat [Samples.oversized_chunk])
  /\ Proxy.readPartial
       {| Fetch.chunks := [Samples.oversized_chunk] ++ [[Byte.x01]];
          Fetch.failure := Some JsOther; Fetch.cancel_failure := None |} 20000000
     = Proxy.readPartial
         {| Fetch.chunks := [Samples.oversized_chunk]; Fetch.failure := None;
            Fetch.cancel_failure := None |} 20000000.
Proof.
  assert (Proxy.MAX_BODY_SIZE <= Proxy.byteLength (concat [Samples.oversized_chunk]))
    as Hcap.
  { cbn [concat]. rewrite app_nil_r, byteLength_oversized_chunk. lia. }
  split; [exact Hcap|].
  exact (partial_read_ignores_what_follows_the_cap [Samples.oversized_chunk] [[Byte.x01]]
           (Some JsOther) None 20000000 Hcap).
Defined.

Lemma timing_nonnegative_witness :
  (Proxy.now Samples.sample_world 0 <= Proxy.now Samples.sample_world 1)%Q
  /\ (Proxy.now Samples.sample_world 1 <= Proxy.now Samples.sample_world 2)%Q
  /\ exists r,
       Proxy.executeProxyRequest sampleRuntime Samples.sample_world Samples.get_with_body
       = Normal r
       /\ 0 <= Schema.total (Schema.Res.timing r).
Proof.
  assert (Proxy.now Samples.sample_world 0 <= Proxy.now Samples.sample_world 1)%Q as H01
    by (vm_compute; discriminate).
  assert (Proxy.now Samples.sample_world 1 <= Proxy.now Samples.sample_world 2)%Q as H12
    by (vm_compute; discriminate).
  split; [exact H01|]. split; [exact H12|].
  destruct (timing_nonnegative sampleRuntime Samples.sample_world Samples.get_with_body
              H01 H12) as (r & Hr & Htotal & _).
  exists r. split; [exact Hr | exact Htotal].
Defined.

Lemma request_round_trip_witness :
  urlParses sampleRuntime (Schema.Req.url Samples.get_with_body) = true
  /\ 0 <= Schema.Req.timeout Samples.get_with_body <= 300000
  /\ Route.safeParse sampleRuntime (Wire.encodeRequest Samples.get_with_body)
     = inr Samples.get_with_body.
Proof.
  split; [reflexivity|].
  assert (0 <= Schema.Req.timeout Samples.get_with_body <= 300000) as Htimeout
    by (cbn; lia).
  split; [exact Htimeout|].
  exact (proj2 (request_round_trip sampleRuntime Samples.get_with_body eq_refl Htimeout)
           eq_refl).
Defined.

Lemma safeParse_sound_witness :
  Route.safeParse sampleRuntime Cases.bare_payload = inr Cases.bare_request
  /\ 0 <= Schema.Req.timeout Cases.bare_request <= 300000
  /\ Schema.Req.timeout Cases.bare_request = 30000.
Proof.
  split; [reflexivity|].
  pose proof (safeParse_sound sampleRuntime Cases.bare_payload Cases.bare_request eq_refl)
    as (_ & _ & _ & Hrange & Hdefault & _).
  split; [exact Hrange | exact (Hdefault eq_refl)].
Defined.

(** Every response of the sample world declares a length of eight
    characters. *)
Lemma sample_world_plain_lengths : Wire.plain_lengths Samples.sample_world.
Proof.
  intros url options response contentLength [= <-] [= <-]. cbn. lia.
Qed.

Lemma api_proxy_through_the_server_witness :
  Wire.plain_lengths Samples.sample_world
  /\ (Proxy.now Samples.sample_world 0 <= Proxy.now Samples.sample_world 1)%Q
  /\ (Proxy.now Samples.sample_world 1 <= Proxy.now Samples.sample_world 2)%Q
  /\ exists response,
       Proxy.executeProxyRequest sampleRuntime Samples.sample_world
         (Wire.parsedRequest Samples.get_with_body) = Normal response
       /\ Client.proxy (fun _ => EmptyString)
            (Wire.server (fun _ => Route.JNull) sampleRuntime Samples.sample_world)
            Samples.get_with_body
          = inr (Client.received response).
Proof.
  assert (Proxy.now Samples.sample_world 0 <= Proxy.now Samples.sample_world 1)%Q as H01
    by (vm_compute; discriminate).
  assert (Proxy.now Samples.sample_world 1 <= Proxy.now Samples.sample_world 2)%Q as H12
    by (vm_compute; discriminate).
  split; [exact sample_world_plain_lengths|]. split; [exact H01|]. split; [exact H12|].
  apply (api_proxy_through_the_server sampleRuntime (fun _ => EmptyString)
           (fun _ => Route.JNull) Samples.sample_world Samples.get_with_body
           sample_world_plain_lengths H01 H12).
  - reflexivity.
  - cbn. lia.
Defined.

(** The folders of the sample library. *)
Lemma library_folders key folder :
  Collections.folders Cases.library !! key = Some folder ->
  (key = "f1" /\ folder = Cases.outer) \/ (key = "f2" /\ folder = Cases.inner).
Proof.
  cbn [Collections.folders Cases.library]. intros Hstored.
  destruct (decide (key = "f1")) as [->|Hf1].
  { rewrite lookup_insert_eq in Hstored. left. by injection Hstored as <-. }
  rewrite lookup_insert_ne in Hstored by done.
  destruct (decide (key = "f2")) as [->|Hf2].
  { rewrite lookup_insert_eq in Hstored. right. by injection Hstored as <-. }
  rewrite lookup_insert_ne in Hstored by done. by rewrite lookup_empty in Hstored.
Qed.

Lemma library_keyed : Collections.keyed (Collections.folders Cases.library).
Proof.
  split; [reflexivity|].
  intros key folder Hstored.
  destruct (library_folders key folder Hstored) as [[-> ->] | [-> ->]]; reflexivity.
Qed.

Lemma library_within_limit : Collections.nesting_limit Cases.library.
Proof.
  intros key [folder Hstored].
  destruct (library_folders key folder Hstored) as [[-> ->] | [-> ->]];
    vm_compute; discriminate.
Qed.

Lemma createFolder_keeps_nesting_limit_witness :
  "f3" <> EmptyString
  /\ Collections.folders Cases.library !! "f3" = None
  /\ exists db',
       Collections.createFolder "f3" "2025-12-06T00:00:00.000Z" Cases.new_folder
         Cases.library = (Normal "f3", db')
       /\ Collections.getFolderDepth db' (Some "f3") = 3
       /\ Collections.nesting_limit db'.
Proof.
  assert ("f3" <> EmptyString) as Hid by discriminate.
  assert (Collections.folders Cases.library !! "f3" = None) as Hfree by reflexivity.
  split; [exact Hid|]. split; [exact Hfree|].
  assert (Collections.NewFolder.parentFolderId Cases.new_folder <> Some "f3") as Hparent
    by discriminate.
  assert (forall key stored,
            Collections.folders Cases.library !! key = Some stored ->
            Collections.F.parentFolderId stored <> Some "f3") as Hfresh.
  { intros key stored Hstored.
    destruct (library_folders key stored Hstored) as [[_ ->] | [_ ->]]; discriminate. }
  pose proof (createFolder_keeps_nesting_limit "f3" "2025-12-06T00:00:00.000Z"
                Cases.new_folder Cases.library Hid Hfree Hparent Hfresh) as Hcreate.
  cbv zeta in Hcreate.
  change (Collections.getFolderDepth Cases.library
            (Collections.NewFolder.parentFolderId Cases.new_folder)) with 2 in Hcreate.
  change (3 <=? 2) with false in Hcreate. cbv iota in Hcreate.
  destruct Hcreate as (db' & Hdb' & _ & Hdepth & _ & Hlimit).
  exists db'. split; [exact Hdb'|]. split; [exact Hdepth|].
  exact (Hlimit library_within_limit).
Defined.

Lemma getDescendantFolderIds_is_the_subtree_witness :
  Collections.keyed (Collections.folders Cases.library)
  /\ Collections.nesting_limit Cases.library
  /\ exists descendantIds,
       Collections.getDescendantFolderIds 4 (Collections.folders Cases.library) "f1"
       = Some descendantIds
       /\ forall x, In x descendantIds
                    <-> Collections.below (Collections.folders Cases.library) "f1" x.
Proof.
  split; [exact library_keyed|]. split; [exact library_within_limit|].
  apply (getDescendantFolderIds_is_the_subtree Cases.library 4 "f1" library_keyed
           library_within_limit).
  lia.
Defined.

Lemma deleteFolder_removes_the_subtree_witness :
  Collections.keyed (Collections.folders Cases.library)
  /\ Collections.nesting_limit Cases.library
  /\ exists db',
       Collections.deleteFolder 4 "f1" Cases.library = Some db'
       /\ Collections.folders db' !! "f2" = None.
Proof.
  split; [exact library_keyed|]. split; [exact library_within_limit|].
  destruct (deleteFolder_removes_the_subtree Cases.library 4 "f1" library_keyed
              library_within_limit) as (db' & Hdb' & _ & Hfolders & _); [lia|].
  exists db'. split; [exact Hdb'|].
  destruct (Collections.folders db' !! "f2") as [folder|] eqn:Hf2; [|reflexivity].
  apply Hfolders in Hf2 as [_ Hstays]. exfalso. apply Hstays. right.
  apply Collections.below_child. exists Cases.inner. split; reflexivity.
Defined.

Lemma deleteFolder_leaves_no_orphans_witness :
  Collections.keyed (Collections.folders Cases.library)
  /\ Collections.nesting_limit Cases.library
  /\ exists db',
       Collections.deleteFolder 4 "f2" Cases.library = Some db'
       /\ Collections.keyed (Collections.folders db')
       /\ Collections.nesting_limit db'.
Proof.
  split; [exact library_keyed|]. split; [exact library_within_limit|].
  destruct (Collections.deleteFolder 4 "f2" Cases.library) as [db'|] eqn:Hdb';
    [|exfalso; revert Hdb'; vm_compute; discriminate].
  exists db'. split; [reflexivity|].
  assert (4 <= 4)%nat as Hfuel by lia.
  pose proof (deleteFolder_leaves_no_orphans Cases.library db' 4 "f2" library_keyed
                library_within_limit Hfuel Hdb') as (_ & _ & _ & Hkeyed & Hlimit).
  split; [exact Hkeyed | exact Hlimit].
Defined.

Lemma updateFolder_can_close_a_cycle_witness :
  Collections.child_of (Collections.folders Cases.library) "f1" "f2"
  /\ Collections.getFolderDepth Cases.library (Some "f2") < 3
  /\ exists db',
       Collections.updateFolder "2025-12-06T00:00:00.000Z" "f1"
         (Collections.move_to (Some "f2")) Cases.library = (Normal tt, db')
       /\ forall fuel, Collections.deleteFolder fuel "f1" db' = None.
Proof.
  assert (Collections.child_of (Collections.folders Cases.library) "f1" "f2") as Hchild
    by (exists Cases.inner; split; reflexivity).
  assert (Collections.getFolderDepth Cases.library (Some "f2") < 3) as Hdepth
    by reflexivity.
  split; [exact Hchild|]. split; [exact Hdepth|].
  assert ("f1" <> "f2") as Hne by discriminate.
  destruct (updateFolder_can_close_a_cycle Cases.library "2025-12-06T00:00:00.000Z"
              "f1" "f2" Cases.outer library_keyed eq_refl Hchild Hne Hdepth)
    as (db' & Hdb' & _ & _ & Hstuck).
  exists db'. split; [exact Hdb'|].
  intros fuel. exact (proj1 (proj2 (proj2 (Hstuck fuel)))).
Defined.

Lemma sendRequest_through_the_server_witness :
  Wire.plain_lengths Samples.sample_world
  /\ (Proxy.now Samples.sample_world 0 <= Proxy.now Samples.sample_world 1)%Q
  /\ (Proxy.now Samples.sample_world 1 <= Proxy.now Samples.sample_world 2)%Q
  /\ UseRequest.targetUrl sampleRuntime (RequestStore.State.url Cases.typed_state)
     = Some "https://example.com"
  /\ exists shown entry,
       UseRequest.sendRequest sampleRuntime
         (Client.proxy (fun _ => EmptyString)
            (Wire.server (fun _ => Route.JNull) sampleRuntime Samples.sample_world))
         (fun n => Z.of_nat n) Cases.typed_state
       = (UseRequest.finish shown Cases.typed_state, Some entry)
       /\ RequestStore.Response.loading shown = false.
Proof.
  assert (Proxy.now Samples.sample_world 0 <= Proxy.now Samples.sample_world 1)%Q as H01
    by (vm_compute; discriminate).
  assert (Proxy.now Samples.sample_world 1 <= Proxy.now Samples.sample_world 2)%Q as H12
    by (vm_compute; discriminate).
  split; [exact sample_world_plain_lengths|].
  split; [exact H01|]. split; [exact H12|]. split; [reflexivity|].
  pose proof (sendRequest_through_the_server sampleRuntime (fun _ => EmptyString)
                (fun _ => Route.JNull) Samples.sample_world (fun n => Z.of_nat n)
                Cases.typed_state sample_world_plain_lengths H01 H12) as Hsend.
  cbv zeta in Hsend.
  change (UseRequest.targetUrl sampleRuntime (RequestStore.State.url Cases.typed_state))
    with (Some "https://example.com") in Hsend.
  cbv iota in Hsend.
  destruct Hsend as (shown & entry & Hsent & Hloading & _).
  exists shown, entry. split; [exact Hsent | exact Hloading].
Defined.

Lemma response_round_trip_witness :
  0 <= Schema.Res.size Cases.ok_response
  /\ exists read,
       Client.safeParse (Wire.encodeResponse Cases.ok_response) = Some read
       /\ Client.headers read = Schema.Res.headers Cases.ok_response.
Proof.
  assert (0 <= Schema.Res.size Cases.ok_response) as Hsize by (cbn; lia).
  split; [exact Hsize|].
  destruct (proj1 (response_round_trip Cases.ok_response)) as (read & Hread & Hfields).
  - exact Hsize.
  - cbn. lia.
  - intros t [= <-]. lia.
  - intros t [= <-]. lia.
  - exists read. split; [exact Hread|].
    apply (proj2 (proj2 (proj2 (proj2 (proj2 (proj2 (proj2 (proj2 (proj2 (proj2 (proj2
             Hfields))))))))))).
    reflexivity.
Defined.

Lemma HeaderCount_bounds_the_headers_sent_witness :
  NoDup (RequestStore.keptKeys sampleRuntime Samples.mixed_case_rows)
  /\ Z.of_nat (base.size (Headers.headersToRecord sampleRuntime Samples.mixed_case_rows))
     = RequestStore.HeaderCount sampleRuntime Samples.mixed_case_rows.
Proof.
  assert (NoDup (RequestStore.keptKeys sampleRuntime Samples.mixed_case_rows)) as Hdistinct
    by (apply (bool_decide_unpack _); vm_compute; exact I).
  split; [exact Hdistinct|].
  apply (proj2 (HeaderCount_bounds_the_headers_sent sampleRuntime Samples.mixed_case_rows)).
  - exact Hdistinct.
  - apply (bool_decide_unpack _). vm_compute. exact I.
Defined.

Lemma header_row_edits_witness :
  0 <= 0 < Z.of_nat (length (RequestStore.State.headers Cases.typed_state))
  /\ RequestStore.State.headers (RequestStore.removeHeader 0 Cases.typed_state)
     = [Samples.accept_lower].
Proof.
  assert (0 <= 0 < Z.of_nat (length (RequestStore.State.headers Cases.typed_state)))
    as Hin by (cbn; lia).
  split; [exact Hin|].
  exact (proj1 (proj2 (proj2 (header_row_edits Cases.typed_state 0))) Hin).
Defined.

Lemma getVariable_first_getVariablesMap_last_witness :
  Env.activeEnvironment Cases.active_state = Some Cases.twice_set
  /\ EnvStore.getVariablesMap Cases.active_state !! "host"
     = EnvStore.getVariable Cases.active_state "host".
Proof.
  split; [reflexivity|].
  apply (proj1 (proj2 (proj2 (getVariable_first_getVariablesMap_last Cases.active_state
                                "host"))) Cases.twice_set eq_refl).
  cbn. lia.
Defined.

Lemma escapeHtml_safe_and_lossless_witness :
  View.escapeHtml "<b>" = "&lt;b&gt;"
  /\ forall other, View.escapeHtml other = View.escapeHtml "<b>" -> other = "<b>".
Proof.
  split; [reflexivity|].
  exact (proj2 (proj2 (escapeHtml_safe_and_lossless "<b>"))).
Defined.
